(** * requirements_txt_fixer: a shallow embedding and its properties

    The development follows [pre_commit_hooks/requirements_txt_fixer.py]:
    Python [bytes] are lists of bytes, [str] is a list of code points,
    exceptions are an error monad, the file object and the console are an
    explicit trace of effects, and the three regular expressions of class
    [Requirement] are run by a small backtracking matcher. *)

From Stdlib.Strings Require Import String Ascii Byte.
From Stdlib Require Import List Bool Arith NArith Lia.
From Stdlib Require Import Permutation Sorted.
Import ListNotations.

Set Implicit Arguments.

(** ** Python values *)

Definition bytes := list byte.

(** A [str] is a sequence of Unicode code points. *)
Definition str := list N.

Inductive exn :=
| AssertionError
| UnicodeDecodeError
| FileNotFoundError.

Inductive result (A : Type) :=
| Ok (a : A)
| Raise (e : exn).

Arguments Ok {A} a.
Arguments Raise {A} e.

Definition bind {A B} (m : result A) (f : A -> result B) : result B :=
  match m with
  | Ok a => f a
  | Raise e => Raise e
  end.

Notation "x <- m ;; k" := (bind m (fun x => k))
  (at level 61, m at next level, right associativity).
Notation "' p <- m ;; k" := (bind m (fun x => let p := x in k))
  (at level 61, p pattern, m at next level, right associativity).

Module Py.

(** Byte literals are written as Python writes them: [b "a\n"] reads the
    escapes [\n], [\r], [\t], [\\] and [\xHH]. *)
Definition hexval (c : byte) : N :=
  let n := Byte.to_N c in
  if (48 <=? n)%N && (n <=? 57)%N then n - 48
  else if (97 <=? n)%N && (n <=? 102)%N then n - 87
  else if (65 <=? n)%N && (n <=? 70)%N then n - 55
  else 0.

Fixpoint unescape (s : bytes) : bytes :=
  match s with
  | [] => []
  | x5c :: s1 =>
      match s1 with
      | x6e :: r => x0a :: unescape r
      | x72 :: r => x0d :: unescape r
      | x74 :: r => x09 :: unescape r
      | x5c :: r => x5c :: unescape r
      | x78 :: h :: l :: r =>
          match Byte.of_N (16 * hexval h + hexval l) with
          | Some c => c :: unescape r
          | None => unescape r
          end
      | _ => x5c :: unescape s1
      end
  | c :: r => c :: unescape r
  end.

Definition b (s : String.string) : bytes := unescape (list_byte_of_string s).

Definition u (s : String.string) : str := map Byte.to_N (list_byte_of_string s).

Fixpoint bytes_eqb (x y : bytes) : bool :=
  match x, y with
  | [], [] => true
  | c :: x', d :: y' => Byte.eqb c d && bytes_eqb x' y'
  | _, _ => false
  end.

(** [x < y] on [bytes]: lexicographic on the unsigned byte values, a proper
    prefix being smaller. *)
Fixpoint bytes_ltb (x y : bytes) : bool :=
  match x, y with
  | _, [] => false
  | [], _ :: _ => true
  | c :: x', d :: y' =>
      if (Byte.to_N c <? Byte.to_N d)%N then true
      else if (Byte.to_N d <? Byte.to_N c)%N then false
      else bytes_ltb x' y'
  end.

Definition bytes_leb (x y : bytes) : bool := negb (bytes_ltb y x).

(** ASCII whitespace, the set stripped by [bytes.strip()] and matched by
    [\s] in a bytes pattern: space, \t, \n, \r, \x0b, \x0c. *)
Definition isspace (c : byte) : bool :=
  match c with
  | x09 | x0a | x0b | x0c | x0d | x20 => true
  | _ => false
  end.

Fixpoint lstrip_with (p : byte -> bool) (s : bytes) : bytes :=
  match s with
  | c :: s' => if p c then lstrip_with p s' else s
  | [] => []
  end.

Definition rstrip_with (p : byte -> bool) (s : bytes) : bytes :=
  rev (lstrip_with p (rev s)).

Definition lstrip (s : bytes) : bytes := lstrip_with isspace s.
Definition rstrip (s : bytes) : bytes := rstrip_with isspace s.
Definition strip (s : bytes) : bytes := rstrip (lstrip s).

Fixpoint startswith (p s : bytes) : bool :=
  match p, s with
  | [], _ => true
  | c :: p', d :: s' => Byte.eqb c d && startswith p' s'
  | _ :: _, [] => false
  end.

Definition endswith (p s : bytes) : bool := startswith (rev p) (rev s).

(** [sub in s] *)
Fixpoint contains (sub s : bytes) : bool :=
  startswith sub s ||
  match s with
  | [] => false
  | _ :: s' => contains sub s'
  end.

(** [s.partition(sep)[-1]]: what follows the first occurrence of [sep],
    and [b''] when there is none. *)
Fixpoint partition_last (sep s : bytes) : bytes :=
  if startswith sep s then skipn (length sep) s
  else match s with
       | [] => []
       | _ :: s' => partition_last sep s'
       end.

(** [bytes.lower()]: only ASCII [A-Z] change. *)
Definition lower_byte (c : byte) : byte :=
  let n := Byte.to_N c in
  if (65 <=? n)%N && (n <=? 90)%N then
    match Byte.of_N (n + 32) with
    | Some c' => c'
    | None => c
    end
  else c.

Definition lower (s : bytes) : bytes := map lower_byte s.

(** [b''.join(l)] *)
Definition join (l : list bytes) : bytes := concat l.

(** [list(f)] for a binary file: the lines, each with its [\n]; only the last
    one can lack it. *)
Fixpoint readlines (s : bytes) : list bytes :=
  match s with
  | [] => []
  | c :: s' =>
      if Byte.eqb c x0a then [c] :: readlines s'
      else match readlines s' with
           | [] => [[c]]
           | l :: ls => (c :: l) :: ls
           end
  end.

(** *** [bytes.decode()], strict UTF-8 *)

Definition cont (c : byte) : option N :=
  let n := Byte.to_N c in
  if (128 <=? n)%N && (n <=? 191)%N then Some (n - 128)%N else None.

Definition in_range (lo hi : N) (c : byte) : bool :=
  (lo <=? Byte.to_N c)%N && (Byte.to_N c <=? hi)%N.

Fixpoint decode_opt (s : bytes) : option str :=
  match s with
  | [] => Some []
  | c0 :: s0 =>
      let n0 := Byte.to_N c0 in
      if (n0 <? 128)%N then option_map (cons n0) (decode_opt s0)
      else if in_range 194 223 c0 then
        match s0 with
        | c1 :: r =>
            match cont c1 with
            | Some n1 => option_map (cons ((n0 - 192) * 64 + n1)%N) (decode_opt r)
            | None => None
            end
        | _ => None
        end
      else if in_range 224 239 c0 then
        match s0 with
        | c1 :: c2 :: r =>
            let lo := if (n0 =? 224)%N then 160%N else 128%N in
            let hi := if (n0 =? 237)%N then 159%N else 191%N in
            match cont c1, cont c2 with
            | Some n1, Some n2 =>
                if in_range lo hi c1 then
                  option_map (cons (((n0 - 224) * 64 + n1) * 64 + n2)%N)
                             (decode_opt r)
                else None
            | _, _ => None
            end
        | _ => None
        end
      else if in_range 240 244 c0 then
        match s0 with
        | c1 :: c2 :: c3 :: r =>
            let lo := if (n0 =? 240)%N then 144%N else 128%N in
            let hi := if (n0 =? 244)%N then 143%N else 191%N in
            match cont c1, cont c2, cont c3 with
            | Some n1, Some n2, Some n3 =>
                if in_range lo hi c1 then
                  option_map
                    (cons ((((n0 - 240) * 64 + n1) * 64 + n2) * 64 + n3)%N)
                    (decode_opt r)
                else None
            | _, _, _ => None
            end
        | _ => None
        end
      else None
  end.

Definition decode (s : bytes) : result str :=
  match decode_opt s with
  | Some t => Ok t
  | None => Raise UnicodeDecodeError
  end.

(** Whitespace of [str.strip()]: the code points Python's [str.isspace]
    accepts. *)
Definition str_isspace (c : N) : bool :=
  ((9 <=? c) && (c <=? 13) || (28 <=? c) && (c <=? 32) ||
   (c =? 133) || (c =? 160) || (c =? 5760) ||
   (8192 <=? c) && (c <=? 8202) || (c =? 8232) || (c =? 8233) ||
   (c =? 8239) || (c =? 8287) || (c =? 12288))%N.

Fixpoint str_lstrip (s : str) : str :=
  match s with
  | c :: s' => if str_isspace c then str_lstrip s' else s
  | [] => []
  end.

Definition str_strip (s : str) : str := rev (str_lstrip (rev (str_lstrip s))).

Fixpoint str_startswith (p s : str) : bool :=
  match p, s with
  | [], _ => true
  | c :: p', d :: s' => (c =? d)%N && str_startswith p' s'
  | _ :: _, [] => false
  end.

(** [sep.join(l)] on [str] *)
Fixpoint str_join (sep : str) (l : list str) : str :=
  match l with
  | [] => []
  | [x] => x
  | x :: l' => x ++ sep ++ str_join sep l'
  end.

End Py.

Import Py.

(** ** Regular expressions

    The fragment of Python's [re] that the three patterns of [Requirement]
    use: literal bytes, sequence, ordered alternation, greedy bounded
    repetition of a byte class, [$] and one capture group.  The matcher
    backtracks like [re] does: alternatives left to right, repetitions
    longest first. *)

Module Re.

Inductive re :=
| Char (c : byte)
| Seq (r1 r2 : re)
| Alt (r1 r2 : re)
| Rep (cls : byte -> bool) (lo : nat) (hi : option nat)
| Dollar
| Group (r : re).

Definition allows (hi : option nat) : bool :=
  match hi with
  | Some 0 => false
  | _ => true
  end.

Definition dec (hi : option nat) : option nat := option_map pred hi.

Section Run.
Variable A : Type.

(** [cls{lo,hi}] then [k] on what is left, longest repetition first. *)
Fixpoint rep (cls : byte -> bool) (lo : nat) (hi : option nat) (s : bytes)
         (k : bytes -> option A) : option A :=
  let stop := if Nat.eqb lo 0 then k s else None in
  match s with
  | c :: s' =>
      if cls c && allows hi then
        match rep cls (pred lo) (dec hi) s' k with
        | Some a => Some a
        | None => stop
        end
      else stop
  | [] => stop
  end.

(** [$] without MULTILINE: at the end, or before a final newline. *)
Definition at_dollar (s : bytes) : bool :=
  match s with
  | [] | [x0a] => true
  | _ => false
  end.

(** [run r s g k]: match [r] at the head of [s], then hand the rest of the
    input and the capture to [k]; [None] makes the matcher backtrack. *)
Fixpoint run (r : re) (s : bytes) (g : option bytes)
         (k : bytes -> option bytes -> option A) : option A :=
  match r with
  | Char c =>
      match s with
      | d :: s' => if Byte.eqb c d then k s' g else None
      | [] => None
      end
  | Seq r1 r2 => run r1 s g (fun s' g' => run r2 s' g' k)
  | Alt r1 r2 =>
      match run r1 s g k with
      | Some a => Some a
      | None => run r2 s g k
      end
  | Rep cls lo hi => rep cls lo hi s (fun s' => k s' g)
  | Dollar => if at_dollar s then k s g else None
  | Group r1 =>
      run r1 s g
          (fun s' _ => k s' (Some (firstn (length s - length s') s)))
  end.
End Run.

(** A match object: [start()], [end()] and the one group. *)
Record Match := { m_start : nat; m_end : nat; m_group1 : option bytes }.

Definition match_here (r : re) (s : bytes) (i : nat) : option Match :=
  run r s None
      (fun s' g => Some {| m_start := i;
                           m_end := i + (length s - length s');
                           m_group1 := g |}).

(** [pattern.match(s)] *)
Definition rmatch (r : re) (s : bytes) : option Match := match_here r s 0.

(** [pattern.search(s)]: the first position, from the left, with a match. *)
Fixpoint search_from (r : re) (s : bytes) (i : nat) : option Match :=
  match match_here r s i with
  | Some m => Some m
  | None =>
      match s with
      | [] => None
      | _ :: s' => search_from r s' (S i)
      end
  end.

Definition search (r : re) (s : bytes) : option Match := search_from r s 0.

(** [m.group()] *)
Definition group0 (s : bytes) (m : Match) : bytes :=
  firstn (m_end m - m_start m) (skipn (m_start m) s).

(** What the pattern denotes: [matches r w rest g g'] when [r] can consume
    [w] in front of [rest], the capture going from [g] to [g']. *)
Fixpoint matches (r : re) (w rest : bytes) (g g' : option bytes) : Prop :=
  match r with
  | Char c => w = [c] /\ g' = g
  | Seq r1 r2 =>
      exists w1 w2 g1,
        w = w1 ++ w2 /\ matches r1 w1 (w2 ++ rest) g g1 /\
        matches r2 w2 rest g1 g'
  | Alt r1 r2 => matches r1 w rest g g' \/ matches r2 w rest g g'
  | Rep cls lo hi =>
      forallb cls w = true /\ lo <= length w /\
      match hi with Some h => length w <= h | None => True end /\
      g' = g
  | Dollar => w = [] /\ (rest = [] \/ rest = [x0a]) /\ g' = g
  | Group r1 => (exists g1, matches r1 w rest g g1) /\ g' = Some w
  end.

End Re.

(** ** class Requirement *)

Import Re.

Definition is_eq (c : byte) : bool := Byte.eqb c x3d.

(** [={2,3}|!=|~=|>=?|<=?] *)
Definition comparison : re :=
  Alt (Rep is_eq 2 (Some 3))
 (Alt (Seq (Char x21) (Char x3d))
 (Alt (Seq (Char x7e) (Char x3d))
 (Alt (Seq (Char x3e) (Rep is_eq 0 (Some 1)))
      (Seq (Char x3c) (Rep is_eq 0 (Some 1)))))).

Definition UNTIL_COMPARISON : re := comparison.

(** [[A-Za-z0-9./:]] *)
Definition version_char (c : byte) : bool :=
  in_range 65 90 c || in_range 97 122 c || in_range 48 57 c ||
  Byte.eqb c x2e || Byte.eqb c x2f || Byte.eqb c x3a.

(** [(?:={2,3}|!=|~=|>=?|<=?|@)\s*(?P<version>[A-Za-z0-9./:]+)$], the
    group [(?:...)] first. *)
Definition version_op : re :=
  Alt (Rep is_eq 2 (Some 3))
 (Alt (Seq (Char x21) (Char x3d))
 (Alt (Seq (Char x7e) (Char x3d))
 (Alt (Seq (Char x3e) (Rep is_eq 0 (Some 1)))
 (Alt (Seq (Char x3c) (Rep is_eq 0 (Some 1)))
      (Char x40))))).

Definition VERSION_MATCHER : re :=
  Seq version_op
 (Seq (Rep isspace 0 None)
 (Seq (Group (Rep version_char 1 None))
      Dollar)).

(** [[^;\s]+] *)
Definition not_sep (c : byte) : bool := negb (Byte.eqb c x3b || isspace c).

Definition UNTIL_SEP : re := Rep not_sep 1 None.

(** The attribute [version] only caches what [extract_version] returns and
    nothing reads it back, so the record keeps [value] and [comments]. *)
Record Requirement := {
  value : option bytes;
  comments : list bytes
}.

(** [Requirement()] *)
Definition new_requirement : Requirement :=
  {| value := None; comments := [] |}.

Definition egg1 : bytes := b "#egg=".
Definition egg2 : bytes := b "&egg=".

(** The property [name]. *)
Definition name_of (v : bytes) : result bytes :=
  let name := lower v in
  if contains egg1 v then Ok (partition_last egg1 name)
  else if contains egg2 v then Ok (partition_last egg2 name)
  else
    match rmatch UNTIL_SEP name with
    | None => Raise AssertionError
    | Some m =>
        let name := group0 name m in
        match search UNTIL_COMPARISON name with
        | None => Ok name
        | Some m' => Ok (firstn (m_start m') name)
        end
    end.

Definition name (self : Requirement) : result bytes :=
  match value self with
  | None => Raise AssertionError
  | Some v => name_of v
  end.

Definition extract_version (self : Requirement) : option bytes :=
  match value self with
  | None | Some [] => None
  | Some v =>
      match search VERSION_MATCHER v with
      | Some m => m_group1 m
      | None => None
      end
  end.

Definition has_version (self : Requirement) : bool :=
  match extract_version self with
  | Some _ => true
  | None => false
  end.

Definition is_include (self : Requirement) : result bool :=
  match value self with
  | None | Some [] => Ok false
  | Some v => s <- decode v ;; Ok (str_startswith (u "-r") s)
  end.

Definition marker : bytes := b "\n".

(** [__lt__] *)
Definition lt (self requirement : Requirement) : result bool :=
  match value self with
  | None => Raise AssertionError
  | Some v =>
      if bytes_eqb v marker then Ok true
      else if match value requirement with
              | Some w => bytes_eqb w marker
              | None => false
              end then Ok false
      else
        n1 <- name self ;;
        n2 <- name requirement ;;
        Ok (bytes_ltb n1 n2)
  end.

Definition is_complete (self : Requirement) : bool :=
  match value self with
  | None => false
  | Some v =>
      negb (endswith (b "\\")
                     (rstrip_with (fun c => Byte.eqb c x0d || Byte.eqb c x0a) v))
  end.

Definition append_value (self : Requirement) (v : bytes) : Requirement :=
  match value self with
  | Some w => {| value := Some (w ++ v); comments := comments self |}
  | None => {| value := Some v; comments := comments self |}
  end.

Definition mk (v : String.string) : Requirement :=
  {| value := Some (b v); comments := [] |}.

(** ** [sorted]

    [sorted(requirements)] is a stable sort that compares with [__lt__]
    only.  It is modelled by the stable insertion sort; an exception raised
    by a comparison aborts the sort.  On the entries of a file the choice of
    the algorithm does not show: the sorted and stable permutation is unique
    ([stable_sort_unique]), and the sort raises exactly when two ordinary
    entries exist and one of them has no name ([sorted_returns_iff]). *)

Fixpoint insert (x : Requirement) (l : list Requirement)
  : result (list Requirement) :=
  match l with
  | [] => Ok [x]
  | y :: l' =>
      c <- lt y x ;;
      if (c : bool) then l'' <- insert x l' ;; Ok (y :: l'')
      else Ok (x :: l)
  end.

Fixpoint sorted (l : list Requirement) : result (list Requirement) :=
  match l with
  | [] => Ok []
  | x :: l' => s <- sorted l' ;; insert x s
  end.

(** ** [fix_requirements] *)

Definition PASS : nat := 0.
Definition FAIL : nat := 1.

(** What a run does to the file object and to the console. *)
Inductive event :=
| Print (line : str)
| Seek (offset : nat)
| Write (data : bytes)
| Truncate.

Definition blacklisted : bytes := b "pkg-resources==0.0.0\n".

Definition value_is (v : bytes) (req : Requirement) : bool :=
  match value req with
  | Some w => bytes_eqb w v
  | None => false
  end.

Definition is_blank (line : bytes) : bool := bytes_eqb (strip line) [].

Definition is_comment (line : bytes) : bool :=
  startswith (b "#") (lstrip line).

Definition add_comment (r : Requirement) (line : bytes) : Requirement :=
  {| value := value r; comments := comments r ++ [line] |}.

Definition set_value (r : Requirement) (v : bytes) : Requirement :=
  {| value := Some v; comments := comments r |}.

(** [before[-1] += b'\n'] when the last line has no newline. *)
Definition add_newline (before : list bytes) : list bytes :=
  match before with
  | [] => []
  | _ :: _ =>
      if endswith (b "\n") (last before [])
      then before
      else removelast before ++ [last before [] ++ b "\n"]
  end.

(** One turn of the loop over the lines; [requirements[-1]] is the last
    element of the list. *)
Definition scan_line (requirements : list Requirement) (line : bytes)
  : list Requirement :=
  let requirements :=
    if Nat.eqb (length requirements) 0 ||
       is_complete (last requirements new_requirement)
    then requirements ++ [new_requirement]
    else requirements in
  let requirement := last requirements new_requirement in
  let store r := removelast requirements ++ [r] in
  if Nat.eqb (length requirements) 1 && is_blank line then
    if Nat.ltb 0 (length (comments requirement)) &&
       startswith (b "#") (hd [] (comments requirement))
    then store (set_value requirement marker)
    else store (add_comment requirement line)
  else if is_comment line || is_blank line then
    store (add_comment requirement line)
  else
    store (append_value requirement line).

Definition scan (before : list bytes) : list Requirement :=
  fold_left scan_line before [].

(** A file that ends in a comment keeps it at the end. *)
Definition split_rest (requirements : list Requirement)
  : list Requirement * list bytes :=
  match value (last requirements new_requirement) with
  | None => (removelast requirements,
             comments (last requirements new_requirement))
  | Some _ => (requirements, [])
  end.

Definition drop_blacklisted (requirements : list Requirement)
  : list Requirement :=
  filter (fun req => negb (value_is blacklisted req)) requirements.

(** The entries in the order the serialising loop visits them. *)
Definition entries (before : list bytes) : result (list Requirement) :=
  sorted (drop_blacklisted (fst (split_rest (scan before)))).

(** The body of the serialising loop. *)
Definition emit_one (require_version : bool) (requirement : Requirement)
           (acc : list bytes * list str) : result (list bytes * list str) :=
  let '(after, missing_versions) := acc in
  let after := after ++ comments requirement in
  match value requirement with
  | None | Some [] => Raise AssertionError
  | Some v =>
      let after := after ++ [v] in
      if require_version then
        inc <- is_include requirement ;;
        if negb inc && negb (has_version requirement) then
          s <- decode v ;;
          Ok (after, missing_versions ++ [str_strip s])
        else Ok (after, missing_versions)
      else Ok (after, missing_versions)
  end.

Fixpoint emit (require_version : bool) (l : list Requirement)
         (acc : list bytes * list str) : result (list bytes * list str) :=
  match l with
  | [] => Ok acc
  | requirement :: l' =>
      acc' <- emit_one require_version requirement acc ;;
      emit require_version l' acc'
  end.

(** Lines 100 to 148: from the lines to [after_string] and
    [missing_versions]. *)
Definition corrected (before : list bytes) (require_version : bool)
  : result (bytes * list str) :=
  let requirements := scan before in
  let '(requirements, rest) := split_rest requirements in
  let requirements := drop_blacklisted requirements in
  l <- sorted requirements ;;
  '(after, missing_versions) <- emit require_version l ([], []) ;;
  let after := after ++ rest in
  Ok (join after, missing_versions).

Definition missing_message (missing_versions : list str) : str :=
  u "Missing versions in:" ++ u " " ++ str_join (u ", ") missing_versions.

Definition fix_requirements (f : bytes) (require_version : bool)
  : result (nat * list event) :=
  let before := readlines f in
  let before_string := join before in
  let before := add_newline before in
  if bytes_eqb (strip before_string) [] then Ok (PASS, [])
  else
    '(after_string, missing_versions) <- corrected before require_version ;;
    let outcome := PASS in
    let '(outcome, printed) :=
      if Nat.ltb 0 (length missing_versions)
      then (FAIL, [Print (missing_message missing_versions)])
      else (outcome, []) in
    let '(outcome, written) :=
      if negb (bytes_eqb before_string after_string)
      then (FAIL, [Seek 0; Write after_string; Truncate])
      else (outcome, []) in
    Ok (outcome, printed ++ written).

(** ** The file object and [main] *)

Record File := { data : bytes; pos : nat }.

Definition file_step (fo : File * list str) (e : event) : File * list str :=
  let '(f, out) := fo in
  match e with
  | Print line => (f, out ++ [line])
  | Seek n => ({| data := data f; pos := n |}, out)
  | Write d =>
      ({| data := firstn (pos f) (data f)
                  ++ repeat x00 (pos f - length (data f))
                  ++ d ++ skipn (pos f + length d) (data f);
          pos := pos f + length d |}, out)
  | Truncate => ({| data := firstn (pos f) (data f); pos := pos f |}, out)
  end.

Definition file_run (evs : list event) (fo : File * list str)
  : File * list str :=
  fold_left file_step evs fo.

Fixpoint str_eqb (x y : str) : bool :=
  match x, y with
  | [], [] => true
  | c :: x', d :: y' => (c =? d)%N && str_eqb x' y'
  | _, _ => false
  end.

Record World := {
  files : str -> option bytes;
  stdout : list str
}.

Definition sorting_message (arg : str) : str := u "Sorting " ++ arg.

(** One turn of the loop of [main]: open, fix, report. *)
Definition main_file (arg : str) (require_version : bool) (w : World)
  : World * result nat :=
  match files w arg with
  | None => (w, Raise FileNotFoundError)
  | Some content =>
      match fix_requirements content require_version with
      | Raise e => (w, Raise e)
      | Ok (ret_for_file, evs) =>
          let '(f, out) :=
            file_run evs ({| data := content; pos := length content |},
                          stdout w) in
          let out :=
            if Nat.eqb ret_for_file 0 then out
            else out ++ [sorting_message arg] in
          ({| files := fun p => if str_eqb p arg then Some (data f)
                                else files w p;
              stdout := out |},
           Ok ret_for_file)
      end
  end.

Fixpoint main_loop (filenames : list str) (require_version : bool)
         (w : World) (retv : nat) : World * result nat :=
  match filenames with
  | [] => (w, Ok retv)
  | arg :: rest =>
      match main_file arg require_version w with
      | (w', Ok ret_for_file) =>
          main_loop rest require_version w' (Nat.lor retv ret_for_file)
      | (w', Raise e) => (w', Raise e)
      end
  end.

(** [main] after argparse: the file names and the flag. *)
Definition main (filenames : list str) (require_version : bool) (w : World)
  : World * result nat :=
  main_loop filenames require_version w PASS.

(** ** A run on an input, and the file it leaves *)

Definition run_on (input : String.string) (require_version : bool)
  : result (nat * bytes) :=
  '(ret, evs) <- fix_requirements (b input) require_version ;;
  Ok (ret, data (fst (file_run evs ({| data := b input;
                                        pos := length (b input) |}, [])))).

Definition expect (input : String.string) (ret : nat) (output : String.string)
  : bool :=
  match run_on input false with
  | Ok (r, out) => Nat.eqb r ret && bytes_eqb out (b output)
  | Raise _ => false
  end.

(** * Vocabulary of the statements *)

Definition is_marker (r : Requirement) : bool := value_is marker r.

(** The order [__lt__] sorts by: the marker first, then by name. *)
Definition le_key (x y : Requirement) : Prop :=
  is_marker x = true \/
  (is_marker y = false /\
   exists n1 n2, name x = Ok n1 /\ name y = Ok n2 /\ bytes_leb n1 n2 = true).

(** [has_name n r]: [r] is an ordinary entry whose sort key is [n]. *)
Definition has_name (n : bytes) (r : Requirement) : bool :=
  negb (is_marker r) &&
  match name r with
  | Ok m => bytes_eqb m n
  | Raise _ => false
  end.

Definition not_marker (r : Requirement) : Prop := is_marker r = false.

(** Only the head of the list may be the top-of-file marker. *)
Definition marker_only_first (l : list Requirement) : Prop :=
  Forall not_marker (tl l).

(** The entries that reach the sort, and the comment tail kept aside. *)
Definition parsed (before : list bytes) : list Requirement :=
  drop_blacklisted (fst (split_rest (scan before))).

Definition rest_of (before : list bytes) : list bytes :=
  snd (split_rest (scan before)).

(** A physical line with its newline. *)
Definition terminated (l : bytes) : Prop :=
  exists body, l = body ++ [x0a] /\ ~ In x0a body.

(** The lines the loop runs over. *)
Definition lines_of (f : bytes) : list bytes := add_newline (readlines f).

(** Comments are lines of the file, and a value is made of lines of the file,
    or is the marker. *)
Definition built_from (L : list bytes) (r : Requirement) : Prop :=
  incl (comments r) L /\
  match value r with
  | None => True
  | Some v => exists ls, incl ls (marker :: L) /\ v = join ls
  end.

(** What the loop appends for one entry. *)
Definition entry_lines (r : Requirement) : list bytes :=
  comments r ++ match value r with Some v => [v] | None => [] end.

(** The physical lines of one entry. *)
Definition phys_lines (r : Requirement) : list bytes :=
  comments r ++ match value r with Some v => readlines v | None => [] end.

Definition content_after (f : bytes) (evs : list event) : bytes :=
  data (fst (file_run evs ({| data := f; pos := length f |}, []))).

Definition is_file_op (e : event) : bool :=
  match e with
  | Print _ => false
  | _ => true
  end.

(** The file operations of a run, in order. *)
Definition file_ops (evs : list event) : list event := filter is_file_op evs.

Definition bytes_eq_dec : forall x y : bytes, {x = y} + {x <> y} :=
  list_eq_dec Byte.byte_eq_dec.

(** How often the line [x] occurs in [l]. *)
Definition occ (x : bytes) (l : list bytes) : nat := count_occ bytes_eq_dec l x.

Definition comment_or_blank (line : bytes) : bool :=
  is_comment line || is_blank line.

(** What a turn of the loop of [main] printed. *)
Definition printed_by (w w' : World) : list str :=
  skipn (length (stdout w)) (stdout w').

Definition one_file (path : str) (content : bytes) : World :=
  {| files := fun p => if str_eqb p path then Some content else None;
     stdout := [] |}.

Definition req_txt : str := u "req.txt".

Definition world_before : World := one_file req_txt (b "foo\nbar\n").

Definition world_after : World :=
  {| files := fun p => if str_eqb p req_txt then Some (b "bar\nfoo\n")
                       else files world_before p;
     stdout := [sorting_message req_txt] |}.

Definition version_operators : list bytes :=
  [b "=="; b "==="; b "!="; b "~="; b ">="; b ">"; b "<="; b "<"; b "@"].

(** The value ends with an operator, optional blanks and a version; only a
    final newline may follow. *)
Definition version_at_end (v : bytes) : Prop :=
  exists pre op ws ver tail,
    v = pre ++ op ++ ws ++ ver ++ tail /\
    In op version_operators /\
    forallb isspace ws = true /\
    ver <> [] /\ forallb version_char ver = true /\
    (tail = [] \/ tail = [x0a]).

(** The test of the serialising loop, and what it appends to
    [missing_versions]. *)
Definition flagged (r : Requirement) : bool :=
  match is_include r with
  | Ok false => negb (has_version r)
  | _ => false
  end.

Definition report (r : Requirement) : str :=
  match value r with
  | Some v =>
      match decode_opt v with
      | Some s => str_strip s
      | None => []
      end
  | None => []
  end.

(** The lines a run printed. *)
Definition printed (evs : list event) : list str :=
  flat_map (fun e => match e with Print s => [s] | _ => [] end) evs.

Definition ordinary (l : list Requirement) : list Requirement :=
  filter (fun r => negb (is_marker r)) l.

Definition named (r : Requirement) : Prop := exists n, name r = Ok n.

Definition decodes (r : Requirement) : Prop :=
  exists v s, value r = Some v /\ decode v = Ok s.

(** The longest prefix of bytes in a class, and what follows it. *)
Fixpoint take_while (cls : byte -> bool) (s : bytes) : bytes :=
  match s with
  | c :: s' => if cls c then c :: take_while cls s' else []
  | [] => []
  end.

Fixpoint drop_while (cls : byte -> bool) (s : bytes) : bytes :=
  match s with
  | c :: s' => if cls c then drop_while cls s' else s
  | [] => []
  end.

Definition comparison_operators : list bytes :=
  [b "=="; b "==="; b "!="; b "~="; b ">="; b ">"; b "<="; b "<"].

(** No comparison operator stands anywhere in [t]. *)
Definition operator_free (t : bytes) : Prop :=
  forall pre op rest, In op comparison_operators -> t <> pre ++ op ++ rest.

(** Not one of the ASCII letters [A-Z]. *)
Definition no_upper (c : byte) : bool := negb (in_range 65 90 c).

(** The bytes [rstrip(b'\r\n')] removes. *)
Definition is_crlf (c : byte) : bool := Byte.eqb c x0d || Byte.eqb c x0a.

(** A line that leaves its entry unfinished. *)
Definition continued (l : bytes) : bool :=
  negb (is_complete {| value := Some l; comments := [] |}).

(** A value as the scan puts it together: lines that are neither comment
    nor blank, each of them but the last one ending in a backslash. *)
Definition value_ok (v : bytes) : bool :=
  negb (bytes_eqb v []) &&
  forallb (fun l => negb (comment_or_blank l)) (readlines v) &&
  forallb continued (removelast (readlines v)) &&
  negb (continued (last (readlines v) [])).

(** An entry as the scan builds it after the first one: comment and blank
    lines, then the lines of a requirement. *)
Definition plain_entry (e : Requirement) : Prop :=
  exists v,
    value e = Some v /\ value_ok v = true /\
    forallb comment_or_blank (comments e) = true.

(** The first entry: comment lines, then either the lines of a requirement,
    or, below a first comment that starts with [#], the blank line [\n] of
    the top-of-file marker. *)
Definition first_entry (e : Requirement) : Prop :=
  forallb is_comment (comments e) = true /\
  ((exists v, value e = Some v /\ value_ok v = true) \/
   (value e = Some marker /\ comments e <> [] /\
    startswith (b "#") (hd [] (comments e)) = true)).

(** [terminated], as a test. *)
Definition terminatedb (l : bytes) : bool :=
  match rev l with
  | c :: r => Byte.eqb c x0a && negb (existsb (Byte.eqb x0a) r)
  | [] => false
  end.

(** A block of comment and blank lines that opens the file and that the
    top-of-file rule leaves in one piece: its first line does not start with
    [#], or it holds no blank line. *)
Definition opens_file (cs : list bytes) : bool :=
  forallb comment_or_blank cs &&
  (negb (startswith (b "#") (hd [] cs)) || forallb is_comment cs).

(** [cs] is a whole block of comment and blank lines behind the lines [L1]:
    it opens the file, or the lines before it end with a finished entry. *)
Definition block_start (L1 cs : list bytes) : Prop :=
  (L1 = [] /\ opens_file cs = true) \/
  (is_complete (last (scan L1) new_requirement) = true /\
   forallb comment_or_blank cs = true).

(** The entry that collects the comment lines at the end of the file. *)
Definition tail_entry (tail : list bytes) : list Requirement :=
  match tail with
  | [] => []
  | _ :: _ => [{| value := None; comments := tail |}]
  end.

(** No entry is less than the one before it. *)
Fixpoint ascending (l : list Requirement) : Prop :=
  match l with
  | x :: (y :: _) as t => lt y x = Ok false /\ ascending t
  | _ => True
  end.

(** * The embedding on concrete inputs: the repository's tests, replayed *)

Example b_escapes : b "a\n\x41\\" = [x61; x0a; x41; x5c].
Proof. reflexivity. Qed.

Example readlines_unterminated :
  readlines (b "a\nc\nb") = [b "a\n"; b "c\n"; b "b"].
Proof. reflexivity. Qed.

Example decode_rejects_ff : decode (b "\xff\n") = Raise UnicodeDecodeError.
Proof. reflexivity. Qed.

Example name_plain : name (mk "Django\n") = Ok (b "django").
Proof. reflexivity. Qed.

Example name_operator :
  name (mk "c-a>=1;python_version>=\x223.6\x22\n") = Ok (b "c-a").
Proof. reflexivity. Qed.

Example name_egg :
  name (mk "-e git+ssh://git_url@tag#egg=ocflib\n") = Ok (b "ocflib\n").
Proof. reflexivity. Qed.

Example version_baz : extract_version (mk "baz>=1.2.3") = Some (b "1.2.3").
Proof. reflexivity. Qed.

Example version_foo : has_version (mk "foo") = false.
Proof. reflexivity. Qed.

Example version_triple : extract_version (mk "a===1.0\n") = Some (b "1.0").
Proof. reflexivity. Qed.

Example test_integration :
  expect EmptyString PASS EmptyString &&
  expect "\n" PASS "\n" &&
  expect "# intentionally empty\n" PASS "# intentionally empty\n" &&
  expect "foo\n# comment at end\n" PASS "foo\n# comment at end\n" &&
  expect "foo\nbar\n" FAIL "bar\nfoo\n" &&
  expect "bar\nfoo\n" PASS "bar\nfoo\n" &&
  expect "a\nc\nb\n" FAIL "a\nb\nc\n" &&
  expect "a\nc\nb" FAIL "a\nb\nc\n" &&
  expect "a\nb\nc" FAIL "a\nb\nc\n" &&
  expect "#comment1\nfoo\n#comment2\nbar\n" FAIL
         "#comment2\nbar\n#comment1\nfoo\n" &&
  expect "#comment1\nbar\n#comment2\nfoo\n" PASS
         "#comment1\nbar\n#comment2\nfoo\n" &&
  expect "#comment\n\nfoo\nbar\n" FAIL "#comment\n\nbar\nfoo\n" &&
  expect "#comment\n\nbar\nfoo\n" PASS "#comment\n\nbar\nfoo\n" &&
  expect "foo\n\t#comment with indent\nbar\n" FAIL
         "\t#comment with indent\nbar\nfoo\n" &&
  expect "bar\n\t#comment with indent\nfoo\n" PASS
         "bar\n\t#comment with indent\nfoo\n" &&
  expect "\nfoo\nbar\n" FAIL "bar\n\nfoo\n" &&
  expect "\nbar\nfoo\n" PASS "\nbar\nfoo\n" &&
  expect "pyramid-foo==1\npyramid>=2\n" FAIL "pyramid>=2\npyramid-foo==1\n" &&
  expect "a==1\nc>=1\nbbbb!=1\nc-a>=1;python_version>=\x223.6\x22\ne>=2\nd>2\ng<2\nf<=2\n"
         FAIL
         "a==1\nbbbb!=1\nc>=1\nc-a>=1;python_version>=\x223.6\x22\nd>2\ne>=2\nf<=2\ng<2\n" &&
  expect "ocflib\nDjango\nPyMySQL\n" FAIL "Django\nocflib\nPyMySQL\n" &&
  expect "-e git+ssh://git_url@tag#egg=ocflib\nDjango\nPyMySQL\n" FAIL
         "Django\n-e git+ssh://git_url@tag#egg=ocflib\nPyMySQL\n" &&
  expect "bar\npkg-resources==0.0.0\nfoo\n" FAIL "bar\nfoo\n" &&
  expect "foo\npkg-resources==0.0.0\nbar\n" FAIL "bar\nfoo\n" &&
  expect "git+ssh://git_url@tag#egg=ocflib\nDjango\nijk\n" FAIL
         "Django\nijk\ngit+ssh://git_url@tag#egg=ocflib\n" &&
  expect "b==1.0.0\nc=2.0.0 \\\n --hash=sha256:abcd\na=3.0.0 \\\n  --hash=sha256:a1b1c1d1"
         FAIL
         "a=3.0.0 \\\n  --hash=sha256:a1b1c1d1\nb==1.0.0\nc=2.0.0 \\\n --hash=sha256:abcd\n" &&
  expect "a=2.0.0 \\\n --hash=sha256:abcd\nb==1.0.0\n" PASS
         "a=2.0.0 \\\n --hash=sha256:abcd\nb==1.0.0\n" = true.
Proof. vm_compute. reflexivity. Qed.

Example test_require_version :
  option_map fst (match run_on "a==1\nbbbb\nc>=1\n" false with
                  | Ok x => Some x | Raise _ => None end) = Some PASS /\
  option_map fst (match run_on "a==1\nbbbb~=2.0\nc>=1\n" true with
                  | Ok x => Some x | Raise _ => None end) = Some PASS /\
  option_map fst (match run_on "a\nbbbb~=2.0\nc>=1\n" true with
                  | Ok x => Some x | Raise _ => None end) = Some FAIL.
Proof. vm_compute. auto. Qed.

(** * Properties *)

(** ** Bytes: equality and order *)

Lemma bytes_eqb_eq (x y : bytes) : bytes_eqb x y = true <-> x = y.
Proof.
  revert y; induction x as [|c x IH]; intros [|d y]; simpl; split;
    try easy.
  - intros H. apply andb_true_iff in H as [H1 H2].
    apply byte_dec_bl in H1. apply IH in H2. congruence.
  - intros H. injection H as -> ->.
    apply andb_true_iff; split; [now apply byte_dec_lb | now apply IH].
Qed.

Lemma bytes_eqb_refl (x : bytes) : bytes_eqb x x = true.
Proof. now apply bytes_eqb_eq. Qed.

Lemma bytes_eqb_neq (x y : bytes) : bytes_eqb x y = false <-> x <> y.
Proof.
  split.
  - intros H E. apply bytes_eqb_eq in E. congruence.
  - intros H. destruct (bytes_eqb x y) eqn:E; auto.
    apply bytes_eqb_eq in E. contradiction.
Qed.

Lemma to_N_inj (c d : byte) : Byte.to_N c = Byte.to_N d -> c = d.
Proof.
  intros H. pose proof (Byte.of_to_N c) as Hc.
  pose proof (Byte.of_to_N d) as Hd. congruence.
Qed.

Lemma bytes_ltb_irrefl (x : bytes) : bytes_ltb x x = false.
Proof.
  induction x as [|c x IH]; simpl; auto. now rewrite N.ltb_irrefl.
Qed.

Lemma bytes_ltb_asym (x y : bytes) :
  bytes_ltb x y = true -> bytes_ltb y x = false.
Proof.
  revert y; induction x as [|c x IH]; intros [|d y]; simpl; auto;
    try discriminate.
  destruct (N.ltb_spec (Byte.to_N c) (Byte.to_N d)),
           (N.ltb_spec (Byte.to_N d) (Byte.to_N c));
    try lia; auto; discriminate.
Qed.

Lemma bytes_ltb_cotrans (x y z : bytes) :
  bytes_ltb x z = true -> bytes_ltb x y = true \/ bytes_ltb y z = true.
Proof.
  revert y z; induction x as [|c x IH]; intros [|e y] [|d z]; simpl;
    auto; try discriminate.
  destruct (N.ltb_spec (Byte.to_N c) (Byte.to_N d)),
           (N.ltb_spec (Byte.to_N d) (Byte.to_N c)),
           (N.ltb_spec (Byte.to_N c) (Byte.to_N e)),
           (N.ltb_spec (Byte.to_N e) (Byte.to_N c)),
           (N.ltb_spec (Byte.to_N e) (Byte.to_N d)),
           (N.ltb_spec (Byte.to_N d) (Byte.to_N e));
    try lia; auto; try discriminate.
Qed.

Lemma bytes_leb_trans (x y z : bytes) :
  bytes_leb x y = true -> bytes_leb y z = true -> bytes_leb x z = true.
Proof.
  unfold bytes_leb. intros H1 H2.
  destruct (bytes_ltb z x) eqn:E; auto.
  destruct (bytes_ltb_cotrans _ y _ E) as [H|H]; rewrite H in *; discriminate.
Qed.

Lemma bytes_leb_antisym (x y : bytes) :
  bytes_leb x y = true -> bytes_leb y x = true -> x = y.
Proof.
  unfold bytes_leb.
  revert y; induction x as [|c x IH]; intros [|d y]; simpl; auto;
    try discriminate.
  destruct (N.ltb_spec (Byte.to_N c) (Byte.to_N d)),
           (N.ltb_spec (Byte.to_N d) (Byte.to_N c));
    try lia; simpl; try discriminate.
  intros H1 H2. f_equal; [apply to_N_inj; lia | now apply IH].
Qed.

(** ** The comparator and the sort *)

Lemma bind_ok {A B} (m : result A) (f : A -> result B) (y : B) :
  bind m f = Ok y -> exists a, m = Ok a /\ f a = Ok y.
Proof. destruct m as [a|e]; simpl; [eauto | discriminate]. Qed.

Ltac bind_inv H :=
  let a := fresh "a" in
  let E := fresh "E" in
  apply bind_ok in H as (a & E & H).

Lemma lt_inv (x y : Requirement) (c : bool) :
  lt x y = Ok c ->
  (is_marker x = true /\ c = true) \/
  (is_marker x = false /\ is_marker y = true /\ c = false) \/
  (is_marker x = false /\ is_marker y = false /\
   exists n1 n2, name x = Ok n1 /\ name y = Ok n2 /\ c = bytes_ltb n1 n2).
Proof.
  unfold lt, is_marker, value_is.
  destruct (value x) as [v|] eqn:Ex; [|discriminate].
  destruct (bytes_eqb v marker) eqn:Em.
  - intros [= <-]. auto.
  - destruct (value y) as [w|] eqn:Ey.
    + destruct (bytes_eqb w marker) eqn:Em'.
      * intros [= <-]. auto.
      * intros H. bind_inv H. bind_inv H. injection H as <-.
        right; right. eauto 10.
    + intros H. bind_inv H. bind_inv H. injection H as <-.
      right; right. eauto 10.
Qed.

Lemma lt_true_le (x y : Requirement) : lt x y = Ok true -> le_key x y.
Proof.
  intros H. apply lt_inv in H as [[H _]|[(_ & _ & H)|(_ & Hy & n1 & n2 & H1 & H2 & H)]].
  - now left.
  - discriminate.
  - right. split; auto. exists n1, n2. repeat split; auto.
    unfold bytes_leb. symmetry in H. now rewrite (bytes_ltb_asym _ _ H).
Qed.

Lemma lt_false_le (x y : Requirement) : lt x y = Ok false -> le_key y x.
Proof.
  intros H. apply lt_inv in H as [[_ H]|[(_ & H & _)|(Hx & _ & n1 & n2 & H1 & H2 & H)]].
  - discriminate.
  - now left.
  - right. split; auto. exists n2, n1. repeat split; auto.
    unfold bytes_leb. now rewrite <- H.
Qed.

Lemma le_key_trans (x y z : Requirement) :
  le_key x y -> le_key y z -> le_key x z.
Proof.
  intros [Hx|(Hy & n1 & n2 & H1 & H2 & H12)] Hyz; [now left|].
  destruct Hyz as [Hy'|(Hz & m2 & m3 & H2' & H3 & H23)]; [congruence|].
  right. split; auto. exists n1, m3. repeat split; auto.
  assert (n2 = m2) by congruence. subst m2.
  eapply bytes_leb_trans; eauto.
Qed.

Lemma insert_perm (x : Requirement) (l l' : list Requirement) :
  insert x l = Ok l' -> Permutation (x :: l) l'.
Proof.
  revert l'; induction l as [|y l IH]; simpl; intros l' H.
  - injection H as <-. apply Permutation_refl.
  - bind_inv H. destruct a.
    + bind_inv H. injection H as <-.
      eapply perm_trans; [apply perm_swap|]. apply perm_skip. now apply IH.
    + injection H as <-. apply Permutation_refl.
Qed.

Theorem sorted_perm (l l' : list Requirement) :
  sorted l = Ok l' -> Permutation l l'.
Proof.
  revert l'; induction l as [|x l IH]; simpl; intros l' H.
  - injection H as <-. constructor.
  - bind_inv H. apply insert_perm in H.
    eapply perm_trans; [apply perm_skip, IH; eauto | exact H].
Qed.

Lemma insert_sorted (x : Requirement) (l l' : list Requirement) :
  StronglySorted le_key l -> insert x l = Ok l' -> StronglySorted le_key l'.
Proof.
  revert l'; induction l as [|y l IH]; simpl; intros l' Hs H.
  - injection H as <-. repeat constructor.
  - bind_inv H. apply StronglySorted_inv in Hs as [Hs Hy]. destruct a.
    + bind_inv H. injection H as <-.
      constructor; [now apply IH|].
      apply lt_true_le in E.
      eapply Permutation_Forall; [apply insert_perm; eauto|].
      constructor; auto.
    + injection H as <-. apply lt_false_le in E.
      constructor; [constructor; auto|].
      constructor; auto.
      eapply Forall_impl; [|exact Hy].
      intros z Hz. eapply le_key_trans; eauto.
Qed.

Theorem sorted_sorted (l l' : list Requirement) :
  sorted l = Ok l' -> StronglySorted le_key l'.
Proof.
  revert l'; induction l as [|x l IH]; simpl; intros l' H.
  - injection H as <-. constructor.
  - bind_inv H. eapply insert_sorted; eauto.
Qed.

Lemma lt_true_other_name (x y : Requirement) (n : bytes) :
  lt y x = Ok true -> has_name n x = true -> has_name n y = false.
Proof.
  intros H Hx. unfold has_name in *.
  apply lt_inv in H as [[H _]|[(_ & _ & H)|(Hy & Hx' & n1 & n2 & H1 & H2 & H)]].
  - now rewrite H.
  - discriminate.
  - rewrite Hy, H1. rewrite Hx', H2 in Hx. simpl in *.
    apply bytes_eqb_eq in Hx. subst n2.
    apply bytes_eqb_neq. intros ->. rewrite bytes_ltb_irrefl in H.
    discriminate.
Qed.

Lemma insert_stable (n : bytes) (x : Requirement) (l l' : list Requirement) :
  insert x l = Ok l' ->
  filter (has_name n) l' = filter (has_name n) (x :: l).
Proof.
  revert l'; induction l as [|y l IH]; simpl; intros l' H.
  - now injection H as <-.
  - bind_inv H. destruct a.
    + bind_inv H. injection H as <-. simpl.
      rewrite (IH _ E0). simpl.
      destruct (has_name n x) eqn:Hx; auto.
      now rewrite (lt_true_other_name _ _ _ E Hx).
    + now injection H as <-.
Qed.

(** The sort is stable: entries with one name keep their order. *)
Theorem sorted_stable (n : bytes) (l l' : list Requirement) :
  sorted l = Ok l' -> filter (has_name n) l' = filter (has_name n) l.
Proof.
  revert l'; induction l as [|x l IH]; simpl; intros l' H.
  - now injection H as <-.
  - bind_inv H. rewrite (insert_stable n _ _ H). simpl.
    now rewrite (IH _ E).
Qed.

Lemma insert_marker (m : Requirement) (l l' : list Requirement) :
  is_marker m = true -> Forall not_marker l ->
  insert m l = Ok l' -> l' = m :: l.
Proof.
  intros Hm Hl H. destruct l as [|y l]; simpl in H.
  - now injection H as <-.
  - bind_inv H. apply Forall_inv in Hl. red in Hl.
    apply lt_inv in E as [[E _]|[(_ & _ & ->)|(_ & E & _)]]; congruence.
Qed.

Lemma sorted_marker_only_first (l l' : list Requirement) :
  marker_only_first l -> sorted l = Ok l' -> marker_only_first l'.
Proof.
  unfold marker_only_first. destruct l as [|x l]; simpl; intros Hl H.
  - injection H as <-. constructor.
  - bind_inv H.
    assert (Hs : Forall not_marker a)
      by (eapply Permutation_Forall; [apply sorted_perm; eauto | auto]).
    destruct (is_marker x) eqn:Hx.
    + now rewrite (insert_marker _ Hx Hs H).
    + apply insert_perm in H.
      assert (Hl' : Forall not_marker l')
        by (eapply Permutation_Forall; [exact H | constructor; auto]).
      destruct l'; simpl; [constructor | now apply Forall_inv_tail in Hl'].
Qed.

(** ** The scan of the lines *)

Lemma scan_line_spec (reqs : list Requirement) (line : bytes) :
  exists pre cur cur',
    ((reqs = pre ++ [cur] /\ is_complete cur = false) \/
     (reqs = pre /\ cur = new_requirement /\
      (pre = [] \/ is_complete (last pre new_requirement) = true))) /\
    scan_line reqs line = pre ++ [cur'] /\
    ((pre = [] /\ is_blank line = true /\ cur' = set_value cur marker /\
      comments cur <> []) \/
     (cur' = add_comment cur line /\
      (is_blank line = true \/ is_comment line = true)) \/
     (cur' = append_value cur line /\
      is_blank line = false /\ is_comment line = false)).
Proof.
  assert (Hcases : exists pre cur,
    ((reqs = pre ++ [cur] /\ is_complete cur = false) \/
     (reqs = pre /\ cur = new_requirement /\
      (pre = [] \/ is_complete (last pre new_requirement) = true))) /\
    (if Nat.eqb (length reqs) 0 || is_complete (last reqs new_requirement)
     then reqs ++ [new_requirement] else reqs) = pre ++ [cur]).
  { destruct (Nat.eqb (length reqs) 0 ||
              is_complete (last reqs new_requirement)) eqn:E.
    - exists reqs, new_requirement. split; auto. right. repeat split.
      apply orb_true_iff in E as [E|E]; auto.
      left. apply Nat.eqb_eq in E. now destruct reqs.
    - apply orb_false_iff in E as [E1 E2].
      assert (Hne : reqs <> []) by (intros ->; discriminate).
      exists (removelast reqs), (last reqs new_requirement). split.
      + left. split; auto. now apply app_removelast_last.
      + now apply app_removelast_last. }
  destruct Hcases as (pre & cur & Hshape & Heq).
  exists pre, cur. unfold scan_line. rewrite Heq.
  rewrite last_last, removelast_last.
  assert (Hlen : Nat.eqb (length (pre ++ [cur])) 1 = true -> pre = []).
  { rewrite length_app. simpl. intros H. apply Nat.eqb_eq in H.
    destruct pre; auto. simpl in H. lia. }
  destruct (Nat.eqb (length (pre ++ [cur])) 1 && is_blank line) eqn:E1.
  - apply andb_true_iff in E1 as [E1 Hb]. apply Hlen in E1.
    destruct (Nat.ltb 0 (length (comments cur)) &&
              startswith (b "#") (hd [] (comments cur))) eqn:E2.
    + eexists. split; [|split; [reflexivity|]]; auto.
      left. repeat split; auto.
      apply andb_true_iff in E2 as [E2 _]. intros Hc. now rewrite Hc in E2.
    + eexists. split; [|split; [reflexivity|]]; auto.
  - destruct (is_comment line || is_blank line) eqn:E2.
    + eexists. split; [|split; [reflexivity|]]; auto.
      right; left. split; auto.
      apply orb_true_iff in E2 as [E2|E2]; auto.
    + apply orb_false_iff in E2 as [E2 E3].
      eexists. split; [|split; [reflexivity|]]; auto.
Qed.

Lemma scan_app (l1 l2 : list bytes) :
  scan (l1 ++ l2) = fold_left scan_line l2 (scan l1).
Proof. unfold scan. apply fold_left_app. Qed.

(** An invariant of every turn of the loop is an invariant of the scan. *)
Lemma scan_ind (L : list bytes) (P : list Requirement -> Prop) :
  P [] ->
  (forall reqs line, In line L -> P reqs -> P (scan_line reqs line)) ->
  P (scan L).
Proof.
  intros H0 Hstep. unfold scan.
  assert (H : forall l reqs, incl l L -> P reqs ->
                             P (fold_left scan_line l reqs)).
  { induction l as [|x l IH]; simpl; intros reqs Hi Hp; auto.
    apply IH.
    - intros y Hy. apply Hi. now right.
    - apply Hstep; auto. apply Hi. now left. }
  apply H; auto. apply incl_refl.
Qed.

Lemma blank_of_marker_app (w line : bytes) :
  w ++ line = marker -> is_blank line = true.
Proof.
  unfold marker. intros H.
  destruct w as [|c w]; simpl in H.
  - now subst line.
  - injection H as -> H. apply app_eq_nil in H as [_ ->]. reflexivity.
Qed.

Lemma append_value_not_marker (r : Requirement) (line : bytes) :
  is_blank line = false -> not_marker (append_value r line).
Proof.
  intros Hb. unfold not_marker, is_marker, value_is, append_value.
  destruct (value r) as [w|]; simpl; apply bytes_eqb_neq; intros H.
  - apply blank_of_marker_app in H. congruence.
  - apply (blank_of_marker_app []) in H. congruence.
Qed.

Lemma scan_marker_only_first (L : list bytes) : marker_only_first (scan L).
Proof.
  apply scan_ind with (L := L); [constructor|].
  intros reqs line _ Hinv.
  destruct (scan_line_spec reqs line)
    as (pre & cur & cur' & Hshape & -> & Hcur').
  unfold marker_only_first in *.
  destruct pre as [|p ps]; simpl; [constructor|].
  assert (Hps : Forall not_marker ps /\ not_marker cur).
  { destruct Hshape as [[-> _]|(-> & -> & _)]; simpl in Hinv.
    - apply Forall_app in Hinv as [H1 H2]. split; auto.
      now apply Forall_inv in H2.
    - split; auto. reflexivity. }
  destruct Hps as [Hps Hcur].
  apply Forall_app. split; auto. constructor; [|constructor].
  destruct Hcur' as [(Hnil & _)|[(-> & _)|(-> & Hb & _)]].
  - discriminate.
  - exact Hcur.
  - now apply append_value_not_marker.
Qed.

Lemma filter_marker_only_first (f : Requirement -> bool)
      (l : list Requirement) :
  marker_only_first l -> marker_only_first (filter f l).
Proof.
  unfold marker_only_first. destruct l as [|x l]; simpl; auto.
  intros H.
  assert (Hf : Forall not_marker (filter f l)).
  { apply Forall_forall. intros y Hy. apply filter_In in Hy as [Hy _].
    rewrite Forall_forall in H. auto. }
  destruct (f x); simpl; auto.
  destruct (filter f l); simpl; [constructor | now apply Forall_inv_tail in Hf].
Qed.

Lemma removelast_marker_only_first (l : list Requirement) :
  marker_only_first l -> marker_only_first (removelast l).
Proof.
  unfold marker_only_first. destruct l as [|x l]; simpl; auto.
  intros H. destruct l as [|y l]; simpl; [constructor|].
  change (Forall not_marker (removelast (y :: l))).
  apply Forall_forall. intros z Hz. rewrite Forall_forall in H.
  apply H.
  assert (Hne : y :: l <> []) by discriminate.
  rewrite (app_removelast_last new_requirement Hne).
  apply in_or_app. now left.
Qed.

Lemma split_rest_marker_only_first (l : list Requirement) :
  marker_only_first l -> marker_only_first (fst (split_rest l)).
Proof.
  intros H. unfold split_rest.
  destruct (value (last l new_requirement)); simpl; auto.
  now apply removelast_marker_only_first.
Qed.

Lemma entries_marker_only_first (before : list bytes)
      (l : list Requirement) :
  entries before = Ok l -> marker_only_first l.
Proof.
  unfold entries. apply sorted_marker_only_first.
  apply filter_marker_only_first, split_rest_marker_only_first,
    scan_marker_only_first.
Qed.

(** ** Lines *)

Lemma join_readlines (s : bytes) : join (readlines s) = s.
Proof.
  unfold join. induction s as [|c s IH]; simpl; auto.
  destruct (Byte.eqb c x0a).
  - simpl. now rewrite IH.
  - destruct (readlines s) as [|l ls]; simpl in *.
    + now subst s.
    + now rewrite IH.
Qed.

Lemma readlines_terminated (body s : bytes) :
  ~ In x0a body ->
  readlines (body ++ x0a :: s) = (body ++ [x0a]) :: readlines s.
Proof.
  induction body as [|c body IH]; simpl; intros H; auto.
  destruct (Byte.eqb c x0a) eqn:E.
  - apply byte_dec_bl in E. subst c. exfalso. apply H. now left.
  - rewrite IH; auto.
Qed.

Lemma readlines_join (ls : list bytes) :
  Forall terminated ls -> readlines (join ls) = ls.
Proof.
  unfold join. induction 1 as [|l ls (body & -> & Hb) _ IH]; simpl; auto.
  rewrite <- app_assoc. simpl. rewrite readlines_terminated; auto.
  now rewrite IH.
Qed.

Lemma endswith_newline (body : bytes) : endswith (b "\n") (body ++ [x0a]) = true.
Proof. unfold endswith. rewrite rev_app_distr. reflexivity. Qed.

Lemma endswith_newline_in (l : bytes) :
  endswith (b "\n") l = true -> In x0a l.
Proof.
  unfold endswith. intros H. apply in_rev.
  destruct (rev l) as [|d r]; simpl in H; [discriminate|].
  apply andb_true_iff in H as [H _]. apply byte_dec_bl in H. now left.
Qed.

(** [list(f)]: full lines, then at most one unfinished line. *)
Lemma readlines_shape (s : bytes) :
  exists full tail,
    readlines s = full ++ tail /\ Forall terminated full /\
    (tail = [] \/ exists t, tail = [t] /\ t <> [] /\ ~ In x0a t).
Proof.
  induction s as [|c s (full & tail & Hs & Hfull & Htail)]; simpl.
  - exists [], []. auto.
  - destruct (Byte.eqb c x0a) eqn:E.
    + apply byte_dec_bl in E. subst c.
      exists ([x0a] :: full), tail. rewrite Hs. repeat split; auto.
      constructor; auto. exists []. auto.
    + assert (Hc : x0a <> c).
      { intros <-. now rewrite (byte_dec_lb eq_refl) in E. }
      rewrite Hs. destruct full as [|l full]; simpl.
      * destruct Htail as [->|(t & -> & Ht & Hnl)].
        -- exists [], [[c]]. repeat split; auto.
           right. exists [c]. repeat split; auto; try discriminate.
           intros [H|[]]; auto.
        -- exists [], [c :: t]. repeat split; auto.
           right. exists (c :: t). repeat split; auto; try discriminate.
           intros [H|H]; auto.
      * exists ((c :: l) :: full), tail. repeat split; auto.
        apply Forall_cons_iff in Hfull as [(body & -> & Hb) Hfull].
        constructor; auto. exists (c :: body). split; auto.
        intros [H|H]; auto.
Qed.

Lemma lines_of_terminated (f : bytes) : Forall terminated (lines_of f).
Proof.
  unfold lines_of, add_newline.
  destruct (readlines_shape f) as (full & tail & -> & Hfull & Htail).
  destruct (full ++ tail) as [|x l] eqn:E; [constructor|].
  rewrite <- E.
  destruct Htail as [->|(t & -> & Ht & Hnl)].
  - rewrite app_nil_r in *. subst full.
    assert (Hl : terminated (last (x :: l) [])).
    { rewrite Forall_forall in Hfull. apply Hfull.
      destruct (@exists_last _ (x :: l)) as (l' & a & Ha); [discriminate|].
      rewrite Ha, last_last. apply in_or_app. right. now left. }
    destruct Hl as (body & Hl & _). rewrite Hl, endswith_newline. auto.
  - rewrite last_last, removelast_last.
    destruct (endswith (b "\n") t) eqn:Ee.
    + apply endswith_newline_in in Ee. contradiction.
    + apply Forall_app. split; auto. constructor; auto. now exists t.
Qed.

Lemma marker_terminated : terminated marker.
Proof. exists []. split; auto. Qed.

(** ** Where the entries come from *)

Lemma scan_built_from (L : list bytes) : Forall (built_from L) (scan L).
Proof.
  apply scan_ind with (L := L); [constructor|].
  intros reqs line Hline Hinv.
  destruct (scan_line_spec reqs line)
    as (pre & cur & cur' & Hshape & -> & Hcur').
  assert (Hpc : Forall (built_from L) pre /\ built_from L cur).
  { destruct Hshape as [[-> _]|(-> & -> & _)].
    - apply Forall_app in Hinv as [H1 H2]. split; auto.
      now apply Forall_inv in H2.
    - split; auto. split; simpl; auto. intros x []. }
  destruct Hpc as [Hpre [Hc Hv]].
  apply Forall_app. split; auto. constructor; [|constructor].
  destruct Hcur' as [(_ & _ & -> & _)|[(-> & _)|(-> & _)]].
  - split; simpl; auto. exists [marker]. split.
    + intros x [<-|[]]. now left.
    + reflexivity.
  - split; simpl; auto.
    apply incl_app; auto. intros x [<-|[]]. auto.
  - unfold append_value. destruct (value cur) as [w|]; split; simpl; auto.
    + destruct Hv as (ls & Hls & ->). exists (ls ++ [line]). split.
      * apply incl_app; auto. intros x [<-|[]]. now right.
      * unfold join. rewrite concat_app. simpl. now rewrite app_nil_r.
    + exists [line]. split.
      * intros x [<-|[]]. now right.
      * unfold join. simpl. now rewrite app_nil_r.
Qed.

Lemma removelast_incl {A} (l : list A) : incl (removelast l) l.
Proof.
  destruct l as [|x l]; [apply incl_refl|].
  assert (Hne : x :: l <> []) by discriminate.
  intros y Hy. rewrite (app_removelast_last x Hne). apply in_or_app. now left.
Qed.

Lemma parsed_incl (L : list bytes) : incl (parsed L) (scan L).
Proof.
  unfold parsed, drop_blacklisted, split_rest. intros r Hr.
  apply filter_In in Hr as [Hr _].
  destruct (value (last (scan L) new_requirement)); simpl in Hr; auto.
  now apply removelast_incl in Hr.
Qed.

Lemma rest_of_incl (L : list bytes) : incl (rest_of L) L.
Proof.
  unfold rest_of, split_rest.
  destruct (value (last (scan L) new_requirement)) eqn:E; simpl.
  - intros x [].
  - destruct (scan L) as [|x l] eqn:Es; [intros y []|].
    pose proof (scan_built_from L) as H. rewrite Es in H.
    rewrite Forall_forall in H.
    assert (Hin : In (last (x :: l) new_requirement) (x :: l)).
    { destruct (@exists_last _ (x :: l)) as (l' & a & Ha); [discriminate|].
      rewrite Ha, last_last. apply in_or_app. right. now left. }
    apply H in Hin. apply Hin.
Qed.

(** ** The serialising loop *)

Lemma emit_one_after (rv : bool) (r : Requirement)
      (after after' : list bytes) (m m' : list str) :
  emit_one rv r (after, m) = Ok (after', m') ->
  after' = after ++ entry_lines r.
Proof.
  unfold emit_one, entry_lines.
  destruct (value r) as [[|c v]|]; try discriminate.
  rewrite <- app_assoc.
  destruct rv; [|now intros [= <- _]].
  intros H. bind_inv H.
  destruct (negb a && negb (has_version r)).
  - bind_inv H. now injection H as <- _.
  - now injection H as <- _.
Qed.

Lemma emit_after (rv : bool) (l : list Requirement)
      (after after' : list bytes) (m m' : list str) :
  emit rv l (after, m) = Ok (after', m') ->
  after' = after ++ flat_map entry_lines l.
Proof.
  revert after m; induction l as [|r l IH]; simpl; intros after m H.
  - injection H as <- _. now rewrite app_nil_r.
  - bind_inv H. destruct a as [a1 m1].
    apply emit_one_after in E. apply IH in H. subst.
    now rewrite app_assoc.
Qed.

Lemma corrected_inv (before : list bytes) (rv : bool)
      (after_string : bytes) (missing : list str) :
  corrected before rv = Ok (after_string, missing) ->
  exists out,
    entries before = Ok out /\
    emit rv out ([], []) = Ok (flat_map entry_lines out, missing) /\
    after_string = join (flat_map entry_lines out ++ rest_of before).
Proof.
  unfold corrected, entries, rest_of.
  destruct (split_rest (scan before)) as [reqs rest]; simpl.
  intros H. bind_inv H. bind_inv H. destruct a0 as [after m].
  injection H as <- <-. exists a. split; auto.
  pose proof (emit_after _ _ _ _ E0) as Ha. simpl in Ha. subst after.
  auto.
Qed.

(** ** The file after the run *)

Lemma rewrite_content (f after : bytes) (out : list str) :
  data (fst (file_run [Seek 0; Write after; Truncate]
                      ({| data := f; pos := length f |}, out))) = after.
Proof.
  simpl. rewrite firstn_app, firstn_all, Nat.sub_diag. simpl.
  now rewrite app_nil_r.
Qed.

Lemma fix_requirements_inv (f : bytes) (rv : bool)
      (ret : nat) (evs : list event) :
  fix_requirements f rv = Ok (ret, evs) ->
  (is_blank f = true /\ ret = PASS /\ evs = []) \/
  (is_blank f = false /\
   exists after missing,
     corrected (lines_of f) rv = Ok (after, missing) /\
     evs = (if Nat.ltb 0 (length missing)
            then [Print (missing_message missing)] else []) ++
           (if bytes_eqb f after then []
            else [Seek 0; Write after; Truncate]) /\
     ret = (if bytes_eqb f after
            then if Nat.ltb 0 (length missing) then FAIL else PASS
            else FAIL)).
Proof.
  unfold fix_requirements, is_blank. rewrite join_readlines.
  fold (lines_of f).
  destruct (bytes_eqb (strip f) []).
  - intros [= <- <-]. auto.
  - intros H. bind_inv H. destruct a as [after missing].
    right. split; auto. exists after, missing. split; auto.
    destruct (Nat.ltb 0 (length missing)), (bytes_eqb f after);
      simpl in H; injection H as <- <-; auto.
Qed.

Lemma content_after_corrected (f : bytes) (rv : bool)
      (ret : nat) (evs : list event) :
  fix_requirements f rv = Ok (ret, evs) -> is_blank f = false ->
  exists missing,
    corrected (lines_of f) rv = Ok (content_after f evs, missing).
Proof.
  intros H Hb.
  apply fix_requirements_inv in H as [(Hb' & _)|(_ & after & missing & Hc & -> & _)];
    [congruence|].
  exists missing. replace (content_after f _) with after; auto.
  unfold content_after.
  destruct (bytes_eqb f after) eqn:E.
  - apply bytes_eqb_eq in E. subst after.
    now destruct (Nat.ltb 0 (length missing)).
  - destruct (Nat.ltb 0 (length missing)); symmetry.
    + change (data (fst (file_run [Seek 0; Write after; Truncate]
               ({| data := f; pos := length f |},
                [] ++ [missing_message missing]))) = after).
      apply rewrite_content.
    + apply rewrite_content.
Qed.

Lemma is_marker_iff (r : Requirement) :
  is_marker r = true <-> value r = Some marker.
Proof.
  unfold is_marker, value_is. destruct (value r) as [v|]; split;
    try discriminate.
  - intros H. apply bytes_eqb_eq in H. now subst.
  - intros [= ->]. apply bytes_eqb_refl.
Qed.

Lemma StronglySorted_consecutive {A} (R : A -> A -> Prop) (l : list A) :
  StronglySorted R l ->
  forall i x y, nth_error l i = Some x -> nth_error l (S i) = Some y -> R x y.
Proof.
  induction 1 as [|a l Hs IH Ha]; intros i x y Hx Hy.
  - destruct i; discriminate.
  - destruct i as [|i]; simpl in *.
    + injection Hx as <-. rewrite Forall_forall in Ha. apply Ha.
      destruct l; [discriminate|]. simpl in Hy. injection Hy as <-. now left.
    + eapply IH; eauto.
Qed.

Lemma emit_one_value (rv : bool) (r : Requirement)
      (acc acc' : list bytes * list str) :
  emit_one rv r acc = Ok acc' -> exists v, value r = Some v /\ v <> [].
Proof.
  unfold emit_one. destruct acc as [after m].
  destruct (value r) as [[|c v]|]; try discriminate.
  intros _. eexists. split; eauto. discriminate.
Qed.

Lemma emit_values (rv : bool) (l : list Requirement)
      (acc acc' : list bytes * list str) :
  emit rv l acc = Ok acc' ->
  Forall (fun r => exists v, value r = Some v /\ v <> []) l.
Proof.
  revert acc; induction l as [|r l IH]; simpl; intros acc H; constructor.
  - bind_inv H. eapply emit_one_value; eauto.
  - bind_inv H. eapply IH; eauto.
Qed.

Lemma emit_no_report (l : list Requirement)
      (after after' : list bytes) (m m' : list str) :
  emit false l (after, m) = Ok (after', m') -> m' = m.
Proof.
  revert after m; induction l as [|r l IH]; simpl; intros after m H.
  - now injection H as _ <-.
  - bind_inv H. destruct a as [a1 m1]. apply IH in H. subst m'.
    unfold emit_one in E. destruct (value r) as [[|c v]|]; try discriminate.
    now injection E as _ <-.
Qed.

(** A run that gets past the whitespace test serialises sorted entries. *)
Lemma run_entries (f : bytes) (rv : bool) (ret : nat) (evs : list event) :
  fix_requirements f rv = Ok (ret, evs) -> is_blank f = false ->
  exists out missing,
    entries (lines_of f) = Ok out /\
    Permutation (parsed (lines_of f)) out /\
    emit rv out ([], []) = Ok (flat_map entry_lines out, missing) /\
    content_after f evs =
      join (flat_map entry_lines out ++ rest_of (lines_of f)).
Proof.
  intros H Hb.
  destruct (content_after_corrected _ _ H Hb) as (missing & Hc).
  apply corrected_inv in Hc as (out & He & Hm & Ha).
  exists out, missing. repeat split; auto.
  now apply sorted_perm.
Qed.

Ltac by_run := vm_compute; reflexivity.

(** C1: in the output the entries stand in nondecreasing byte order of their
    names, consecutive entry by consecutive entry; a top-of-file marker entry
    (value [\n]) can only be the first one, whatever the names; and the sort
    is stable, the entries of one name keeping the order they had before the
    sort. *)
Theorem sorted_entries_in_name_order
        (f : bytes) (rv : bool) (ret : nat) (evs : list event) :
  fix_requirements f rv = Ok (ret, evs) -> is_blank f = false ->
  exists out,
    entries (lines_of f) = Ok out /\
    content_after f evs =
      join (flat_map entry_lines out ++ rest_of (lines_of f)) /\
    Permutation (parsed (lines_of f)) out /\
    (forall i r, nth_error out i = Some r -> value r = Some marker -> i = 0) /\
    (forall i x y,
        nth_error out i = Some x -> nth_error out (S i) = Some y ->
        value x = Some marker \/
        exists n1 n2,
          name x = Ok n1 /\ name y = Ok n2 /\ bytes_leb n1 n2 = true) /\
    (forall n, filter (has_name n) out
               = filter (has_name n) (parsed (lines_of f))).
Proof.
  intros H Hb.
  destruct (run_entries _ _ H Hb) as (out & missing & He & Hp & _ & Hc).
  exists out. repeat split; auto.
  - intros i r Hi Hr. destruct i as [|i]; auto. exfalso.
    pose proof (entries_marker_only_first _ He) as Hm.
    unfold marker_only_first in Hm. rewrite Forall_forall in Hm.
    assert (Hin : In r (tl out)).
    { destruct out as [|x out]; [discriminate|]. simpl in *.
      eapply nth_error_In; eauto. }
    apply Hm in Hin. apply is_marker_iff in Hr. congruence.
  - intros i x y Hx Hy.
    pose proof (StronglySorted_consecutive (sorted_sorted _ He) _ Hx Hy)
      as [Hk|(_ & Hk)]; auto.
    left. now apply is_marker_iff.
  - intros n. now apply sorted_stable.
Qed.

Lemma sorted_entries_in_name_order_witness :
  exists out,
    entries (lines_of (b "foo\nbar\n")) = Ok out /\
    b "bar\nfoo\n"
    = join (flat_map entry_lines out ++ rest_of (lines_of (b "foo\nbar\n"))) /\
    Permutation (parsed (lines_of (b "foo\nbar\n"))) out /\
    (forall i r, nth_error out i = Some r -> value r = Some marker -> i = 0) /\
    (forall i x y,
        nth_error out i = Some x -> nth_error out (S i) = Some y ->
        value x = Some marker \/
        exists n1 n2,
          name x = Ok n1 /\ name y = Ok n2 /\ bytes_leb n1 n2 = true) /\
    (forall n, filter (has_name n) out
               = filter (has_name n) (parsed (lines_of (b "foo\nbar\n")))).
Proof.
  apply (@sorted_entries_in_name_order (b "foo\nbar\n") false FAIL
           [Seek 0; Write (b "bar\nfoo\n"); Truncate]); by_run.
Defined.

(** C2: the file is rewritten (seek, write, truncate) exactly when the
    serialised bytes differ from the bytes read; the outcome is FAIL exactly
    when they differ or a missing version was reported, and PASS otherwise.
    A file of whitespace only is left before any byte is serialised: PASS,
    nothing written. *)
Theorem rewrite_iff_changed
        (f : bytes) (rv : bool) (ret : nat) (evs : list event) :
  fix_requirements f rv = Ok (ret, evs) ->
  (is_blank f = true /\ ret = PASS /\ evs = []) \/
  (is_blank f = false /\
   exists after_string missing_versions,
     corrected (lines_of f) rv = Ok (after_string, missing_versions) /\
     (file_ops evs = [Seek 0; Write after_string; Truncate]
      <-> after_string <> f) /\
     (file_ops evs = [] <-> after_string = f) /\
     (ret = FAIL <-> after_string <> f \/ missing_versions <> []) /\
     (ret = PASS <-> after_string = f /\ missing_versions = [])).
Proof.
  intros H.
  apply fix_requirements_inv in H
    as [?|(Hb & after & missing & Hc & -> & ->)]; auto.
  right. split; auto. exists after, missing. split; auto.
  unfold file_ops, PASS, FAIL.
  destruct (bytes_eqb f after) eqn:E.
  - apply bytes_eqb_eq in E. subst after.
    destruct missing as [|m missing]; simpl; repeat split;
      try tauto; try discriminate; try (intros [? ?]; congruence);
      try (intros [?|?]; congruence); auto.
    right. discriminate.
  - apply bytes_eqb_neq in E.
    assert (E' : after <> f) by congruence.
    destruct missing as [|m missing]; simpl; repeat split;
      try tauto; try discriminate; try (intros [? ?]; congruence);
      try (intros [?|?]; congruence); auto.
Qed.

Lemma rewrite_iff_changed_witness :
  (is_blank (b "foo\nbar\n") = true /\ FAIL = PASS /\
   [Seek 0; Write (b "bar\nfoo\n"); Truncate] = []) \/
  (is_blank (b "foo\nbar\n") = false /\
   exists after_string missing_versions,
     corrected (lines_of (b "foo\nbar\n")) false
     = Ok (after_string, missing_versions) /\
     (file_ops [Seek 0; Write (b "bar\nfoo\n"); Truncate]
      = [Seek 0; Write after_string; Truncate]
      <-> after_string <> b "foo\nbar\n") /\
     (file_ops [Seek 0; Write (b "bar\nfoo\n"); Truncate] = []
      <-> after_string = b "foo\nbar\n") /\
     (FAIL = FAIL <-> after_string <> b "foo\nbar\n" \/ missing_versions <> []) /\
     (FAIL = PASS <-> after_string = b "foo\nbar\n" /\ missing_versions = [])).
Proof.
  apply (@rewrite_iff_changed (b "foo\nbar\n") false FAIL
           [Seek 0; Write (b "bar\nfoo\n"); Truncate]); by_run.
Defined.

(** Past the whitespace test the run returns whenever the serialisation does. *)
Lemma fix_requirements_returns (f : bytes) (rv : bool)
      (after_string : bytes) (missing_versions : list str) :
  is_blank f = false ->
  corrected (lines_of f) rv = Ok (after_string, missing_versions) ->
  exists ret evs, fix_requirements f rv = Ok (ret, evs).
Proof.
  unfold fix_requirements, is_blank. rewrite join_readlines.
  fold (lines_of f). intros -> ->. simpl.
  destruct (Nat.ltb 0 (length missing_versions)),
           (negb (bytes_eqb f after_string)); eauto.
Qed.

Lemma fix_requirements_blank (f : bytes) (rv : bool) :
  is_blank f = true -> fix_requirements f rv = Ok (PASS, []).
Proof.
  unfold fix_requirements, is_blank. rewrite join_readlines. now intros ->.
Qed.

(** C4: no entry of the output has the value [pkg-resources==0.0.0] with its
    newline, wherever such an entry stood in the file. *)
Theorem blacklisted_entry_absent
        (f : bytes) (rv : bool) (ret : nat) (evs : list event) :
  fix_requirements f rv = Ok (ret, evs) -> is_blank f = false ->
  exists out,
    entries (lines_of f) = Ok out /\
    content_after f evs =
      join (flat_map entry_lines out ++ rest_of (lines_of f)) /\
    forall r, In r out -> value r <> Some blacklisted.
Proof.
  intros H Hb.
  destruct (run_entries _ _ H Hb) as (out & missing & He & Hp & _ & Hc).
  exists out. repeat split; auto.
  intros r Hr Hv.
  apply (Permutation_in _ (Permutation_sym Hp)) in Hr.
  unfold parsed, drop_blacklisted in Hr. apply filter_In in Hr as [_ Hr].
  unfold value_is in Hr. rewrite Hv, bytes_eqb_refl in Hr. discriminate.
Qed.

Lemma blacklisted_entry_absent_witness :
  exists out,
    entries (lines_of (b "bar\npkg-resources==0.0.0\nfoo\n")) = Ok out /\
    b "bar\nfoo\n" =
      join (flat_map entry_lines out
            ++ rest_of (lines_of (b "bar\npkg-resources==0.0.0\nfoo\n"))) /\
    forall r, In r out -> value r <> Some blacklisted.
Proof.
  apply (@blacklisted_entry_absent (b "bar\npkg-resources==0.0.0\nfoo\n")
           false FAIL [Seek 0; Write (b "bar\nfoo\n"); Truncate]); by_run.
Defined.

Lemma join_app (l1 l2 : list bytes) : join (l1 ++ l2) = join l1 ++ join l2.
Proof. apply concat_app. Qed.

Lemma join_entry_phys (r : Requirement) :
  join (entry_lines r) = join (phys_lines r).
Proof.
  unfold entry_lines, phys_lines. rewrite !join_app. f_equal.
  destruct (value r) as [v|]; auto.
  rewrite join_readlines. unfold join. simpl. apply app_nil_r.
Qed.

Lemma join_flat_map_phys (l : list Requirement) :
  join (flat_map entry_lines l) = join (flat_map phys_lines l).
Proof.
  induction l as [|r l IH]; simpl; auto.
  now rewrite !join_app, IH, join_entry_phys.
Qed.

Lemma phys_lines_incl (L : list bytes) (r : Requirement) :
  Forall terminated L -> built_from L r ->
  incl (phys_lines r) (marker :: L).
Proof.
  intros HL [Hc Hv]. unfold phys_lines. apply incl_app.
  - intros x Hx. right. auto.
  - destruct (value r) as [v|]; [|intros x []].
    destruct Hv as (ls & Hls & ->).
    rewrite readlines_join; auto.
    apply Forall_forall. intros x Hx. apply Hls in Hx as [<-|Hx].
    + apply marker_terminated.
    + rewrite Forall_forall in HL. auto.
Qed.

(** The physical lines of the output: those of the entries, in the sorted
    order, then the comment tail. *)
Lemma output_lines (f : bytes) (rv : bool) (ret : nat) (evs : list event) :
  fix_requirements f rv = Ok (ret, evs) -> is_blank f = false ->
  exists out,
    entries (lines_of f) = Ok out /\
    Permutation (parsed (lines_of f)) out /\
    incl (flat_map phys_lines out ++ rest_of (lines_of f))
         (marker :: lines_of f) /\
    readlines (content_after f evs)
    = flat_map phys_lines out ++ rest_of (lines_of f).
Proof.
  intros H Hb.
  destruct (run_entries _ _ H Hb) as (out & missing & He & Hp & _ & Hc).
  exists out. split; auto. split; auto.
  pose proof (lines_of_terminated f) as HL.
  assert (Hi : incl (flat_map phys_lines out ++ rest_of (lines_of f))
                    (marker :: lines_of f)).
  { apply incl_app.
    - intros x Hx. apply in_flat_map in Hx as (r & Hr & Hx).
      apply (Permutation_in _ (Permutation_sym Hp)) in Hr.
      apply parsed_incl in Hr.
      pose proof (scan_built_from (lines_of f)) as Hbf.
      rewrite Forall_forall in Hbf.
      eapply phys_lines_incl; eauto.
    - intros x Hx. right. now apply rest_of_incl. }
  split; auto.
  rewrite Hc, join_app, join_flat_map_phys, <- join_app.
  apply readlines_join.
  apply Forall_forall. intros x Hx. apply Hi in Hx as [<-|Hx].
  - apply marker_terminated.
  - rewrite Forall_forall in HL. auto.
Qed.

Lemma join_entry_lines (r : Requirement) (v : bytes) :
  value r = Some v -> join (entry_lines r) = join (comments r) ++ v.
Proof.
  intros Hv. unfold entry_lines. rewrite Hv, join_app. f_equal.
  unfold join. simpl. apply app_nil_r.
Qed.

Lemma entry_in_serialised (out : list Requirement) (rest : list bytes)
      (r : Requirement) (v : bytes) :
  In r out -> value r = Some v ->
  exists pre post,
    join (flat_map entry_lines out ++ rest)
    = pre ++ join (comments r) ++ v ++ post.
Proof.
  intros Hr Hv. apply in_split in Hr as (l1 & l2 & ->).
  exists (join (flat_map entry_lines l1)),
    (join (flat_map entry_lines l2 ++ rest)).
  rewrite flat_map_app. simpl flat_map.
  rewrite !join_app, (join_entry_lines _ Hv).
  now rewrite <- !app_assoc.
Qed.

(** *** No line is written twice *)

Lemma occ_app (x : bytes) (l1 l2 : list bytes) :
  occ x (l1 ++ l2) = occ x l1 + occ x l2.
Proof. apply count_occ_app. Qed.

Lemma occ_marker (x : bytes) : x <> marker -> occ x [marker] = 0.
Proof.
  intros Hx. unfold occ. rewrite count_occ_cons_neq; [reflexivity|].
  congruence.
Qed.

Lemma readlines_snoc (ls : list bytes) (line : bytes) :
  Forall terminated ls -> terminated line ->
  readlines (join ls ++ line) = ls ++ [line].
Proof.
  intros Hls Hline.
  replace (join ls ++ line) with (join (ls ++ [line])).
  - apply readlines_join. apply Forall_app. auto.
  - rewrite join_app. f_equal. unfold join. simpl. apply app_nil_r.
Qed.

Lemma built_from_value_lines (L : list bytes) (r : Requirement) (w : bytes) :
  Forall terminated L -> built_from L r -> value r = Some w ->
  exists ls, Forall terminated ls /\ w = join ls /\ readlines w = ls.
Proof.
  intros HL [_ Hv] Hw. rewrite Hw in Hv. destruct Hv as (ls & Hls & ->).
  assert (Ht : Forall terminated ls).
  { apply Forall_forall. intros x Hx. apply Hls in Hx as [<-|Hx].
    - apply marker_terminated.
    - rewrite Forall_forall in HL. auto. }
  exists ls. repeat split; auto. now apply readlines_join.
Qed.

(** One turn of the loop adds at most the line it read. *)
Lemma scan_line_occ (L : list bytes) (cur cur' : Requirement)
      (line x : bytes) :
  Forall terminated L -> terminated line -> built_from L cur ->
  x <> marker ->
  cur' = set_value cur marker \/ cur' = add_comment cur line \/
  cur' = append_value cur line ->
  occ x (phys_lines cur') <= occ x (phys_lines cur) + occ x [line].
Proof.
  intros HL Hline Hb Hx Hcur'. unfold phys_lines.
  destruct Hcur' as [-> | [-> | ->]].
  - unfold set_value. cbn [value comments]. rewrite !occ_app.
    change (readlines marker) with [marker]. rewrite (occ_marker Hx). lia.
  - unfold add_comment. cbn [value comments]. rewrite !occ_app. lia.
  - unfold append_value.
    destruct (value cur) as [w|] eqn:Ew; cbn [value comments].
    + destruct (built_from_value_lines HL Hb Ew) as (ls & Hls & -> & Hr).
      rewrite Hr, readlines_snoc, !occ_app; auto.
      lia.
    + rewrite !occ_app.
      replace (readlines line) with [line]; [cbn [occ count_occ]; lia|].
      symmetry. apply (readlines_snoc (ls := [])); auto.
Qed.

Lemma scan_occ (L : list bytes) (x : bytes) :
  Forall terminated L -> x <> marker ->
  occ x (flat_map phys_lines (scan L)) <= occ x L.
Proof.
  intros HL Hx. induction L as [|line L IH] using rev_ind; [simpl; lia|].
  apply Forall_app in HL as [HL Hline]. apply Forall_inv in Hline.
  specialize (IH HL).
  rewrite scan_app. simpl.
  pose proof (scan_built_from L) as Hbf.
  destruct (scan_line_spec (scan L) line)
    as (pre & cur & cur' & Hshape & -> & Hcur').
  assert (Hold : occ x (flat_map phys_lines (scan L))
                 = occ x (flat_map phys_lines pre) + occ x (phys_lines cur)
                 /\ built_from L cur).
  { destruct Hshape as [[Hs _]|(Hs & -> & _)]; rewrite Hs in *.
    - rewrite flat_map_app, occ_app. simpl. rewrite app_nil_r. split; auto.
      apply Forall_app in Hbf as [_ Hbf]. now apply Forall_inv in Hbf.
    - split; [simpl; lia|]. split; simpl; auto. intros y []. }
  destruct Hold as [Hold Hb].
  rewrite flat_map_app, !occ_app. cbn [flat_map]. rewrite app_nil_r.
  assert (Hstep : occ x (phys_lines cur')
                  <= occ x (phys_lines cur) + occ x [line]).
  { apply (scan_line_occ HL Hline Hb Hx).
    destruct Hcur' as [(_ & _ & -> & _)|[(-> & _)|(-> & _)]]; auto. }
  lia.
Qed.

Lemma occ_flat_map_filter (p : Requirement -> bool) (l : list Requirement)
      (x : bytes) :
  occ x (flat_map phys_lines (filter p l)) <= occ x (flat_map phys_lines l).
Proof.
  induction l as [|r l IH]; simpl; auto.
  destruct (p r); simpl; rewrite !occ_app; lia.
Qed.

Lemma split_rest_lines (l : list Requirement) :
  flat_map phys_lines l
  = flat_map phys_lines (fst (split_rest l)) ++ snd (split_rest l).
Proof.
  unfold split_rest.
  destruct (value (last l new_requirement)) eqn:E; simpl.
  - now rewrite app_nil_r.
  - destruct l as [|r l]; [reflexivity|].
    assert (Hne : r :: l <> []) by discriminate.
    pose proof (app_removelast_last new_requirement Hne) as Heq.
    remember (removelast (r :: l)) as rl.
    remember (last (r :: l) new_requirement) as la.
    rewrite Heq, flat_map_app. f_equal.
    cbn [flat_map]. unfold phys_lines. now rewrite E, !app_nil_r.
Qed.

(** C10: every physical line of the output is, byte for byte, a line of the
    input (the last one with its newline added when it had none) or the
    marker line [\n]; and no line but the marker is written more often than
    the input has it: whole lines are moved or dropped, nothing else. *)
Theorem output_lines_from_input
        (f : bytes) (rv : bool) (ret : nat) (evs : list event) :
  fix_requirements f rv = Ok (ret, evs) -> is_blank f = false ->
  forall l,
    (In l (readlines (content_after f evs)) ->
     In l (lines_of f) \/ l = marker) /\
    (l <> marker ->
     occ l (readlines (content_after f evs)) <= occ l (lines_of f)).
Proof.
  intros H Hb l.
  destruct (output_lines _ _ H Hb) as (out & _ & Hp & Hi & Heq).
  rewrite Heq. split.
  - intros Hl. apply Hi in Hl as [<-|Hl]; auto.
  - intros Hl.
    pose proof (scan_occ (lines_of_terminated f) Hl) as Hs.
    rewrite split_rest_lines, occ_app in Hs.
    fold (rest_of (lines_of f)) in Hs.
    rewrite occ_app.
    assert (Ho : occ l (flat_map phys_lines out)
                 = occ l (flat_map phys_lines (parsed (lines_of f)))).
    { apply Permutation_count_occ, Permutation_flat_map.
      now apply Permutation_sym. }
    pose proof (occ_flat_map_filter
                  (fun req => negb (value_is blacklisted req))
                  (fst (split_rest (scan (lines_of f)))) l) as Hf.
    fold (drop_blacklisted (fst (split_rest (scan (lines_of f))))) in Hf.
    fold (parsed (lines_of f)) in Hf.
    lia.
Qed.

Lemma output_lines_from_input_witness :
  (In (b "b\n") (readlines (b "a\nb\nc\n")) ->
   In (b "b\n") (lines_of (b "a\nc\nb")) \/ b "b\n" = marker) /\
  (b "b\n" <> marker ->
   occ (b "b\n") (readlines (b "a\nb\nc\n"))
   <= occ (b "b\n") (lines_of (b "a\nc\nb"))).
Proof.
  apply (@output_lines_from_input (b "a\nc\nb") false FAIL
           [Seek 0; Write (b "a\nb\nc\n"); Truncate] eq_refl eq_refl).
Defined.

(** ** A comment block in front of a requirement

    For a requirement of one line that follows a finished entry, the scan
    makes one entry of the comment and blank lines in front of it and of the
    line itself, and no later line touches that entry. *)

Lemma scan_line_keeps (P Q : list Requirement) (e : Requirement)
      (line : bytes) :
  is_complete e = true ->
  exists Q', scan_line (P ++ e :: Q) line = P ++ e :: Q'.
Proof.
  intros He.
  destruct (scan_line_spec (P ++ e :: Q) line)
    as (pre & cur & cur' & Hshape & -> & _).
  destruct Hshape as [[Heq Hc]|(<- & _)].
  - destruct (@exists_last _ (e :: Q)) as (Q0 & q & HQ); [discriminate|].
    rewrite HQ, app_assoc in Heq. apply app_inj_tail in Heq as [<- <-].
    destruct Q0 as [|e0 Q0]; simpl in HQ; injection HQ as <- HQ.
    + congruence.
    + exists (Q0 ++ [cur']). now rewrite <- app_assoc.
  - exists (Q ++ [cur']). now rewrite <- app_assoc.
Qed.

Lemma scan_lines_keep (L : list bytes) :
  forall (P Q : list Requirement) (e : Requirement),
    is_complete e = true ->
    exists Q', fold_left scan_line L (P ++ e :: Q) = P ++ e :: Q'.
Proof.
  induction L as [|line L IH]; intros P Q e He; simpl.
  - now exists Q.
  - destruct (scan_line_keeps P Q e line He) as (Q' & ->). now apply IH.
Qed.

Lemma length_snoc_not_1 {A} (S : list A) (x : A) :
  S <> [] -> Nat.eqb (length (S ++ [x])) 1 = false.
Proof.
  intros HS. apply Nat.eqb_neq. rewrite length_app. simpl.
  destruct S; [contradiction | simpl; lia].
Qed.

Lemma scan_line_open (S : list Requirement) (cs : list bytes)
      (line : bytes) :
  S <> [] ->
  scan_line (S ++ [{| value := None; comments := cs |}]) line
  = S ++ [if comment_or_blank line
          then {| value := None; comments := cs ++ [line] |}
          else {| value := Some line; comments := cs |}].
Proof.
  intros HS. unfold scan_line, comment_or_blank.
  rewrite last_last. cbn [is_complete value].
  assert (H0 : Nat.eqb (length (S ++ [{| value := None; comments := cs |}])) 0
               = false).
  { apply Nat.eqb_neq. rewrite length_app. simpl. lia. }
  rewrite H0. cbn [orb]. rewrite last_last, removelast_last.
  rewrite (length_snoc_not_1 _ HS). cbn [andb].
  now destruct (is_comment line || is_blank line).
Qed.

Lemma scan_line_fresh (S : list Requirement) (line : bytes) :
  S <> [] -> is_complete (last S new_requirement) = true ->
  scan_line S line
  = S ++ [if comment_or_blank line
          then {| value := None; comments := [line] |}
          else {| value := Some line; comments := [] |}].
Proof.
  intros HS Hc. unfold scan_line, comment_or_blank.
  rewrite Hc, orb_true_r, last_last, removelast_last.
  rewrite (length_snoc_not_1 _ HS). cbn [andb].
  now destruct (is_comment line || is_blank line).
Qed.

Lemma scan_comment_lines (cs : list bytes) :
  forall (S : list Requirement) (c0 : list bytes),
    S <> [] -> forallb comment_or_blank cs = true ->
    fold_left scan_line cs (S ++ [{| value := None; comments := c0 |}])
    = S ++ [{| value := None; comments := c0 ++ cs |}].
Proof.
  induction cs as [|c cs IH]; intros S c0 HS Hcs; simpl.
  - now rewrite app_nil_r.
  - simpl in Hcs. apply andb_true_iff in Hcs as [Hc Hcs].
    rewrite (@scan_line_open S c0 c HS), Hc.
    rewrite (IH S (c0 ++ [c]) HS Hcs).
    now rewrite <- app_assoc.
Qed.

(** The entry the scan builds for the block [cs] and the line [v]. *)
Lemma scan_block (L1 cs : list bytes) (v : bytes) (L2 : list bytes) :
  scan L1 <> [] ->
  is_complete (last (scan L1) new_requirement) = true ->
  forallb comment_or_blank cs = true ->
  comment_or_blank v = false ->
  is_complete {| value := Some v; comments := cs |} = true ->
  exists post,
    scan (L1 ++ cs ++ v :: L2)
    = scan L1 ++ {| value := Some v; comments := cs |} :: post.
Proof.
  intros HS Hlast Hcs Hv Hcomplete.
  rewrite scan_app, fold_left_app. simpl.
  assert (Hentry : scan_line (fold_left scan_line cs (scan L1)) v
                   = scan L1 ++ [{| value := Some v; comments := cs |}]).
  { destruct cs as [|c cs]; simpl.
    - now rewrite (@scan_line_fresh (scan L1) v HS Hlast), Hv.
    - simpl in Hcs. apply andb_true_iff in Hcs as [Hc Hcs].
      rewrite (@scan_line_fresh (scan L1) c HS Hlast), Hc.
      rewrite (@scan_comment_lines cs (scan L1) [c] HS Hcs).
      now rewrite (@scan_line_open (scan L1) ([c] ++ cs) v HS), Hv. }
  rewrite Hentry.
  destruct (scan_lines_keep L2 (scan L1) [] _ Hcomplete) as (post & ->).
  now exists post.
Qed.

Lemma in_split_rest (l : list Requirement) (e : Requirement) :
  In e l -> value e <> None -> In e (fst (split_rest l)).
Proof.
  intros He Hv. unfold split_rest.
  destruct (value (last l new_requirement)) eqn:E; simpl; auto.
  destruct l as [|x l]; [destruct He|].
  assert (Hne : x :: l <> []) by discriminate.
  rewrite (app_removelast_last new_requirement Hne) in He.
  apply in_app_or in He as [He|[<-|[]]]; auto. congruence.
Qed.

(** The block in the file, the block in the output: comment and blank lines
    in front of a one-line requirement that follows a finished entry are
    written, in their order, directly in front of that line. *)
Theorem comment_block_travels
        (f : bytes) (rv : bool) (ret : nat) (evs : list event)
        (L1 cs : list bytes) (v : bytes) (L2 : list bytes) :
  fix_requirements f rv = Ok (ret, evs) -> is_blank f = false ->
  lines_of f = L1 ++ cs ++ v :: L2 ->
  scan L1 <> [] ->
  is_complete (last (scan L1) new_requirement) = true ->
  forallb comment_or_blank cs = true ->
  comment_or_blank v = false ->
  is_complete {| value := Some v; comments := cs |} = true ->
  v <> blacklisted ->
  exists pre post, content_after f evs = pre ++ join cs ++ v ++ post.
Proof.
  intros H Hb HL HS Hlast Hcs Hv Hcomplete Hbl.
  destruct (run_entries _ _ H Hb) as (out & missing & He & Hp & _ & Hc).
  destruct (scan_block L1 cs v L2 HS Hlast Hcs Hv Hcomplete) as (post & Hscan).
  set (e := {| value := Some v; comments := cs |}) in *.
  assert (Hin : In e (parsed (lines_of f))).
  { unfold parsed, drop_blacklisted. apply filter_In. split.
    - apply in_split_rest; [|discriminate].
      rewrite HL, Hscan. apply in_or_app. right. now left.
    - unfold value_is. simpl. apply negb_true_iff.
      now apply bytes_eqb_neq. }
  apply (Permutation_in _ Hp) in Hin.
  destruct (entry_in_serialised _ (rest_of (lines_of f)) _ Hin eq_refl)
    as (pre & post' & Heq).
  exists pre, post'. now rewrite Hc.
Qed.

Lemma comment_block_travels_witness :
  exists pre post,
    b "#comment2\nbar\n#comment1\nfoo\n"
    = pre ++ join [b "#comment2\n"] ++ b "bar\n" ++ post.
Proof.
  apply (@comment_block_travels
           (b "#comment1\nfoo\n#comment2\nbar\n") false FAIL
           [Seek 0; Write (b "#comment2\nbar\n#comment1\nfoo\n"); Truncate]
           [b "#comment1\n"; b "foo\n"] [b "#comment2\n"] (b "bar\n") []);
    try by_run; vm_compute; discriminate.
Defined.

(** ** Runs on concrete files *)

(** C3: a second run is not always a no-op.  A blank line that is not
    exactly [\n] and follows a [#] comment block is replaced by the marker
    [\n] once the sort has moved the block to the top of the file: the
    output of the first run is changed again, with outcome FAIL, by the
    second run.  The same happens to a file with CRLF line ends. *)
Theorem second_run_changes_output :
  run_on "b\n#c\n \na\n" false = Ok (FAIL, b "#c\n \na\nb\n") /\
  run_on "#c\n \na\nb\n" false = Ok (FAIL, b "#c\n\na\nb\n") /\
  run_on "b\r\n#c\r\n\r\na\r\n" false
  = Ok (FAIL, b "#c\r\n\r\na\r\nb\r\n") /\
  run_on "#c\r\n\r\na\r\nb\r\n" false
  = Ok (FAIL, b "#c\r\n\na\r\nb\r\n").
Proof. repeat split; by_run. Qed.

(** C6: inputs on which the run raises instead of returning an outcome.  An
    entry that starts with a blank or with [;] makes [UNTIL_SEP.match]
    return [None], and the assertion of [name] fails as soon as the sort
    compares the entry with another one; with [require_version] a byte that
    is not UTF-8 makes [decode] raise in [is_include], while the same file
    passes without the flag. *)
Theorem malformed_input_raises :
  fix_requirements (b " foo\nbar\n") false = Raise AssertionError /\
  fix_requirements (b ";foo\nbar\n") false = Raise AssertionError /\
  fix_requirements (b "\xff\n") true = Raise UnicodeDecodeError /\
  fix_requirements (b "\xff\n") false = Ok (PASS, []).
Proof. repeat split; by_run. Qed.

(** ** [main] *)

Lemma skipn_length_app {A} (l1 l2 : list A) : skipn (length l1) (l1 ++ l2) = l2.
Proof.
  rewrite skipn_app, skipn_all, Nat.sub_diag. reflexivity.
Qed.

Lemma corrected_no_report (before : list bytes)
      (after : bytes) (missing : list str) :
  corrected before false = Ok (after, missing) -> missing = [].
Proof.
  intros H. apply corrected_inv in H as (out & _ & H & _).
  now apply emit_no_report in H.
Qed.

Lemma missing_not_sorting (m : list str) (arg : str) :
  missing_message m <> sorting_message arg.
Proof. unfold missing_message, sorting_message. simpl. discriminate. Qed.

(** One turn of the loop, spelled out. *)
Lemma main_file_inv (arg : str) (rv : bool) (w w' : World) (ret : nat) :
  main_file arg rv w = (w', Ok ret) ->
  exists content content' missing,
    files w arg = Some content /\
    files w' arg = Some content' /\
    (rv = false -> missing = []) /\
    (content' <> content \/ missing <> [] <-> ret = FAIL) /\
    (ret = PASS \/ ret = FAIL) /\
    printed_by w w'
    = (if Nat.ltb 0 (length missing) then [missing_message missing] else [])
      ++ (if Nat.eqb ret 0 then [] else [sorting_message arg]).
Proof.
  unfold main_file, printed_by.
  destruct (files w arg) as [content|] eqn:Ef; [|discriminate].
  destruct (fix_requirements content rv) as [[r evs]|e] eqn:Efix;
    [|discriminate].
  apply fix_requirements_inv in Efix
    as [(_ & -> & ->)|(_ & after & missing & Hc & -> & ->)].
  - simpl. intros [= <- <-]. simpl.
    assert (Hs : str_eqb arg arg = true).
    { clear. induction arg as [|c a IH]; simpl; auto.
      now rewrite N.eqb_refl. }
    rewrite Hs. exists content, content, []. repeat split; auto.
    + intros [H|H]; congruence.
    + discriminate.
    + rewrite <- (app_nil_r (stdout w)) at 2. apply skipn_length_app.
  - assert (Hs : str_eqb arg arg = true).
    { clear. induction arg as [|c a IH]; simpl; auto.
      now rewrite N.eqb_refl. }
    assert (Hrv : rv = false -> missing = []).
    { intros ->. eapply corrected_no_report; eauto. }
    assert (Hm : if Nat.ltb 0 (length missing)
                 then missing <> [] else missing = []).
    { destruct missing; simpl; [reflexivity | discriminate]. }
    destruct (bytes_eqb content after) eqn:E;
      destruct (Nat.ltb 0 (length missing)) eqn:El;
      simpl; intros [= <- <-]; simpl; rewrite Hs.
    + apply bytes_eqb_eq in E. subst after.
      exists content, content, missing. rewrite El.
      split; [|split; [|split; [|split; [|split]]]]; auto.
      * split; auto.
      * rewrite <- app_assoc. apply skipn_length_app.
    + apply bytes_eqb_eq in E. subst after. subst missing.
      exists content, content, [].
      split; [|split; [|split; [|split; [|split]]]]; auto.
      * split; [intros [H|H]; congruence | discriminate].
      * rewrite <- (app_nil_r (stdout w)) at 2. apply skipn_length_app.
    + apply bytes_eqb_neq in E.
      rewrite firstn_app, firstn_all, Nat.sub_diag. simpl.
      rewrite app_nil_r.
      exists content, after, missing. rewrite El.
      split; [|split; [|split; [|split; [|split]]]]; auto.
      * split; auto.
      * rewrite <- app_assoc. apply skipn_length_app.
    + apply bytes_eqb_neq in E.
      rewrite firstn_app, firstn_all, Nat.sub_diag. simpl.
      rewrite app_nil_r. subst missing.
      exists content, after, [].
      split; [|split; [|split; [|split; [|split]]]]; auto.
      * split; [reflexivity|]. intros _. left. congruence.
      * apply skipn_length_app.
Qed.

(** C8, as stated, fails: with [--require_version] a file that is already
    sorted but lacks a version is left as it is, and [Sorting <path>] is
    printed all the same. *)
Lemma sorting_printed_without_change :
  let w := one_file (u "req.txt") (b "a\n") in
  let r := main [u "req.txt"] true w in
  snd r = Ok FAIL /\
  files (fst r) (u "req.txt") = files w (u "req.txt") /\
  stdout (fst r) = [u "Missing versions in: a"; u "Sorting req.txt"] /\
  In (sorting_message (u "req.txt")) (printed_by w (fst r)).
Proof.
  repeat split; try by_run. vm_compute. right. left. reflexivity.
Qed.

(** C8, amended: in a turn of the loop of [main], [Sorting <path>] is printed
    exactly when [fix_requirements] returned FAIL for the file, that is when
    its content changed or missing versions were reported; without
    [--require_version] that is exactly when the content changed. *)
Theorem sorting_printed_iff_fail
        (arg : str) (rv : bool) (w w' : World) (ret : nat) :
  main_file arg rv w = (w', Ok ret) ->
  (In (sorting_message arg) (printed_by w w') <-> ret = FAIL) /\
  (ret = FAIL <->
   files w' arg <> files w arg \/
   exists missing, missing <> [] /\
                   In (missing_message missing) (printed_by w w')) /\
  (rv = false ->
   (In (sorting_message arg) (printed_by w w')
    <-> files w' arg <> files w arg)).
Proof.
  intros H.
  apply main_file_inv in H
    as (content & content' & missing & Hf & Hf' & Hrv & Hret & Hpf & Hp).
  rewrite Hf, Hf', Hp.
  assert (Hsort : In (sorting_message arg)
                     ((if Nat.ltb 0 (length missing)
                       then [missing_message missing] else [])
                      ++ (if Nat.eqb ret 0 then [] else [sorting_message arg]))
                  <-> ret = FAIL).
  { split.
    - intros Hin. apply in_app_or in Hin as [Hin|Hin].
      + destruct (Nat.ltb 0 (length missing)); [|destruct Hin].
        destruct Hin as [Hin|[]]. now apply missing_not_sorting in Hin.
      + destruct Hpf as [-> | ->]; auto. destruct Hin.
    - intros ->. apply in_or_app. right. now left. }
  assert (Hneq : Some content' <> Some content <-> content' <> content).
  { split; intros Hn He; apply Hn; congruence. }
  split; [exact Hsort|]. split.
  - rewrite <- Hret, Hneq. split.
    + intros [Hc|Hm]; [now left|]. right. exists missing. split; auto.
      apply in_or_app. left.
      destruct missing; [congruence|]. simpl. now left.
    + intros [Hc|(m & Hm & Hin)]; [now left|]. right.
      destruct missing; [|discriminate]. simpl in Hin.
      destruct (Nat.eqb ret 0); [destruct Hin|].
      destruct Hin as [Hin|[]]. symmetry in Hin.
      now apply missing_not_sorting in Hin.
  - intros Hf0. rewrite Hsort, <- Hret, Hneq, (Hrv Hf0). split; auto.
    intros [Hc|Hm]; auto.
Qed.

Lemma sorting_printed_iff_fail_witness :
  (In (sorting_message req_txt) (printed_by world_before world_after)
   <-> FAIL = FAIL) /\
  (FAIL = FAIL <->
   files world_after req_txt <> files world_before req_txt \/
   exists missing, missing <> [] /\
                   In (missing_message missing)
                      (printed_by world_before world_after)) /\
  (false = false ->
   (In (sorting_message req_txt) (printed_by world_before world_after)
    <-> files world_after req_txt <> files world_before req_txt)).
Proof.
  apply (@sorting_printed_iff_fail req_txt false world_before world_after
                                   FAIL).
  vm_compute. reflexivity.
Defined.

(** ** The matcher against what the patterns denote *)

Lemma rep_sound {A} (cls : byte -> bool) (s : bytes) :
  forall lo hi (k : bytes -> option A) a,
    rep cls lo hi s k = Some a ->
    exists w rest,
      s = w ++ rest /\ forallb cls w = true /\ lo <= length w /\
      match hi with Some h => length w <= h | None => True end /\
      k rest = Some a.
Proof.
  induction s as [|c s IH]; intros lo hi k a H; simpl in H.
  - destruct (Nat.eqb lo 0) eqn:E; [|discriminate].
    apply Nat.eqb_eq in E. subst lo.
    exists [], []. repeat split; auto. destruct hi; auto. simpl. lia.
  - assert (Hstop : (if Nat.eqb lo 0 then k (c :: s) else None) = Some a ->
                    exists w rest,
                      c :: s = w ++ rest /\ forallb cls w = true /\
                      lo <= length w /\
                      match hi with Some h => length w <= h | None => True end /\
                      k rest = Some a).
    { destruct (Nat.eqb lo 0) eqn:E; [|discriminate].
      apply Nat.eqb_eq in E. subst lo. intros Hk.
      exists [], (c :: s). repeat split; auto. destruct hi; auto. simpl. lia. }
    destruct (cls c && allows hi) eqn:Ec; auto.
    destruct (rep cls (pred lo) (dec hi) s k) as [a'|] eqn:Er; auto.
    injection H as ->.
    apply IH in Er as (w & rest & -> & Hw & Hlo & Hhi & Hk).
    apply andb_true_iff in Ec as [Hc Hal].
    exists (c :: w), rest. simpl. rewrite Hc, Hw.
    repeat split; auto; [lia|].
    destruct hi as [[|h]|]; simpl in *; auto; [discriminate | lia].
Qed.

Lemma rep_zero {A} (cls : byte -> bool) (hi : option nat) (s : bytes)
      (k : bytes -> option A) :
  k s <> None -> rep cls 0 hi s k <> None.
Proof.
  intros Hk. destruct s as [|c s]; simpl; auto.
  destruct (cls c && allows hi); auto.
  destruct (rep cls 0 (dec hi) s k); auto. discriminate.
Qed.

Lemma rep_complete {A} (cls : byte -> bool) (w rest : bytes) :
  forall lo hi (k : bytes -> option A),
    forallb cls w = true -> lo <= length w ->
    match hi with Some h => length w <= h | None => True end ->
    k rest <> None ->
    rep cls lo hi (w ++ rest) k <> None.
Proof.
  induction w as [|c w IH]; intros lo hi k Hw Hlo Hhi Hk.
  - simpl in Hlo. assert (lo = 0) by lia. subst lo. now apply rep_zero.
  - simpl in Hw. apply andb_true_iff in Hw as [Hc Hw].
    simpl. rewrite Hc.
    assert (Hal : allows hi = true).
    { destruct hi as [[|h]|]; simpl in *; auto. lia. }
    rewrite Hal. simpl.
    assert (Hin : rep cls (pred lo) (dec hi) (w ++ rest) k <> None).
    { apply IH; auto.
      - simpl in Hlo. lia.
      - destruct hi as [h|]; simpl in *; auto. lia. }
    destruct (rep cls (pred lo) (dec hi) (w ++ rest) k); [discriminate|].
    contradiction.
Qed.

Lemma run_sound {A} (r : re) :
  forall s g (k : bytes -> option bytes -> option A) a,
    run r s g k = Some a ->
    exists w rest g',
      s = w ++ rest /\ matches r w rest g g' /\ k rest g' = Some a.
Proof.
  induction r as [c|r1 IH1 r2 IH2|r1 IH1 r2 IH2|cls lo hi| |r1 IH1];
    intros s g k a H; simpl in H.
  - destruct s as [|d s]; [discriminate|].
    destruct (Byte.eqb c d) eqn:E; [|discriminate].
    apply byte_dec_bl in E. subst d.
    exists [c], s, g. simpl. auto.
  - apply IH1 in H as (w1 & rest1 & g1 & -> & Hm1 & H).
    apply IH2 in H as (w2 & rest & g' & -> & Hm2 & H).
    exists (w1 ++ w2), rest, g'. rewrite <- app_assoc.
    repeat split; auto. simpl. exists w1, w2, g1. auto.
  - destruct (run r1 s g k) as [a'|] eqn:E.
    + injection H as ->.
      apply IH1 in E as (w & rest & g' & -> & Hm & Hk).
      exists w, rest, g'. simpl. auto.
    + apply IH2 in H as (w & rest & g' & -> & Hm & Hk).
      exists w, rest, g'. simpl. auto.
  - apply rep_sound in H as (w & rest & -> & Hw & Hlo & Hhi & Hk).
    exists w, rest, g. simpl. repeat split; auto.
  - destruct (at_dollar s) eqn:E; [|discriminate].
    exists [], s, g. simpl. repeat split; auto.
    destruct s as [|c [|d s]]; auto; simpl in E;
      destruct c; try discriminate; auto.
  - apply IH1 in H as (w & rest & g1 & -> & Hm & Hk).
    exists w, rest, (Some w). simpl. repeat split; eauto.
    rewrite length_app, Nat.add_sub in Hk.
    now rewrite firstn_app, firstn_all, Nat.sub_diag, app_nil_r in Hk.
Qed.

Lemma run_complete {A} (r : re) :
  forall w rest g g0 (k : bytes -> option bytes -> option A),
    matches r w rest g g0 ->
    (forall g', k rest g' <> None) ->
    forall h, run r (w ++ rest) h k <> None.
Proof.
  induction r as [c|r1 IH1 r2 IH2|r1 IH1 r2 IH2|cls lo hi| |r1 IH1];
    intros w rest g g0 k Hm Hk h; simpl in Hm; simpl.
  - destruct Hm as [-> _]. simpl. rewrite (byte_dec_lb eq_refl). apply Hk.
  - destruct Hm as (w1 & w2 & g1 & -> & Hm1 & Hm2).
    rewrite <- app_assoc.
    eapply IH1; [exact Hm1 | intros g'; eapply IH2; eauto].
  - destruct (run r1 (w ++ rest) h k) eqn:E; [discriminate|].
    destruct Hm as [Hm|Hm].
    + exfalso. eapply IH1; eauto.
    + eapply IH2; eauto.
  - destruct Hm as (Hw & Hlo & Hhi & _).
    apply rep_complete; auto.
  - destruct Hm as (-> & Hr & _). simpl.
    assert (Hd : at_dollar rest = true) by (destruct Hr; subst; reflexivity).
    rewrite Hd. apply Hk.
  - destruct Hm as [(g1 & Hm) _].
    eapply IH1; eauto.
Qed.

Lemma match_here_sound (r : re) (s : bytes) (i : nat) (m : Match) :
  match_here r s i = Some m ->
  exists w rest g',
    s = w ++ rest /\ matches r w rest None g' /\
    m = {| m_start := i; m_end := i + length w; m_group1 := g' |}.
Proof.
  unfold match_here. intros H.
  apply run_sound in H as (w & rest & g' & -> & Hm & Hk).
  injection Hk as <-. rewrite length_app, Nat.add_sub.
  exists w, rest, g'. auto.
Qed.

(** [search] finds a match exactly where the pattern denotes one. *)
Lemma search_from_sound (r : re) (s : bytes) :
  forall i m,
    search_from r s i = Some m ->
    exists pre w rest g',
      s = pre ++ w ++ rest /\ matches r w rest None g' /\
      m = {| m_start := i + length pre;
             m_end := i + length pre + length w;
             m_group1 := g' |}.
Proof.
  assert (Hhere : forall s i m,
             match_here r s i = Some m ->
             exists pre w rest g',
               s = pre ++ w ++ rest /\ matches r w rest None g' /\
               m = {| m_start := i + length pre;
                      m_end := i + length pre + length w;
                      m_group1 := g' |}).
  { intros s0 i m H.
    apply match_here_sound in H as (w & rest & g' & -> & Hm & ->).
    exists [], w, rest, g'. simpl. rewrite Nat.add_0_r. auto. }
  induction s as [|c s IH]; intros i m H; simpl in H.
  - destruct (match_here r [] i) as [m'|] eqn:E; [|discriminate].
    injection H as ->. now apply Hhere.
  - destruct (match_here r (c :: s) i) as [m'|] eqn:E.
    + injection H as ->. now apply Hhere.
    + apply IH in H as (pre & w & rest & g' & -> & Hm & ->).
      exists (c :: pre), w, rest, g'. simpl.
      rewrite !Nat.add_succ_r. auto.
Qed.

Lemma search_from_complete (r : re) (pre w rest : bytes) (g g' : option bytes) :
  matches r w rest g g' ->
  forall i, search_from r (pre ++ w ++ rest) i <> None.
Proof.
  intros Hm. induction pre as [|c pre IH]; intros i.
  - assert (He : match_here r (w ++ rest) i <> None).
    { unfold match_here. eapply run_complete; eauto. discriminate. }
    simpl app. destruct (w ++ rest); simpl;
      destruct (match_here r _ i); try discriminate; contradiction.
  - simpl. destruct (match_here r (c :: pre ++ w ++ rest) i);
      [discriminate | apply IH].
Qed.

(** ** What [VERSION_MATCHER] finds *)

Lemma is_eq_true (c : byte) : is_eq c = true -> c = x3d.
Proof. unfold is_eq. apply byte_dec_bl. Qed.

Lemma eq_run (lo hi : nat) (w : bytes) :
  forallb is_eq w = true -> lo <= length w -> length w <= hi ->
  exists n, lo <= n /\ n <= hi /\ w = repeat x3d n.
Proof.
  intros Hw Hlo Hhi. exists (length w). repeat split; auto.
  clear Hlo Hhi. induction w as [|c w IH]; simpl in *; auto.
  apply andb_true_iff in Hw as [Hc Hw]. apply is_eq_true in Hc.
  subst c. f_equal. auto.
Qed.

Lemma version_op_matches (w rest : bytes) (g g' : option bytes) :
  matches version_op w rest g g' <-> In w version_operators /\ g' = g.
Proof.
  split.
  - unfold version_op. simpl.
    intros [(Hw & Hlo & Hhi & ->)|[H|[H|[H|[H|[-> ->]]]]]].
    + destruct (eq_run _ Hw Hlo Hhi) as (n & H2 & H3 & ->).
      assert (Hn : n = 2 \/ n = 3) by lia.
      destruct Hn as [-> | ->]; simpl; auto.
    + destruct H as (w1 & w2 & g1 & -> & [-> ->] & [-> ->]). simpl. auto.
    + destruct H as (w1 & w2 & g1 & -> & [-> ->] & [-> ->]). simpl. auto 10.
    + destruct H as (w1 & w2 & g1 & -> & [-> ->] & (Hw & Hlo & Hhi & ->)).
      destruct (eq_run _ Hw Hlo Hhi) as (n & H2 & H3 & ->).
      assert (Hn : n = 0 \/ n = 1) by lia.
      destruct Hn as [-> | ->]; simpl; auto 10.
    + destruct H as (w1 & w2 & g1 & -> & [-> ->] & (Hw & Hlo & Hhi & ->)).
      destruct (eq_run _ Hw Hlo Hhi) as (n & H2 & H3 & ->).
      assert (Hn : n = 0 \/ n = 1) by lia.
      destruct Hn as [-> | ->]; simpl; auto 12.
    + simpl. auto 12.
  - intros [Hin ->]. unfold version_op. simpl in Hin. simpl.
    destruct Hin as [<-|[<-|[<-|[<-|[<-|[<-|[<-|[<-|[<-|[]]]]]]]]]].
    + left. simpl. repeat split; auto.
    + left. simpl. repeat split; auto.
    + right; left. exists [x21], [x3d], g. simpl. auto.
    + right; right; left. exists [x7e], [x3d], g. simpl. auto.
    + right; right; right; left. exists [x3e], [x3d], g. simpl.
      repeat split; auto.
    + right; right; right; left. exists [x3e], [], g. simpl.
      repeat split; auto.
    + right; right; right; right; left. exists [x3c], [x3d], g. simpl.
      repeat split; auto.
    + right; right; right; right; left. exists [x3c], [], g. simpl.
      repeat split; auto.
    + right; right; right; right; right. simpl. auto.
Qed.

Lemma version_matcher_matches (w rest : bytes) (g g' : option bytes) :
  matches VERSION_MATCHER w rest g g' <->
  exists op ws ver,
    w = op ++ ws ++ ver /\ In op version_operators /\
    forallb isspace ws = true /\
    ver <> [] /\ forallb version_char ver = true /\
    (rest = [] \/ rest = [x0a]) /\ g' = Some ver.
Proof.
  unfold VERSION_MATCHER. split.
  - intros (op & w2 & g1 & -> & Hop & ws & w4 & g2 & -> & Hws
            & ver & w6 & g3 & -> & Hver & Hd).
    apply version_op_matches in Hop as [Hop ->].
    simpl in Hws, Hver, Hd.
    destruct Hws as (Hws & _ & _ & ->).
    destruct Hver as [(g4 & Hver & Hlen & _) ->].
    destruct Hd as (-> & Hrest & ->).
    exists op, ws, ver. rewrite app_nil_r. repeat split; auto.
    intros ->. simpl in Hlen. lia.
  - intros (op & ws & ver & -> & Hop & Hws & Hne & Hver & Hrest & ->).
    exists op, (ws ++ ver), g. repeat split.
    + apply version_op_matches. auto.
    + exists ws, ver, g. repeat split; simpl; auto; try lia.
      exists ver, [], (Some ver). rewrite app_nil_r. simpl.
      repeat split; auto.
      exists g. repeat split; auto.
      destruct ver; [contradiction | simpl; lia].
Qed.

Lemma extract_version_sound (r : Requirement) (ver : bytes) :
  extract_version r = Some ver ->
  exists v pre op ws tail,
    value r = Some v /\ v = pre ++ op ++ ws ++ ver ++ tail /\
    In op version_operators /\ forallb isspace ws = true /\
    ver <> [] /\ forallb version_char ver = true /\
    (tail = [] \/ tail = [x0a]).
Proof.
  unfold extract_version.
  destruct (value r) as [v|]; [|discriminate].
  destruct v as [|c v]; [discriminate|].
  destruct (search VERSION_MATCHER (c :: v)) as [m|] eqn:E; [|discriminate].
  intros Hg. unfold search in E.
  apply search_from_sound in E as (pre & w & rest & g' & Hv & Hm & ->).
  simpl in Hg. subst g'.
  apply version_matcher_matches in Hm
    as (op & ws & ver' & -> & Hop & Hws & Hne & Hver & Hrest & Hg).
  injection Hg as <-.
  exists (c :: v), pre, op, ws, rest. rewrite Hv, <- !app_assoc.
  repeat split; auto.
Qed.

(** [has_version] holds exactly for the values with a version at the end. *)
Theorem has_version_iff (r : Requirement) :
  has_version r = true <-> exists v, value r = Some v /\ version_at_end v.
Proof.
  unfold has_version. split.
  - destruct (extract_version r) as [ver|] eqn:E; [|discriminate].
    intros _. apply extract_version_sound in E
      as (v & pre & op & ws & tail & Hv & -> & H).
    exists (pre ++ op ++ ws ++ ver ++ tail). split; auto.
    exists pre, op, ws, ver, tail. tauto.
  - intros (v & Hv & pre & op & ws & ver & tail & -> & Hop & Hws & Hne
            & Hver & Htail).
    unfold extract_version. rewrite Hv.
    assert (Hm : matches VERSION_MATCHER (op ++ ws ++ ver) tail None
                         (Some ver)).
    { apply version_matcher_matches. exists op, ws, ver. auto 10. }
    assert (Hs : search VERSION_MATCHER (pre ++ op ++ ws ++ ver ++ tail)
                 <> None).
    { replace (pre ++ op ++ ws ++ ver ++ tail)
        with (pre ++ (op ++ ws ++ ver) ++ tail)
        by now rewrite <- !app_assoc.
      eapply search_from_complete; eauto. }
    destruct (search VERSION_MATCHER _) as [m|] eqn:E; [|contradiction].
    unfold search in E.
    apply search_from_sound in E as (pre' & w & rest & g' & Hv' & Hm' & ->).
    apply version_matcher_matches in Hm' as (_ & _ & ver' & _ & _ & _ & _ & _ & _ & ->).
    simpl.
    destruct (pre ++ op ++ ws ++ ver ++ tail) eqn:El; auto.
    exfalso. destruct pre, op, ws, ver; simpl in El; try discriminate.
    contradiction.
Qed.

(** ** The report of missing versions *)

Lemma decode_ok (v : bytes) (s : str) : decode v = Ok s <-> decode_opt v = Some s.
Proof.
  unfold decode. destruct (decode_opt v); split; congruence.
Qed.

Lemma emit_one_report (r : Requirement)
      (after after' : list bytes) (m m' : list str) :
  emit_one true r (after, m) = Ok (after', m') ->
  m' = m ++ (if flagged r then [report r] else []) /\
  exists v s, value r = Some v /\ decode v = Ok s /\
              is_include r = Ok (str_startswith (u "-r") s).
Proof.
  unfold emit_one.
  destruct (value r) as [[|c v]|] eqn:Ev; try discriminate.
  intros H. bind_inv H.
  assert (Hinc : exists s, decode (c :: v) = Ok s /\
                           a = str_startswith (u "-r") s).
  { unfold is_include in E. rewrite Ev in E. bind_inv E.
    injection E as <-. eauto. }
  destruct Hinc as (s & Hd & Ha).
  assert (Hrep : report r = str_strip s).
  { unfold report. rewrite Ev. apply decode_ok in Hd. now rewrite Hd. }
  unfold flagged. rewrite E, Hrep.
  split; [|exists (c :: v), s; rewrite <- Ha; auto].
  destruct a, (has_version r); cbn [negb andb] in *.
  - injection H as _ <-. now rewrite app_nil_r.
  - injection H as _ <-. now rewrite app_nil_r.
  - injection H as _ <-. now rewrite app_nil_r.
  - rewrite Hd in H. cbn [bind] in H. now injection H as _ <-.
Qed.

Lemma emit_report (l : list Requirement)
      (after after' : list bytes) (m m' : list str) :
  emit true l (after, m) = Ok (after', m') ->
  m' = m ++ map report (filter flagged l) /\
  Forall (fun r => exists v s, value r = Some v /\ decode v = Ok s /\
                               is_include r = Ok (str_startswith (u "-r") s)) l.
Proof.
  revert after m; induction l as [|r l IH]; simpl; intros after m H.
  - injection H as _ <-. rewrite app_nil_r. auto.
  - bind_inv H. destruct a as [a1 m1].
    apply emit_one_report in E as [-> Hr].
    apply IH in H as [-> Hl]. split; [|constructor; auto].
    destruct (flagged r); simpl; now rewrite <- app_assoc.
Qed.




(** ** When the run returns

    [sorted] is modelled by one stable sort among many.  Which comparisons a
    sort makes decides which names are computed, hence whether the assertion
    of [name] can fail; the lemmas below show that for the lists the scan
    produces this does not depend on the sort: the sort returns exactly when
    there is at most one ordinary entry (nothing with a name is compared) or
    every ordinary entry has a name. *)

Lemma lt_defined (x y : Requirement) :
  value x <> None ->
  is_marker x = true \/ is_marker y = true \/ (named x /\ named y) ->
  exists c, lt x y = Ok c.
Proof.
  unfold lt, is_marker, value_is.
  destruct (value x) as [v|]; [|contradiction]. intros _ H.
  destruct (bytes_eqb v marker); eauto.
  destruct H as [H|[H|[[n1 H1] [n2 H2]]]]; try discriminate.
  - destruct (value y) as [w|]; [|discriminate]. rewrite H. eauto.
  - rewrite H1, H2. simpl.
    destruct (match value y with Some w => bytes_eqb w marker | None => false end);
      eauto.
Qed.

Lemma insert_returns (x : Requirement) (l : list Requirement) :
  (forall y, In y l -> exists c, lt y x = Ok c) ->
  exists l', insert x l = Ok l'.
Proof.
  induction l as [|y l IH]; intros H; simpl; eauto.
  destruct (H y (or_introl eq_refl)) as [c ->]. simpl.
  destruct c; eauto.
  assert (Hl : exists l', insert x l = Ok l').
  { apply IH. intros z Hz. apply H. now right. }
  destruct Hl as [l' ->]. simpl. eauto.
Qed.

Lemma sorted_returns (l : list Requirement) :
  (forall x y, In x l -> In y l -> exists c, lt x y = Ok c) ->
  exists l', sorted l = Ok l'.
Proof.
  induction l as [|x l IH]; intros H; simpl; eauto.
  destruct IH as [s Hs].
  { intros y z Hy Hz. apply H; now right. }
  rewrite Hs. simpl. apply insert_returns.
  intros y Hy. apply H; [right | now left].
  eapply Permutation_in; [apply Permutation_sym, sorted_perm|]; eauto.
Qed.

Lemma StronglySorted_middle {A} (R : A -> A -> Prop) (l1 l2 : list A) (r : A) :
  StronglySorted R (l1 ++ r :: l2) ->
  (forall a, In a l1 -> R a r) /\ (forall c, In c l2 -> R r c).
Proof.
  induction l1 as [|x l1 IH]; simpl; intros H.
  - apply StronglySorted_inv in H as [_ H]. rewrite Forall_forall in H.
    split; [intros a []|auto].
  - apply StronglySorted_inv in H as [Hs H]. rewrite Forall_forall in H.
    destruct (IH Hs) as [H1 H2]. split; auto.
    intros a [<-|Ha]; auto.
    apply H. apply in_or_app. right. now left.
Qed.

Lemma filter_length_perm {A} (p : A -> bool) (l l' : list A) :
  Permutation l l' -> length (filter p l) = length (filter p l').
Proof.
  induction 1 as [|x l l' _ IH|x y l|l l' l'' _ IH1 _ IH2]; simpl; auto.
  - destruct (p x); simpl; auto.
  - destruct (p x), (p y); simpl; auto.
  - congruence.
Qed.

Lemma ordinary_in (l : list Requirement) (r : Requirement) :
  In r (ordinary l) <-> In r l /\ is_marker r = false.
Proof.
  unfold ordinary. rewrite filter_In, negb_true_iff. tauto.
Qed.

Lemma sorted_names (l out : list Requirement) :
  sorted l = Ok out -> 2 <= length (ordinary l) ->
  Forall named (ordinary l).
Proof.
  intros Hs Hlen. apply Forall_forall. intros r Hr.
  apply ordinary_in in Hr as [Hr Hm].
  pose proof (sorted_perm _ Hs) as Hp.
  pose proof (sorted_sorted _ Hs) as Hss.
  unfold ordinary in Hlen. rewrite (filter_length_perm _ Hp) in Hlen.
  apply (Permutation_in _ Hp) in Hr. apply in_split in Hr as (l1 & l2 & ->).
  destruct (StronglySorted_middle _ _ _ Hss) as [H1 H2].
  rewrite filter_app in Hlen. simpl in Hlen. rewrite Hm in Hlen.
  simpl in Hlen. rewrite length_app in Hlen. simpl in Hlen.
  destruct (filter (fun r0 => negb (is_marker r0)) l1) as [|a l1'] eqn:E1.
  - destruct (filter (fun r0 => negb (is_marker r0)) l2) as [|c l2'] eqn:E2;
      [simpl in Hlen; lia|].
    assert (Hc : In c (filter (fun r0 => negb (is_marker r0)) l2))
      by (rewrite E2; now left).
    apply filter_In in Hc as [Hc _].
    destruct (H2 _ Hc) as [Hk|(_ & n1 & n2 & Hn1 & _)]; [congruence|].
    now exists n1.
  - assert (Ha : In a (filter (fun r0 => negb (is_marker r0)) l1))
      by (rewrite E1; now left).
    apply filter_In in Ha as [Ha Hna]. apply negb_true_iff in Hna.
    destruct (H1 _ Ha) as [Hk|(_ & n1 & n2 & _ & Hn2 & _)]; [congruence|].
    now exists n2.
Qed.

Theorem sorted_returns_iff (l : list Requirement) :
  marker_only_first l -> Forall (fun r => value r <> None) l ->
  ((exists out, sorted l = Ok out) <->
   length (ordinary l) <= 1 \/ Forall named (ordinary l)).
Proof.
  intros Hm Hv. rewrite Forall_forall in Hv. split.
  - intros [out Hs].
    destruct (Nat.le_gt_cases (length (ordinary l)) 1) as [Hl|Hl]; auto.
    right. eapply sorted_names; eauto.
  - intros [H|H].
    + (* at most one ordinary entry: no two names are compared *)
      unfold marker_only_first in Hm.
      destruct l as [|a [|c l]]; [simpl; eauto | simpl; eauto |].
      simpl in Hm. apply Forall_inv in Hm as Hc. red in Hc.
      assert (Hv1 : value c <> None) by (apply Hv; right; now left).
      destruct l as [|d l].
      * destruct (is_marker a) eqn:Ea.
        -- assert (Hlt : lt c a = Ok false).
           { unfold lt. unfold is_marker, value_is in Hc, Ea.
             destruct (value c) as [w|]; [|contradiction].
             rewrite Hc. destruct (value a) as [v|]; [|discriminate].
             now rewrite Ea. }
           cbn [sorted bind insert]. rewrite Hlt. cbn [bind]. eauto.
        -- exfalso. unfold ordinary in H. simpl in H. rewrite Ea, Hc in H.
           simpl in H. lia.
      * exfalso. apply Forall_inv_tail, Forall_inv in Hm. red in Hm.
        unfold ordinary in H. simpl in H. rewrite Hc, Hm in H.
        destruct (is_marker a); simpl in H; lia.
    + apply sorted_returns. intros x y Hx Hy.
      apply lt_defined; auto.
      destruct (is_marker x) eqn:Ex; auto.
      destruct (is_marker y) eqn:Ey; auto.
      right; right. rewrite Forall_forall in H.
      split; apply H; now apply ordinary_in.
Qed.

Lemma is_complete_value (r : Requirement) :
  is_complete r = true -> value r <> None.
Proof. unfold is_complete. destruct (value r); [discriminate|]. discriminate. Qed.

Lemma scan_complete (L : list bytes) :
  Forall (fun r => is_complete r = true) (removelast (scan L)).
Proof.
  apply scan_ind with (L := L); [constructor|].
  intros reqs line _ Hinv.
  destruct (scan_line_spec reqs line)
    as (pre & cur & cur' & Hshape & -> & _).
  rewrite removelast_last.
  destruct Hshape as [[-> _]|(-> & _ & Hpre)].
  - now rewrite removelast_last in Hinv.
  - destruct Hpre as [->|Hlast]; [constructor|].
    destruct pre as [|p pre]; [constructor|].
    assert (Hne : p :: pre <> []) by discriminate.
    rewrite (app_removelast_last new_requirement Hne).
    apply Forall_app. split; auto.
Qed.

Lemma scan_values_nonempty (L : list bytes) :
  Forall (fun r => value r <> Some []) (scan L).
Proof.
  apply scan_ind with (L := L); [constructor|].
  intros reqs line _ Hinv.
  destruct (scan_line_spec reqs line)
    as (pre & cur & cur' & Hshape & -> & Hcur').
  assert (Hpc : Forall (fun r => value r <> Some []) pre /\
                value cur <> Some []).
  { destruct Hshape as [[-> _]|(-> & -> & _)].
    - apply Forall_app in Hinv as [H1 H2]. split; auto.
      now apply Forall_inv in H2.
    - split; auto. discriminate. }
  destruct Hpc as [Hpre Hcur].
  apply Forall_app. split; auto. constructor; [|constructor].
  destruct Hcur' as [(_ & _ & -> & _)|[(-> & _)|(-> & Hb & _)]].
  - discriminate.
  - exact Hcur.
  - assert (Hl : line <> []) by (intros ->; discriminate).
    unfold append_value. destruct (value cur) as [w|]; simpl.
    + intros [= H]. apply app_eq_nil in H as [_ H]. contradiction.
    + congruence.
Qed.

(** Every entry that reaches the sort has a value, and it is not empty: the
    assertion of the serialising loop cannot fail. *)
Lemma parsed_values (L : list bytes) :
  Forall (fun r => exists v, value r = Some v /\ v <> []) (parsed L).
Proof.
  apply Forall_forall. intros r Hr.
  assert (Hs : In r (scan L)) by now apply parsed_incl.
  pose proof (scan_values_nonempty L) as Hne. rewrite Forall_forall in Hne.
  specialize (Hne _ Hs).
  assert (Hv : value r <> None).
  { unfold parsed, drop_blacklisted in Hr. apply filter_In in Hr as [Hr _].
    pose proof (scan_complete L) as Hc. rewrite Forall_forall in Hc.
    unfold split_rest in Hr.
    destruct (value (last (scan L) new_requirement)) eqn:E; simpl in Hr.
    - destruct (scan L) as [|x l] eqn:Es; [destruct Hr|].
      assert (Hnil : x :: l <> []) by discriminate.
      rewrite (app_removelast_last new_requirement Hnil) in Hr.
      apply in_app_or in Hr as [Hr|[<-|[]]].
      + apply is_complete_value. auto.
      + congruence.
    - apply is_complete_value. auto. }
  destruct (value r) as [v|]; [|contradiction].
  exists v. split; auto. intros ->. now apply Hne.
Qed.

Lemma parsed_marker_only_first (L : list bytes) :
  marker_only_first (parsed L).
Proof.
  apply filter_marker_only_first, split_rest_marker_only_first,
    scan_marker_only_first.
Qed.

Lemma emit_returns (rv : bool) (l : list Requirement) :
  Forall (fun r => exists v, value r = Some v /\ v <> []) l ->
  (rv = true -> Forall decodes l) ->
  forall acc, exists acc', emit rv l acc = Ok acc'.
Proof.
  induction l as [|r l IH]; intros Hv Hd acc; simpl; eauto.
  apply Forall_cons_iff in Hv as [(v & Hr & Hne) Hv].
  assert (Hone : exists acc1, emit_one rv r acc = Ok acc1).
  { unfold emit_one. destruct acc as [after m]. rewrite Hr.
    destruct v as [|c v]; [contradiction|].
    destruct rv; eauto.
    specialize (Hd eq_refl). apply Forall_inv in Hd.
    destruct Hd as (v' & s & Hr' & Hs).
    assert (v' = c :: v) by congruence. subst v'.
    unfold is_include. rewrite Hr, Hs. cbn [bind].
    destruct (negb (str_startswith (u "-r") s) && negb (has_version r));
      cbn [bind]; eauto. }
  destruct Hone as [acc1 ->]. cbn [bind].
  apply IH; auto.
  intros Hrv. specialize (Hd Hrv). now apply Forall_inv_tail in Hd.
Qed.

Lemma emit_decodes (l : list Requirement) (acc acc' : list bytes * list str) :
  emit true l acc = Ok acc' -> Forall decodes l.
Proof.
  destruct acc as [a m], acc' as [a' m']. intros H.
  apply emit_report in H as [_ H].
  eapply Forall_impl; [|exact H].
  intros r (v & s & Hv & Hs & _). now exists v, s.
Qed.

(** The run returns exactly when the file is blank, or the sort compares no
    entry without a name and, with [require_version], every entry is UTF-8. *)
Theorem fix_requirements_returns_iff (f : bytes) (rv : bool) :
  (exists ret evs, fix_requirements f rv = Ok (ret, evs)) <->
  is_blank f = true \/
  ((length (ordinary (parsed (lines_of f))) <= 1 \/
    Forall named (ordinary (parsed (lines_of f)))) /\
   (rv = true -> Forall decodes (parsed (lines_of f)))).
Proof.
  pose proof (parsed_marker_only_first (lines_of f)) as Hm.
  pose proof (parsed_values (lines_of f)) as Hv.
  assert (Hv' : Forall (fun r => value r <> None) (parsed (lines_of f))).
  { eapply Forall_impl; [|exact Hv]. intros r (v & -> & _). discriminate. }
  split.
  - intros (ret & evs & H).
    apply fix_requirements_inv in H
      as [(Hb & _)|(_ & after & missing & Hc & _)]; auto.
    right. apply corrected_inv in Hc as (out & He & Hemit & _).
    split.
    + apply (sorted_returns_iff Hm Hv'). eauto.
    + intros ->. apply emit_decodes in Hemit.
      eapply Permutation_Forall; [|exact Hemit].
      apply Permutation_sym. now apply sorted_perm.
  - intros [Hb|[Hs Hd]].
    + rewrite (fix_requirements_blank _ _ Hb). eauto.
    + destruct (is_blank f) eqn:Hb.
      { rewrite (fix_requirements_blank _ _ Hb). eauto. }
      apply (sorted_returns_iff Hm Hv') in Hs as [out Hout].
      pose proof (sorted_perm _ Hout) as Hp.
      destruct (@emit_returns rv out) with (acc := (@nil bytes, @nil str))
        as [[after missing] Hemit].
      { eapply Permutation_Forall; eauto. }
      { intros Hrv. eapply Permutation_Forall; eauto. }
      apply (@fix_requirements_returns f rv
               (join (after ++ rest_of (lines_of f))) missing Hb).
      unfold corrected. unfold parsed, rest_of in *.
      destruct (split_rest (scan (lines_of f))) as [reqs rest].
      simpl in *. rewrite Hout. cbn [bind]. rewrite Hemit. reflexivity.
Qed.

(** [name] is defined for a value with an egg marker and for a value whose
    first byte, lowered, is neither blank nor [;]. *)
Theorem named_iff (r : Requirement) :
  named r <->
  exists v, value r = Some v /\
            (contains egg1 v = true \/ contains egg2 v = true \/
             exists c t, lower v = c :: t /\ not_sep c = true).
Proof.
  unfold named, name. destruct (value r) as [v|]; split.
  - intros [n Hn]. exists v. split; auto. unfold name_of in Hn.
    destruct (contains egg1 v); auto. destruct (contains egg2 v); auto.
    right; right.
    destruct (lower v) as [|c t]; [discriminate|].
    exists c, t. split; auto.
    destruct (not_sep c) eqn:E; auto.
    unfold rmatch, match_here, UNTIL_SEP in Hn. simpl in Hn.
    rewrite E in Hn. discriminate.
  - intros (v' & [= <-] & H). unfold name_of.
    destruct (contains egg1 v); eauto. destruct (contains egg2 v); eauto.
    destruct H as [H|[H|(c & t & Hl & Hc)]]; try discriminate.
    rewrite Hl.
    destruct (rmatch UNTIL_SEP (c :: t)) as [m|] eqn:E.
    + destruct (search UNTIL_COMPARISON (group0 (c :: t) m)); eauto.
    + exfalso. unfold rmatch, match_here, UNTIL_SEP in E.
      cbn [run rep] in E. rewrite Hc in E. cbn [allows andb pred dec option_map] in E.
      match type of E with
      | match ?X with _ => _ end = None => destruct X eqn:E'
      end; [discriminate|].
      revert E'. apply rep_zero. discriminate.
  - intros [n Hn]. discriminate.
  - intros (v & Hv & _). discriminate.
Qed.

(** ** The name of an entry *)

Lemma take_drop_while (cls : byte -> bool) (s : bytes) :
  s = take_while cls s ++ drop_while cls s.
Proof.
  induction s as [|c s IH]; simpl; auto.
  destruct (cls c); simpl; congruence.
Qed.

(** A greedy repetition without upper bound takes the longest prefix. *)
Lemma rep_greedy {A} (cls : byte -> bool) (s : bytes) :
  forall lo (k : bytes -> option A),
    lo <= length (take_while cls s) ->
    k (drop_while cls s) <> None ->
    rep cls lo None s k = k (drop_while cls s).
Proof.
  induction s as [|c s IH]; intros lo k Hlo Hk; simpl in *.
  - assert (lo = 0) by lia. now subst lo.
  - destruct (cls c) eqn:Ec; simpl in *.
    + rewrite IH; auto; [|lia].
      destruct (k (drop_while cls s)); [reflexivity | contradiction].
    + assert (lo = 0) by lia. now subst lo.
Qed.

Lemma until_sep_token (s : bytes) :
  take_while not_sep s <> [] ->
  exists m, rmatch UNTIL_SEP s = Some m /\
            group0 s m = take_while not_sep s.
Proof.
  intros Hne. unfold rmatch, match_here, UNTIL_SEP. cbn [run].
  rewrite rep_greedy; [|destruct (take_while not_sep s); simpl;
                         [contradiction | lia] | discriminate].
  eexists. split; [reflexivity|].
  unfold group0. cbn [m_start m_end]. simpl skipn.
  rewrite Nat.add_0_l, Nat.sub_0_r.
  rewrite (take_drop_while not_sep s) at 1 3.
  rewrite length_app, Nat.add_sub.
  now rewrite firstn_app, firstn_all, Nat.sub_diag, app_nil_r.
Qed.

Lemma comparison_matches (w rest : bytes) (g g' : option bytes) :
  matches UNTIL_COMPARISON w rest g g' ->
  In w comparison_operators.
Proof.
  unfold UNTIL_COMPARISON, comparison. simpl.
  intros [(Hw & Hlo & Hhi & _)|[H|[H|[H|H]]]].
  - destruct (eq_run _ Hw Hlo Hhi) as (n & H2 & H3 & ->).
    assert (Hn : n = 2 \/ n = 3) by lia.
    destruct Hn as [-> | ->]; simpl; auto.
  - destruct H as (w1 & w2 & g1 & -> & [-> _] & [-> _]). simpl. auto.
  - destruct H as (w1 & w2 & g1 & -> & [-> _] & [-> _]). simpl. auto 10.
  - destruct H as (w1 & w2 & g1 & -> & [-> _] & (Hw & Hlo & Hhi & _)).
    destruct (eq_run _ Hw Hlo Hhi) as (n & H2 & H3 & ->).
    assert (Hn : n = 0 \/ n = 1) by lia.
    destruct Hn as [-> | ->]; simpl; auto 10.
  - destruct H as (w1 & w2 & g1 & -> & [-> _] & (Hw & Hlo & Hhi & _)).
    destruct (eq_run _ Hw Hlo Hhi) as (n & H2 & H3 & ->).
    assert (Hn : n = 0 \/ n = 1) by lia.
    destruct Hn as [-> | ->]; simpl; auto 12.
Qed.

Lemma search_operator_free (t : bytes) :
  operator_free t -> search UNTIL_COMPARISON t = None.
Proof.
  intros Hfree. destruct (search UNTIL_COMPARISON t) as [m|] eqn:E; auto.
  exfalso. unfold search in E.
  apply search_from_sound in E as (pre & w & rest & g' & Ht & Hm & _).
  apply comparison_matches in Hm. exact (Hfree pre w rest Hm Ht).
Qed.

(** The fall-back of [name]: without an egg marker and without an operator
    in the first token, the name is the whole token, lowered: what stands in
    front of the first blank or [;]. *)
Theorem name_falls_back_to_token (v : bytes) :
  contains egg1 v = false -> contains egg2 v = false ->
  take_while not_sep (lower v) <> [] ->
  operator_free (take_while not_sep (lower v)) ->
  name_of v = Ok (take_while not_sep (lower v)).
Proof.
  intros H1 H2 Hne Hfree. unfold name_of. rewrite H1, H2.
  destruct (until_sep_token _ Hne) as (m & -> & ->).
  now rewrite (search_operator_free Hfree).
Qed.

Example name_falls_back_example :
  name_of (b "Django extra\n") = Ok (b "django").
Proof.
  apply (@name_falls_back_to_token (b "Django extra\n")); try by_run.
  - vm_compute. discriminate.
  - intros pre op rest Hop Heq.
    assert (Hin : forall c, In c op -> In c (b "django")).
    { intros c Hc. change (take_while not_sep (lower (b "Django extra\n")))
        with (b "django") in Heq. rewrite Heq.
      apply in_or_app. right. apply in_or_app. now left. }
    simpl in Hop.
    destruct Hop as [<-|[<-|[<-|[<-|[<-|[<-|[<-|[<-|[]]]]]]]]];
      specialize (Hin _ (or_introl eq_refl)); vm_compute in Hin;
      repeat (destruct Hin as [Hin|Hin]; [discriminate|]); destruct Hin.
Qed.

(** ** The sort is determined

    A list that is a permutation of the entries, sorted by [le_key] and
    stable, is unique: whatever stable sort [sorted] runs, its result on the
    entries of a file is the list of the model. *)

Lemma has_name_true (n : bytes) (r : Requirement) :
  has_name n r = true <-> is_marker r = false /\ name r = Ok n.
Proof.
  unfold has_name. split.
  - intros H. apply andb_true_iff in H as [H1 H2].
    apply negb_true_iff in H1. split; auto.
    destruct (name r) as [m|]; [|discriminate].
    apply bytes_eqb_eq in H2. now subst.
  - intros [H1 H2]. rewrite H1, H2. simpl. apply bytes_eqb_refl.
Qed.

Lemma le_key_same_name (x y : Requirement) (n : bytes) :
  le_key x y -> le_key y x -> is_marker x = false -> name x = Ok n ->
  has_name n y = true.
Proof.
  intros [Hx|(Hy & n1 & n2 & H1 & H2 & H12)] Hyx Hm Hn; [congruence|].
  destruct Hyx as [Hy'|(_ & m2 & m1 & H2' & H1' & H21)]; [congruence|].
  apply has_name_true. split; auto.
  assert (n1 = n) by congruence. assert (m1 = n) by congruence.
  assert (m2 = n2) by congruence. subst.
  rewrite H2. f_equal. now apply bytes_leb_antisym.
Qed.

Lemma stable_sort_unique_aux (out : list Requirement) :
  forall out',
    Permutation out out' ->
    StronglySorted le_key out -> StronglySorted le_key out' ->
    (forall n, filter (has_name n) out = filter (has_name n) out') ->
    length (filter is_marker out) <= 1 ->
    out = out'.
Proof.
  induction out as [|x t IH]; intros out' Hp Hs Hs' Hf Hm.
  - apply Permutation_nil in Hp. now subst.
  - destruct out' as [|a t'].
    { apply Permutation_sym, Permutation_nil in Hp. discriminate. }
    apply StronglySorted_inv in Hs as [Hst Hx].
    apply StronglySorted_inv in Hs' as [Hst' Ha].
    rewrite Forall_forall in Hx, Ha.
    assert (Hax : In a (x :: t))
      by (eapply Permutation_in; [apply Permutation_sym|]; eauto; now left).
    assert (Hxa : In x (a :: t'))
      by (eapply Permutation_in; eauto; now left).
    assert (Heq : a = x).
    { destruct Hax as [->|Hat]; auto.
      destruct Hxa as [->|Hxt]; auto.
      pose proof (Hx _ Hat) as Hxa. pose proof (Ha _ Hxt) as Hax.
      destruct (is_marker x) eqn:Ex.
      - (* two markers *)
        exfalso. destruct Hax as [Ham|(Hnx & _)]; [|congruence].
        simpl in Hm. rewrite Ex in Hm. simpl in Hm.
        assert (Hin : In a (filter is_marker t)) by (apply filter_In; auto).
        destruct (filter is_marker t); [destruct Hin | simpl in Hm; lia].
      - destruct Hxa as [Hk|(Hna & n & n2 & Hn & _)]; [congruence|].
        assert (Hha : has_name n a = true)
          by (eapply le_key_same_name; eauto; right; eauto).
        assert (Hhx : has_name n x = true) by (apply has_name_true; auto).
        specialize (Hf n). simpl in Hf. rewrite Hha, Hhx in Hf.
        now injection Hf. }
    subst a. f_equal. apply IH; auto.
    + eapply Permutation_cons_inv; eauto.
    + intros n. specialize (Hf n). simpl in Hf.
      destruct (has_name n x); [now injection Hf | auto].
    + simpl in Hm. destruct (is_marker x); simpl in Hm; lia.
Qed.

(** [sorted] is determined by the list: its result is the only permutation
    in the order of the names that keeps the entries of one name in the
    order they had, so any stable sort gives the same output. *)
Theorem stable_sort_unique (l out out' : list Requirement) :
  marker_only_first l ->
  sorted l = Ok out ->
  Permutation l out' ->
  StronglySorted le_key out' ->
  (forall n, filter (has_name n) out' = filter (has_name n) l) ->
  out' = out.
Proof.
  intros Hm Hout Hp' Hs' Hf'. symmetry.
  apply stable_sort_unique_aux.
  - eapply perm_trans; [apply Permutation_sym, sorted_perm|]; eauto.
  - eapply sorted_sorted; eauto.
  - exact Hs'.
  - intros n. now rewrite (sorted_stable n _ Hout), Hf'.
  - rewrite <- (filter_length_perm is_marker (sorted_perm _ Hout)).
    unfold marker_only_first in Hm. destruct l as [|x l]; simpl; auto.
    simpl in Hm.
    assert (Hnil : filter is_marker l = []).
    { clear - Hm. induction l as [|y l IH]; simpl; auto.
      apply Forall_cons_iff in Hm as [Hy Hm]. red in Hy. rewrite Hy. auto. }
    destruct (is_marker x); simpl; rewrite Hnil; simpl; lia.
Qed.

(** * Further properties of the code *)

(** ** The scan *)

(** What the loop over the lines keeps true of [requirements]: only the
    first entry can be the top-of-file marker, every entry but the last one
    is complete, and no entry has an empty value. *)
Theorem scan_invariants (L : list bytes) :
  (forall i r, nth_error (scan L) (S i) = Some r -> value r <> Some marker) /\
  (forall r, In r (removelast (scan L)) -> is_complete r = true) /\
  (forall r, In r (scan L) -> value r <> Some []).
Proof.
  repeat split.
  - intros i r Hi Hv.
    pose proof (scan_marker_only_first L) as Hm.
    unfold marker_only_first in Hm. rewrite Forall_forall in Hm.
    assert (Hin : In r (tl (scan L))).
    { destruct (scan L) as [|x l]; [discriminate|]. simpl in *.
      eapply nth_error_In; eauto. }
    apply Hm in Hin. apply is_marker_iff in Hv. congruence.
  - pose proof (scan_complete L) as Hc. now rewrite Forall_forall in Hc.
  - pose proof (scan_values_nonempty L) as Hc. now rewrite Forall_forall in Hc.
Qed.

(** The assertion of the serialising loop, [assert requirement.value], holds
    for every entry the loop visits: each one has a value that is not empty,
    and without [require_version] a turn of the loop only appends the
    comments and the value. *)
Theorem loop_assertion_holds (L : list bytes) :
  Forall (fun r =>
            exists v,
              value r = Some v /\ v <> [] /\
              forall after missing,
                emit_one false r (after, missing)
                = Ok ((after ++ comments r) ++ [v], missing))
         (parsed L).
Proof.
  eapply Forall_impl; [|apply parsed_values].
  intros r (v & Hv & Hne). exists v. repeat split; auto.
  intros after missing. unfold emit_one. rewrite Hv.
  destruct v; [contradiction | reflexivity].
Qed.

(** ** The version of an entry *)

Lemma take_while_app_stop (cls : byte -> bool) (x y : bytes) :
  forallb cls x = true ->
  match y with [] => True | c :: _ => cls c = false end ->
  take_while cls (x ++ y) = x.
Proof.
  intros Hx Hy. induction x as [|c x IH]; simpl in *.
  - destruct y as [|d y]; simpl; auto. now rewrite Hy.
  - apply andb_true_iff in Hx as [Hc Hx]. rewrite Hc. f_equal. auto.
Qed.

Lemma forallb_rev_true (cls : byte -> bool) (x : bytes) :
  forallb cls x = true -> forallb cls (rev x) = true.
Proof.
  rewrite !forallb_forall. intros H c Hc. apply H. now apply in_rev.
Qed.

Lemma isspace_not_version (c : byte) :
  isspace c = true -> version_char c = false.
Proof. destruct c; simpl; intros H; try discriminate H; reflexivity. Qed.

(** What stands in front of the version ends with a byte no version holds. *)
Lemma before_version (pre op ws : bytes) :
  In op version_operators -> forallb isspace ws = true ->
  exists c A, rev (pre ++ op ++ ws) = c :: A /\ version_char c = false.
Proof.
  intros Hop Hws. rewrite !rev_app_distr.
  destruct (rev ws) as [|c r] eqn:E.
  - simpl in Hop. simpl app.
    destruct Hop as [<-|[<-|[<-|[<-|[<-|[<-|[<-|[<-|[<-|[]]]]]]]]]];
      simpl; eexists; eexists; split; reflexivity.
  - exists c, ((r ++ rev op) ++ rev pre). split; [reflexivity|].
    apply isspace_not_version.
    rewrite forallb_forall in Hws. apply Hws, in_rev.
    rewrite E. now left.
Qed.

Lemma version_unique (pre op ws ver tail pre' op' ws' ver' tail' : bytes) :
  pre ++ op ++ ws ++ ver ++ tail = pre' ++ op' ++ ws' ++ ver' ++ tail' ->
  In op version_operators -> In op' version_operators ->
  forallb isspace ws = true -> forallb isspace ws' = true ->
  ver <> [] -> ver' <> [] ->
  forallb version_char ver = true -> forallb version_char ver' = true ->
  (tail = [] \/ tail = [x0a]) -> (tail' = [] \/ tail' = [x0a]) ->
  ver = ver'.
Proof.
  intros Heq Hop Hop' Hws Hws' Hne Hne' Hv Hv' Ht Ht'.
  destruct (@before_version pre op ws Hop Hws) as (c & A & HA & Hc).
  destruct (@before_version pre' op' ws' Hop' Hws') as (c' & A' & HA' & Hc').
  assert (Hrev : rev tail ++ rev ver ++ c :: A
                 = rev tail' ++ rev ver' ++ c' :: A').
  { rewrite <- HA, <- HA', <- !rev_app_distr. f_equal.
    now rewrite <- !app_assoc. }
  assert (Hhead : forall x, x <> [] -> forallb version_char x = true ->
                  exists d r, rev x = d :: r /\ version_char d = true).
  { intros x Hx Hvx. apply forallb_rev_true in Hvx.
    destruct (rev x) as [|d r] eqn:E.
    - exfalso. apply Hx. rewrite <- (rev_involutive x), E. reflexivity.
    - simpl in Hvx. apply andb_true_iff in Hvx as [Hd _]. eauto. }
  assert (Htail : rev ver ++ c :: A = rev ver' ++ c' :: A').
  { destruct (Hhead _ Hne Hv) as (d & r & Hd & Hvd).
    destruct (Hhead _ Hne' Hv') as (d' & r' & Hd' & Hvd').
    destruct Ht as [-> | ->], Ht' as [-> | ->]; simpl in Hrev; auto.
    - rewrite Hd in Hrev. simpl in Hrev. injection Hrev as -> _.
      discriminate Hvd.
    - rewrite Hd' in Hrev. simpl in Hrev. injection Hrev as <- _.
      discriminate Hvd'.
    - now injection Hrev. }
  assert (Htw : take_while version_char (rev ver ++ c :: A) = rev ver).
  { apply take_while_app_stop; auto. now apply forallb_rev_true. }
  assert (Htw' : take_while version_char (rev ver' ++ c' :: A') = rev ver').
  { apply take_while_app_stop; auto. now apply forallb_rev_true. }
  rewrite Htail, Htw' in Htw.
  rewrite <- (rev_involutive ver), <- (rev_involutive ver'). now f_equal.
Qed.

(** [extract_version] returns [ver] exactly when the value ends, a final
    newline aside, with one of the operators, optional blanks and [ver], a
    non-empty run of [A-Za-z0-9./:]: an operator further to the left, or a
    version followed by anything else ([\r], a comment, an environment
    marker), gives no version. *)
Theorem extract_version_spec (r : Requirement) (ver : bytes) :
  extract_version r = Some ver <->
  exists v pre op ws tail,
    value r = Some v /\ v = pre ++ op ++ ws ++ ver ++ tail /\
    In op version_operators /\ forallb isspace ws = true /\
    ver <> [] /\ forallb version_char ver = true /\
    (tail = [] \/ tail = [x0a]).
Proof.
  split; [apply extract_version_sound|].
  intros (v & pre & op & ws & tail & Hv & Heq & Hop & Hws & Hne & Hver & Ht).
  assert (Hh : has_version r = true).
  { apply has_version_iff. exists v. split; auto.
    exists pre, op, ws, ver, tail. auto 10. }
  unfold has_version in Hh.
  destruct (extract_version r) as [ver'|] eqn:E; [|discriminate].
  f_equal. apply extract_version_sound in E
    as (v' & pre' & op' & ws' & tail' & Hv' & Heq' & Hop' & Hws' & Hne'
        & Hver' & Ht').
  assert (Hsame : pre' ++ op' ++ ws' ++ ver' ++ tail'
                  = pre ++ op ++ ws ++ ver ++ tail) by congruence.
  eapply (@version_unique pre' op' ws' ver' tail' pre op ws ver tail); eauto.
Qed.

(** ** The name of an entry, continued *)

Lemma comparison_matches_conv (w rest : bytes) (g : option bytes) :
  In w comparison_operators -> matches UNTIL_COMPARISON w rest g g.
Proof.
  unfold UNTIL_COMPARISON, comparison. intros Hin. simpl in Hin. simpl.
  destruct Hin as [<-|[<-|[<-|[<-|[<-|[<-|[<-|[<-|[]]]]]]]]].
  - left. simpl. repeat split; auto.
  - left. simpl. repeat split; auto.
  - right; left. exists [x21], [x3d], g. simpl. auto.
  - right; right; left. exists [x7e], [x3d], g. simpl. auto.
  - right; right; right; left. exists [x3e], [x3d], g. simpl.
    repeat split; auto.
  - right; right; right; left. exists [x3e], [], g. simpl.
    repeat split; auto.
  - right; right; right; right. exists [x3c], [x3d], g. simpl.
    repeat split; auto.
  - right; right; right; right. exists [x3c], [], g. simpl.
    repeat split; auto.
Qed.

(** [search] returns the leftmost match. *)
Lemma search_from_leftmost (r : re) (s : bytes) :
  forall i m pre w rest g g',
    search_from r s i = Some m ->
    s = pre ++ w ++ rest -> matches r w rest g g' ->
    m_start m <= i + length pre.
Proof.
  induction s as [|c s IH]; intros i m pre w rest g g' H Hs Hm; simpl in H.
  - destruct (match_here r [] i) as [m'|] eqn:E; [|discriminate].
    injection H as ->.
    apply match_here_sound in E as (w0 & r0 & g0 & Hs0 & Hm0 & ->).
      simpl. lia.
  - destruct (match_here r (c :: s) i) as [m'|] eqn:E.
    + injection H as ->.
      apply match_here_sound in E as (w0 & r0 & g0 & Hs0 & Hm0 & ->).
      simpl. lia.
    + destruct pre as [|d pre].
      * exfalso. simpl in Hs. unfold match_here in E. rewrite Hs in E.
        revert E. eapply run_complete; eauto. discriminate.
      * simpl in Hs. injection Hs as _ Hs.
        pose proof (IH (S i) m pre w rest g g' H Hs Hm). simpl. lia.
Qed.

(** Without an egg marker the name is the first token, lowered, cut where
    its first comparison operator starts; a token without an operator is
    the name as it is. *)
Theorem name_cut_at_first_operator (v : bytes) :
  contains egg1 v = false -> contains egg2 v = false ->
  take_while not_sep (lower v) <> [] ->
  exists n rest,
    name_of v = Ok n /\
    take_while not_sep (lower v) = n ++ rest /\
    (rest = [] \/
     exists op rest', In op comparison_operators /\ rest = op ++ rest') /\
    (forall pre op rest',
        In op comparison_operators ->
        take_while not_sep (lower v) = pre ++ op ++ rest' ->
        length n <= length pre).
Proof.
  intros H1 H2 Hne. unfold name_of. rewrite H1, H2.
  destruct (until_sep_token _ Hne) as (m & -> & ->).
  remember (take_while not_sep (lower v)) as t.
  destruct (search UNTIL_COMPARISON t) as [m'|] eqn:E.
  - unfold search in E.
    pose proof (search_from_sound _ _ _ E)
      as (pre0 & w0 & rest0 & g0 & Ht & Hm & Hm').
    exists pre0, (w0 ++ rest0).
    assert (Hstart : m_start m' = length pre0) by (rewrite Hm'; reflexivity).
    rewrite Hstart. repeat split; auto.
    + rewrite Ht at 1.
      now rewrite firstn_app, firstn_all, Nat.sub_diag, app_nil_r.
    + right. exists w0, rest0. split; auto.
      eapply comparison_matches; eauto.
    + intros pre op rest' Hop Hdec.
      pose proof (@search_from_leftmost UNTIL_COMPARISON t 0 m' pre op rest'
                    None None E Hdec
                    (@comparison_matches_conv op rest' None Hop)) as Hle.
      rewrite Hstart in Hle. simpl in Hle. exact Hle.
  - exists t, []. rewrite app_nil_r. repeat split; auto.
    intros pre op rest' Hop Hdec. exfalso.
    unfold search in E. revert E. rewrite Hdec.
    eapply search_from_complete.
    apply (@comparison_matches_conv op rest' None Hop).
Qed.

Lemma name_cut_at_first_operator_witness :
  exists n rest,
    name_of (b "C-a>=1;python_version>=3.6\n") = Ok n /\
    take_while not_sep (lower (b "C-a>=1;python_version>=3.6\n"))
    = n ++ rest /\
    (rest = [] \/
     exists op rest', In op comparison_operators /\ rest = op ++ rest') /\
    (forall pre op rest',
        In op comparison_operators ->
        take_while not_sep (lower (b "C-a>=1;python_version>=3.6\n"))
        = pre ++ op ++ rest' ->
        length n <= length pre).
Proof.
  apply (@name_cut_at_first_operator (b "C-a>=1;python_version>=3.6\n"));
    try by_run.
  vm_compute. discriminate.
Defined.

Lemma partition_last_incl (sep s : bytes) : incl (partition_last sep s) s.
Proof.
  induction s as [|c s IH]; simpl.
  - destruct (startswith sep []); [|intros x []].
    intros x Hx. destruct sep; simpl in Hx; exact Hx.
  - destruct (startswith sep (c :: s)).
    + intros x Hx.
      rewrite <- (firstn_skipn (length sep) (c :: s)).
      apply in_or_app. now right.
    + intros x Hx. right. now apply IH.
Qed.

Lemma firstn_incl {A} (n : nat) (l : list A) : incl (firstn n l) l.
Proof.
  intros x Hx. rewrite <- (firstn_skipn n l). apply in_or_app. now left.
Qed.

Lemma skipn_incl {A} (n : nat) (l : list A) : incl (skipn n l) l.
Proof.
  intros x Hx. rewrite <- (firstn_skipn n l). apply in_or_app. now right.
Qed.

Lemma lower_no_upper (s : bytes) : forallb no_upper (lower s) = true.
Proof.
  unfold lower. induction s as [|c s IH]; simpl; auto.
  rewrite IH, andb_true_r. destruct c; reflexivity.
Qed.

(** A name never holds an upper-case ASCII letter: the sort does not tell
    [Django] from [django]. *)
Theorem name_is_lowercase (v n : bytes) :
  name_of v = Ok n -> forallb no_upper n = true.
Proof.
  intros Hn.
  assert (Hincl : incl n (lower v)).
  { unfold name_of in Hn.
    destruct (contains egg1 v).
    { injection Hn as <-. apply partition_last_incl. }
    destruct (contains egg2 v).
    { injection Hn as <-. apply partition_last_incl. }
    destruct (rmatch UNTIL_SEP (lower v)) as [m|]; [|discriminate].
    assert (Hg : incl (group0 (lower v) m) (lower v)).
    { unfold group0. eapply incl_tran; [apply firstn_incl | apply skipn_incl]. }
    destruct (search UNTIL_COMPARISON (group0 (lower v) m)) as [m'|];
      injection Hn as <-; auto.
    eapply incl_tran; [apply firstn_incl | exact Hg]. }
  apply forallb_forall. intros c Hc.
  pose proof (lower_no_upper v) as Hl. rewrite forallb_forall in Hl. auto.
Qed.

Lemma name_is_lowercase_witness :
  forallb no_upper (b "pymysql") = true.
Proof.
  apply (@name_is_lowercase (b "PyMySQL\n") (b "pymysql")). by_run.
Defined.

(** ** The run, continued *)

(** Every line of the file a run leaves ends with a newline: the output
    never ends in an unfinished line. *)
Theorem output_lines_terminated
        (f : bytes) (rv : bool) (ret : nat) (evs : list event) :
  fix_requirements f rv = Ok (ret, evs) -> is_blank f = false ->
  Forall terminated (readlines (content_after f evs)).
Proof.
  intros H Hb.
  destruct (output_lines _ _ H Hb) as (out & _ & _ & Hi & ->).
  pose proof (lines_of_terminated f) as HL. rewrite Forall_forall in HL.
  apply Forall_forall. intros x Hx. apply Hi in Hx as [<-|Hx]; auto.
  apply marker_terminated.
Qed.

Lemma output_lines_terminated_witness :
  Forall terminated (readlines (b "a\nb\nc\n")).
Proof.
  apply (@output_lines_terminated (b "a\nc\nb") false FAIL
           [Seek 0; Write (b "a\nb\nc\n"); Truncate]); by_run.
Defined.

(** Without [require_version] a run prints nothing, and it returns FAIL
    exactly when it changed the file. *)
Theorem quiet_without_require_version
        (f : bytes) (ret : nat) (evs : list event) :
  fix_requirements f false = Ok (ret, evs) ->
  printed evs = [] /\
  (ret = PASS \/ ret = FAIL) /\
  (ret = FAIL <-> content_after f evs <> f).
Proof.
  intros H.
  apply fix_requirements_inv in H
    as [(_ & -> & ->)|(_ & after & missing & Hc & -> & ->)].
  - repeat split; auto; [discriminate|].
    intros Hn. exfalso. apply Hn. reflexivity.
  - apply corrected_no_report in Hc. subst missing. simpl.
    destruct (bytes_eqb f after) eqn:E.
    + repeat split; auto; [discriminate|].
      intros Hn. exfalso. apply Hn. reflexivity.
    + apply bytes_eqb_neq in E. unfold content_after.
      rewrite rewrite_content. repeat split; auto; try congruence.
Qed.

Lemma quiet_without_require_version_witness :
  printed [Seek 0; Write (b "bar\nfoo\n"); Truncate] = [] /\
  (FAIL = PASS \/ FAIL = FAIL) /\
  (FAIL = FAIL <-> b "bar\nfoo\n" <> b "foo\nbar\n").
Proof.
  apply (@quiet_without_require_version (b "foo\nbar\n") FAIL
           [Seek 0; Write (b "bar\nfoo\n"); Truncate]). by_run.
Defined.

Lemma lstrip_all (p : byte -> bool) (s : bytes) :
  forallb p s = true -> lstrip_with p s = [].
Proof.
  induction s as [|c s IH]; simpl; auto.
  intros H. apply andb_true_iff in H as [Hc Hs]. rewrite Hc. auto.
Qed.

Lemma lstrip_split (p : byte -> bool) (s : bytes) :
  exists pre, s = pre ++ lstrip_with p s /\ forallb p pre = true /\
              match lstrip_with p s with
              | [] => True
              | c :: _ => p c = false
              end.
Proof.
  induction s as [|c s (pre & Hs & Hp & Hh)]; simpl.
  - exists []. auto.
  - destruct (p c) eqn:E.
    + exists (c :: pre). simpl. rewrite E, Hp. repeat split; auto.
      now rewrite <- Hs.
    + exists []. auto.
Qed.

Lemma is_blank_iff (s : bytes) : is_blank s = true <-> forallb isspace s = true.
Proof.
  unfold is_blank, strip, rstrip, rstrip_with, lstrip. split.
  - intros H. apply bytes_eqb_eq in H.
    destruct (lstrip_split isspace s) as (pre & Hs & Hp & Hh).
    remember (lstrip_with isspace s) as t.
    assert (Ht : lstrip_with isspace (rev t) = []).
    { rewrite <- (rev_involutive (lstrip_with isspace (rev t))), H.
      reflexivity. }
    destruct (lstrip_split isspace (rev t)) as (pre' & Hs' & Hp' & _).
    rewrite Ht, app_nil_r in Hs'.
    assert (Hall : forallb isspace t = true).
    { apply forallb_forall. intros c Hc. rewrite forallb_forall in Hp'.
      apply Hp'. rewrite <- Hs'. now apply in_rev in Hc. }
    rewrite Hs, forallb_app, Hp, Hall. reflexivity.
  - intros H. rewrite (lstrip_all _ _ H). reflexivity.
Qed.

(** A file of whitespace only, the empty file among them, is left alone
    whatever the flag: PASS, nothing printed, nothing written. *)
Theorem whitespace_file_untouched (f : bytes) (rv : bool) :
  forallb isspace f = true -> fix_requirements f rv = Ok (PASS, []).
Proof.
  intros H. apply fix_requirements_blank. now apply is_blank_iff.
Qed.

Lemma whitespace_file_untouched_witness :
  fix_requirements (b " \t\r\n\n") true = Ok (PASS, []).
Proof.
  apply (@whitespace_file_untouched (b " \t\r\n\n") true). reflexivity.
Defined.

(** ** The first entry *)

Lemma scan_line_nil (line : bytes) :
  scan_line [] line = scan_line [new_requirement] line.
Proof. reflexivity. Qed.

(** A turn of the loop while the first entry has no value yet. *)
Lemma scan_line_first (cs : list bytes) (line : bytes) :
  scan_line [{| value := None; comments := cs |}] line
  = [if is_blank line then
       if Nat.ltb 0 (length cs) && startswith (b "#") (hd [] cs)
       then {| value := Some marker; comments := cs |}
       else {| value := None; comments := cs ++ [line] |}
     else if is_comment line
          then {| value := None; comments := cs ++ [line] |}
          else {| value := Some line; comments := cs |}].
Proof.
  unfold scan_line.
  cbn [length Nat.eqb orb last is_complete value app removelast andb comments].
  destruct (is_blank line).
  - destruct (Nat.ltb 0 (length cs) && startswith (b "#") (hd [] cs));
      reflexivity.
  - cbn [andb orb]. destruct (is_comment line); reflexivity.
Qed.

Lemma hash_line (c : bytes) :
  startswith (b "#") c = true -> is_blank c = false /\ is_comment c = true.
Proof.
  intros H. destruct c as [|d c]; [discriminate|]. simpl in H.
  apply andb_true_iff in H as [H _]. apply byte_dec_bl in H. subst d.
  split; [|reflexivity].
  destruct (is_blank (x23 :: c)) eqn:E; auto.
  apply is_blank_iff in E. discriminate.
Qed.

Lemma marker_flagged (cs : list bytes) :
  flagged {| value := Some marker; comments := cs |} = true /\
  report {| value := Some marker; comments := cs |} = [].
Proof. split; reflexivity. Qed.

(** With [require_version], a file that opens with a [#] comment followed
    by a blank line never passes: the top-of-file marker entry has no
    version, so it is reported, under the empty name. *)
Theorem top_comment_fails_version_check
        (f : bytes) (c bl : bytes) (L2 : list bytes)
        (ret : nat) (evs : list event) :
  lines_of f = c :: bl :: L2 ->
  startswith (b "#") c = true -> is_blank bl = true ->
  fix_requirements f true = Ok (ret, evs) ->
  ret = FAIL /\
  exists missing,
    In [] missing /\ printed evs = [missing_message missing].
Proof.
  intros HL Hc Hbl H.
  destruct (hash_line _ Hc) as [Hcb Hcc].
  set (e := {| value := Some marker; comments := [c] |}).
  assert (Hscan : exists Q, scan (lines_of f) = e :: Q).
  { rewrite HL. unfold scan. simpl.
    rewrite scan_line_nil. unfold new_requirement.
    rewrite scan_line_first, Hcb, Hcc. simpl app.
    rewrite scan_line_first, Hbl. simpl length. cbn [Nat.ltb Nat.leb andb hd].
    rewrite Hc.
    destruct (scan_lines_keep L2 [] [] e eq_refl) as (Q & HQ).
    exists Q. exact HQ. }
  destruct Hscan as (Q & Hscan).
  assert (Hin : In e (parsed (lines_of f))).
  { unfold parsed, drop_blacklisted. apply filter_In. split; [|reflexivity].
    apply in_split_rest; [|discriminate]. rewrite Hscan. now left. }
  apply fix_requirements_inv in H
    as [(Hb & _)|(_ & after & missing & Hcor & -> & ->)].
  - exfalso. apply is_blank_iff in Hb.
    assert (Hf : f = join (readlines f)) by now rewrite join_readlines.
    unfold lines_of, add_newline in HL.
    destruct (readlines f) as [|l0 ls] eqn:Er; [discriminate|].
    assert (Hc0 : l0 = c).
    { destruct (endswith (b "\n") (last (l0 :: ls) [])).
      - now injection HL.
      - destruct ls as [|l1 ls]; simpl in HL; [discriminate|].
        now injection HL. }
    subst l0. rewrite Hf in Hb. unfold join in Hb. simpl in Hb.
    rewrite forallb_app in Hb. apply andb_true_iff in Hb as [Hb _].
    apply is_blank_iff in Hb. congruence.
  - apply corrected_inv in Hcor as (out & He & Hemit & _).
    apply emit_report in Hemit as [Hm _]. simpl in Hm. subst missing.
    assert (Hout : In e out)
      by (eapply Permutation_in; [eapply sorted_perm|]; eauto).
    assert (Hrep : In [] (map report (filter flagged out))).
    { change [] with (report e).
      apply in_map, filter_In. split; auto. }
    destruct (map report (filter flagged out)) as [|m ms] eqn:Em;
      [destruct Hrep|].
    split.
    + destruct (bytes_eqb f after); reflexivity.
    + exists (m :: ms). split; auto.
      destruct (bytes_eqb f after); reflexivity.
Qed.

Lemma top_comment_fails_version_check_witness :
  FAIL = FAIL /\
  exists missing,
    In [] missing /\
    printed [Print (u "Missing versions in: ")] = [missing_message missing].
Proof.
  apply (@top_comment_fails_version_check
           (b "#c\n\nfoo==1.0\n") (b "#c\n") (b "\n") [b "foo==1.0\n"]
           FAIL [Print (u "Missing versions in: ")]); by_run.
Defined.

(** ** The comparator and the continuation test *)

(** [__lt__]: the marker is less than everything, itself included, and
    nothing is less than the marker; between ordinary entries [x < y]
    excludes [y < x]. *)
Theorem marker_is_least (x y : Requirement) :
  (is_marker x = true -> lt x y = Ok true) /\
  (is_marker x = false -> value x <> None -> is_marker y = true ->
   lt x y = Ok false) /\
  (is_marker x = false -> lt x y = Ok true -> lt y x = Ok false).
Proof.
  repeat split.
  - unfold lt, is_marker, value_is.
    destruct (value x) as [v|]; [|discriminate]. now intros ->.
  - unfold lt, is_marker, value_is.
    destruct (value x) as [v|]; [|contradiction]. intros -> _.
    destruct (value y) as [w|]; [|discriminate]. now intros ->.
  - intros Hx H.
    apply lt_inv in H
      as [[H _]|[(_ & _ & H)|(_ & Hy & n1 & n2 & H1 & H2 & H)]];
      try congruence.
    unfold lt. unfold is_marker, value_is in Hx, Hy.
    destruct (value y) as [w|] eqn:Ey.
    + rewrite Hy. destruct (value x) as [v|] eqn:Ex.
      * rewrite Hx. unfold name in *. rewrite Ex in H1. rewrite Ey in H2.
        rewrite Ey, Ex, H1, H2. simpl. symmetry in H.
        now rewrite (bytes_ltb_asym _ _ H).
      * unfold name in H1. rewrite Ex in H1. discriminate.
    + unfold name in H2. rewrite Ey in H2. discriminate.
Qed.

Lemma marker_is_least_witness :
  lt {| value := Some marker; comments := [b "#foo"] |}
     {| value := Some marker; comments := [b "#foo"] |} = Ok true /\
  lt (mk "foo") {| value := Some marker; comments := [b "#foo"] |}
  = Ok false /\
  lt (mk "foo") (mk "bar") = Ok false.
Proof.
  split; [|split].
  - apply (marker_is_least
             {| value := Some marker; comments := [b "#foo"] |}
             {| value := Some marker; comments := [b "#foo"] |}).
    reflexivity.
  - apply (marker_is_least (mk "foo")
             {| value := Some marker; comments := [b "#foo"] |});
      [reflexivity | discriminate | reflexivity].
  - apply (marker_is_least (mk "bar") (mk "foo")); reflexivity.
Defined.

Lemma lstrip_app_stop (p : byte -> bool) (x y : bytes) (c : byte) :
  forallb p x = true -> p c = false ->
  lstrip_with p (x ++ c :: y) = c :: y.
Proof.
  intros Hx Hc. induction x as [|d x IH]; simpl in *.
  - now rewrite Hc.
  - apply andb_true_iff in Hx as [Hd Hx]. rewrite Hd. auto.
Qed.

(** [is_complete]: an entry is unfinished exactly when it has no value yet
    or its value ends with a backslash, carriage returns and newlines
    aside; so a backslash continues the entry in a CRLF file too. *)
Theorem unfinished_iff (r : Requirement) :
  is_complete r = false <->
  value r = None \/
  exists body trail,
    value r = Some (body ++ [x5c] ++ trail) /\ forallb is_crlf trail = true.
Proof.
  unfold is_complete. destruct (value r) as [v|]; [|split; auto].
  fold is_crlf. unfold endswith, rstrip_with. rewrite rev_involutive.
  change (rev (b "\\")) with [x5c].
  destruct (lstrip_split is_crlf (rev v)) as (pre & Hs & Hp & Hh).
  split.
  - intros H. right. apply negb_false_iff in H.
    destruct (lstrip_with is_crlf (rev v)) as [|c t]; [discriminate|].
    simpl in H. apply andb_true_iff in H as [H _].
    apply byte_dec_bl in H. subst c.
    exists (rev t), (rev pre). split.
    + f_equal. rewrite <- (rev_involutive v), Hs, rev_app_distr. simpl.
      now rewrite <- app_assoc.
    + now apply forallb_rev_true.
  - intros [H|(body & trail & H & Ht)]; [discriminate|].
    injection H as ->. apply negb_false_iff.
    rewrite !rev_app_distr. simpl. rewrite <- app_assoc. simpl.
    rewrite lstrip_app_stop; auto.
    now apply forallb_rev_true.
Qed.

(** ** [main], continued *)

Lemma str_eqb_eq (x y : str) : str_eqb x y = true <-> x = y.
Proof.
  revert y; induction x as [|c x IH]; intros [|d y]; simpl; split;
    try easy.
  - intros H. apply andb_true_iff in H as [H1 H2].
    apply N.eqb_eq in H1. apply IH in H2. congruence.
  - intros H. injection H as -> ->.
    apply andb_true_iff; split; [apply N.eqb_refl | now apply IH].
Qed.

Lemma file_run_spec (evs : list event) :
  forall (f : File) (out : list str),
    file_run evs (f, out)
    = (fst (file_run evs (f, [])), out ++ printed evs).
Proof.
  unfold file_run.
  induction evs as [|e evs IH]; intros f out; simpl.
  - now rewrite app_nil_r.
  - destruct e as [line|n|d|]; simpl; rewrite IH; try reflexivity.
    rewrite (IH f [line]). simpl. now rewrite <- app_assoc.
Qed.

Lemma fix_requirements_pass (f : bytes) (rv : bool) (ret : nat)
      (evs : list event) :
  fix_requirements f rv = Ok (ret, evs) ->
  (ret = PASS \/ ret = FAIL) /\ (ret = PASS -> evs = []).
Proof.
  intros H.
  apply fix_requirements_inv in H
    as [(_ & -> & ->)|(_ & after & missing & _ & -> & ->)]; auto.
  destruct (bytes_eqb f after), (Nat.ltb 0 (length missing)); simpl;
    split; auto; discriminate.
Qed.

(** One turn of the loop of [main], by its effects. *)
Lemma main_file_spec (arg : str) (rv : bool) (w w' : World) (ret : nat) :
  main_file arg rv w = (w', Ok ret) ->
  exists content evs,
    files w arg = Some content /\
    fix_requirements content rv = Ok (ret, evs) /\
    stdout w' = stdout w ++ printed evs
                ++ (if Nat.eqb ret 0 then [] else [sorting_message arg]) /\
    forall p, files w' p = if str_eqb p arg
                           then Some (content_after content evs)
                           else files w p.
Proof.
  unfold main_file.
  destruct (files w arg) as [content|] eqn:Ef; [|discriminate].
  destruct (fix_requirements content rv) as [[r evs]|e] eqn:Efix;
    [|discriminate].
  rewrite file_run_spec. intros [= <- <-].
  exists content, evs. repeat split; auto. simpl.
  destruct (Nat.eqb r 0); [now rewrite app_nil_r | now rewrite app_assoc].
Qed.

Lemma main_file_raise (arg : str) (rv : bool) (w w' : World) (e : exn) :
  main_file arg rv w = (w', Raise e) -> w' = w.
Proof.
  unfold main_file.
  destruct (files w arg) as [content|]; [|now intros [= <-]].
  destruct (fix_requirements content rv) as [[r evs]|e'];
    [|now intros [= <-]].
  destruct (file_run evs _). discriminate.
Qed.

Lemma main_loop_pass (l : list str) (rv : bool) :
  forall (w w' : World) (retv : nat),
    main_loop l rv w retv = (w', Ok PASS) ->
    retv = PASS /\ stdout w' = stdout w /\
    forall p, files w' p = files w p.
Proof.
  induction l as [|arg l IH]; intros w w' retv H; simpl in H.
  - injection H as <- ->. auto.
  - destruct (main_file arg rv w) as [w1 [r|e]] eqn:E; [|discriminate].
    apply IH in H as (Hor & Hout & Hfiles).
    apply main_file_spec in E as (content & evs & Hf & Hfix & Hout1 & Hfiles1).
    apply fix_requirements_pass in Hfix as [Hr Hevs].
    assert (Hz : retv = 0 /\ r = 0).
    { unfold PASS, FAIL in *. destruct Hr as [-> | ->].
      - rewrite Nat.lor_0_r in Hor. auto.
      - destruct retv as [|[|n]]; simpl in Hor; try discriminate.
        exfalso. clear - Hor. 
        assert (Ht : Nat.testbit (Nat.lor (S (S n)) 1) 0 = true).
        { rewrite Nat.lor_spec. simpl. apply orb_true_r. }
        rewrite Hor in Ht. discriminate. }
    destruct Hz as [-> ->]. specialize (Hevs eq_refl). subst evs.
    simpl in Hout1. rewrite app_nil_r in Hout1.
    repeat split; auto; [congruence|].
    intros p. rewrite Hfiles, Hfiles1.
    destruct (str_eqb p arg) eqn:Ep; auto.
    apply str_eqb_eq in Ep. subst p. now rewrite Hf.
Qed.

(** Exit code 0 means nothing happened: when [main] returns PASS it has
    printed nothing and every file holds what it held. *)
Theorem main_pass_untouched
        (filenames : list str) (rv : bool) (w w' : World) :
  main filenames rv w = (w', Ok PASS) ->
  stdout w' = stdout w /\ forall p, files w' p = files w p.
Proof.
  unfold main. intros H. now apply main_loop_pass in H as (_ & H1 & H2).
Qed.

Lemma main_pass_untouched_witness :
  stdout (fst (main [req_txt] false (one_file req_txt (b "bar\nfoo\n"))))
  = stdout (one_file req_txt (b "bar\nfoo\n")) /\
  forall p,
    files (fst (main [req_txt] false (one_file req_txt (b "bar\nfoo\n")))) p
    = files (one_file req_txt (b "bar\nfoo\n")) p.
Proof.
  apply (@main_pass_untouched [req_txt] false
           (one_file req_txt (b "bar\nfoo\n"))
           (fst (main [req_txt] false (one_file req_txt (b "bar\nfoo\n"))))).
  vm_compute. reflexivity.
Defined.

Lemma main_loop_files (l : list str) (rv : bool) :
  forall (w w' : World) (retv : nat) (r : result nat),
    main_loop l rv w retv = (w', r) ->
    forall p,
      (files w' p = None <-> files w p = None) /\
      (~ In p l -> files w' p = files w p).
Proof.
  induction l as [|arg l IH]; intros w w' retv r H p; simpl in H.
  - injection H as <- _. tauto.
  - destruct (main_file arg rv w) as [w1 [r1|e]] eqn:E.
    + destruct (IH _ _ _ _ H p) as [Hn Hp].
      apply main_file_spec in E as (content & evs & Hf & _ & _ & Hfiles).
      specialize (Hfiles p). split.
      * rewrite Hn, Hfiles.
        destruct (str_eqb p arg) eqn:Ep; [|tauto].
        apply str_eqb_eq in Ep. subst p. rewrite Hf. split; discriminate.
      * intros Hnot. rewrite Hp, Hfiles; [|intros Hin; apply Hnot; now right].
        destruct (str_eqb p arg) eqn:Ep; auto.
        apply str_eqb_eq in Ep. exfalso. apply Hnot. now left.
    + injection H as <- _. apply main_file_raise in E. subst w1. tauto.
Qed.

(** [main] creates no file and deletes none, and a file it was not given
    keeps its content, whether [main] returns or raises. *)
Theorem main_touches_only_named
        (filenames : list str) (rv : bool) (w w' : World) (r : result nat) :
  main filenames rv w = (w', r) ->
  forall p,
    (files w' p = None <-> files w p = None) /\
    (~ In p filenames -> files w' p = files w p).
Proof. unfold main. apply main_loop_files. Qed.

Lemma main_touches_only_named_witness :
  (files (fst (main [req_txt] false world_before)) (u "other.txt") = None
   <-> files world_before (u "other.txt") = None) /\
  (~ In (u "other.txt") [req_txt] ->
   files (fst (main [req_txt] false world_before)) (u "other.txt")
   = files world_before (u "other.txt")).
Proof.
  apply (@main_touches_only_named [req_txt] false world_before
           (fst (main [req_txt] false world_before))
           (snd (main [req_txt] false world_before))).
  vm_compute. reflexivity.
Defined.

Lemma main_loop_printed (l : list str) (rv : bool) :
  forall (w w' : World) (retv ret : nat),
    main_loop l rv w retv = (w', Ok ret) ->
    retv <= 1 ->
    ret <= 1 /\
    exists out,
      stdout w' = stdout w ++ out /\
      (ret = 1 <-> retv = 1 \/ out <> []).
Proof.
  induction l as [|arg l IH]; intros w w' retv ret H Hle; simpl in H.
  - injection H as <- <-. split; auto. exists []. rewrite app_nil_r.
    split; auto. split; auto. intros [H|H]; [auto | contradiction].
  - destruct (main_file arg rv w) as [w1 [r1|e]] eqn:E; [|discriminate].
    apply main_file_spec in E as (content & evs & _ & Hfix & Hout1 & _).
    apply fix_requirements_pass in Hfix as [Hr Hevs].
    assert (Hor : Nat.lor retv r1 <= 1 /\
                  (Nat.lor retv r1 = 1 <-> retv = 1 \/ r1 = 1)).
    { unfold PASS, FAIL in Hr.
      destruct Hr as [-> | ->]; destruct retv as [|[|n]]; simpl;
        try lia; split; auto; try tauto; try lia. }
    destruct Hor as [Hle' Hor].
    destruct (IH _ _ _ _ H Hle') as (Hret & out & Hout & Hiff).
    split; auto.
    exists ((printed evs
             ++ (if Nat.eqb r1 0 then [] else [sorting_message arg])) ++ out).
    split; [rewrite Hout, Hout1; now rewrite <- !app_assoc|].
    rewrite Hiff, Hor. unfold PASS, FAIL in *.
    destruct Hr as [-> | ->].
    + rewrite (Hevs eq_refl). simpl. split.
      * intros [[H1|H1]|H1]; auto. discriminate.
      * intros [H1|H1]; auto.
    + simpl. split; intros _.
      * right. destruct (printed evs); discriminate.
      * left. now right.
Qed.

(** The exit code of [main] is 0 or 1, and it is 1 exactly when [main]
    printed something. *)
Theorem main_fail_iff_printed
        (filenames : list str) (rv : bool) (w w' : World) (ret : nat) :
  main filenames rv w = (w', Ok ret) ->
  (ret = PASS \/ ret = FAIL) /\
  (ret = FAIL <-> stdout w' <> stdout w).
Proof.
  unfold main, PASS, FAIL. intros H.
  apply main_loop_printed in H as (Hle & out & Hout & Hiff); [|lia].
  split; [lia|]. rewrite Hiff, Hout. split.
  - intros [H|H]; [discriminate|].
    intros Heq. apply H.
    rewrite <- (app_nil_r (stdout w)) in Heq at 2.
    now apply app_inv_head in Heq.
  - intros Hn. right. intros ->. apply Hn. now rewrite app_nil_r.
Qed.

Lemma main_fail_iff_printed_witness :
  (FAIL = PASS \/ FAIL = FAIL) /\
  (FAIL = FAIL <-> stdout world_after <> stdout world_before).
Proof.
  apply (@main_fail_iff_printed [req_txt] false world_before world_after FAIL).
  vm_compute. reflexivity.
Defined.

Lemma stable_sort_unique_witness :
  [mk "bar\n"; mk "foo\n"] = [mk "bar\n"; mk "foo\n"].
Proof.
  apply (@stable_sort_unique [mk "foo\n"; mk "bar\n"]
           [mk "bar\n"; mk "foo\n"] [mk "bar\n"; mk "foo\n"]).
  - constructor; [reflexivity | constructor].
  - reflexivity.
  - apply perm_swap.
  - constructor; [constructor; [constructor | constructor] |].
    constructor; [|constructor].
    right. split; [reflexivity|].
    exists (b "bar"), (b "foo"). repeat split; reflexivity.
  - intros n. simpl.
    destruct (has_name n (mk "bar\n")) eqn:E1;
      destruct (has_name n (mk "foo\n")) eqn:E2; auto.
    exfalso. apply has_name_true in E1 as [_ E1].
    apply has_name_true in E2 as [_ E2].
    vm_compute in E1, E2. congruence.
Defined.

(** ** Include directives *)

Lemma in_range_spec (lo hi : N) (c : byte) :
  in_range lo hi c = true -> (lo <= Byte.to_N c /\ Byte.to_N c <= hi)%N.
Proof.
  unfold in_range. intros H. apply andb_true_iff in H as [H1 H2].
  apply N.leb_le in H1. apply N.leb_le in H2. auto.
Qed.

Lemma cont_spec (c : byte) (n : N) :
  cont c = Some n -> (n = Byte.to_N c - 128 /\ 128 <= Byte.to_N c)%N.
Proof.
  unfold cont.
  destruct ((128 <=? Byte.to_N c)%N && (Byte.to_N c <=? 191)%N) eqn:E;
    [|discriminate].
  intros [= <-]. apply andb_true_iff in E as [E _].
  apply N.leb_le in E. auto.
Qed.

Lemma option_map_cons (x : N) (o : option str) (s : str) :
  option_map (cons x) o = Some s -> exists s', o = Some s' /\ s = x :: s'.
Proof. destruct o as [s'|]; simpl; [|discriminate]. intros [= <-]. eauto. Qed.

(** The first code point of a decoded value: the first byte when it is
    ASCII, and something beyond ASCII otherwise. *)
Lemma decode_head (c : byte) (v : bytes) (s : str) :
  decode_opt (c :: v) = Some s ->
  exists cp s',
    s = cp :: s' /\
    (((Byte.to_N c < 128)%N /\ cp = Byte.to_N c /\ decode_opt v = Some s') \/
     ((128 <= Byte.to_N c)%N /\ (128 <= cp)%N)).
Proof.
  cbn [decode_opt].
  destruct (Byte.to_N c <? 128)%N eqn:E0.
  - apply N.ltb_lt in E0. intros H.
    apply option_map_cons in H as (s' & Hs & ->).
    exists (Byte.to_N c), s'. auto.
  - apply N.ltb_ge in E0.
    destruct (in_range 194 223 c) eqn:E1.
    { apply in_range_spec in E1.
      destruct v as [|c1 r]; [discriminate|].
      destruct (cont c1) as [n1|] eqn:C1; [|discriminate].
      intros H. apply option_map_cons in H as (s' & Hs & ->).
      eexists. exists s'. split; [reflexivity|]. right. split; auto. lia. }
    destruct (in_range 224 239 c) eqn:E2.
    { apply in_range_spec in E2.
      destruct v as [|c1 [|c2 r]]; try discriminate.
      destruct (cont c1) as [n1|] eqn:C1; [|discriminate].
      destruct (cont c2) as [n2|] eqn:C2; [|discriminate].
      apply cont_spec in C1 as [-> C1].
      destruct (in_range _ _ c1) eqn:E3; [|discriminate].
      apply in_range_spec in E3.
      intros H. apply option_map_cons in H as (s' & Hs & ->).
      eexists. exists s'. split; [reflexivity|]. right. split; auto.
      destruct (N.eqb_spec (Byte.to_N c) 224); lia. }
    destruct (in_range 240 244 c) eqn:E4; [|discriminate].
    apply in_range_spec in E4.
    destruct v as [|c1 [|c2 [|c3 r]]]; try discriminate.
    destruct (cont c1) as [n1|] eqn:C1; [|discriminate].
    destruct (cont c2) as [n2|] eqn:C2; [|discriminate].
    destruct (cont c3) as [n3|] eqn:C3; [|discriminate].
    apply cont_spec in C1 as [-> C1].
    destruct (in_range _ _ c1) eqn:E3; [|discriminate].
    apply in_range_spec in E3.
    intros H. apply option_map_cons in H as (s' & Hs & ->).
    eexists. exists s'. split; [reflexivity|]. right. split; auto.
    destruct (N.eqb_spec (Byte.to_N c) 240); lia.
Qed.

Lemma byte_eqb_N (a c : byte) :
  Byte.eqb a c = (Byte.to_N a =? Byte.to_N c)%N.
Proof.
  destruct (Byte.eqb a c) eqn:E.
  - apply byte_dec_bl in E. subst. symmetry. apply N.eqb_refl.
  - symmetry. apply N.eqb_neq. intros H. apply to_N_inj in H. subst.
    now rewrite (byte_dec_lb eq_refl) in E.
Qed.

Lemma decoded_prefix_char (a : byte) (v : bytes) (s : str) :
  (Byte.to_N a < 128)%N -> decode_opt v = Some s ->
  str_startswith [Byte.to_N a] s = startswith [a] v.
Proof.
  intros Ha H. destruct v as [|c v].
  - simpl in H. injection H as <-. reflexivity.
  - apply decode_head in H as (cp & s' & -> & [(Hc & -> & _)|[Hc Hcp]]);
      simpl; rewrite byte_eqb_N.
    + reflexivity.
    + rewrite !andb_true_r.
      transitivity false; [apply N.eqb_neq; lia | symmetry; apply N.eqb_neq; lia].
Qed.

Lemma decoded_startswith_r (v : bytes) (s : str) :
  decode_opt v = Some s ->
  str_startswith (u "-r") s = startswith (b "-r") v.
Proof.
  intros H. change (u "-r") with [Byte.to_N x2d; Byte.to_N x72].
  change (b "-r") with [x2d; x72].
  destruct v as [|c v].
  - simpl in H. injection H as <-. reflexivity.
  - apply decode_head in H as (cp & s' & -> & [(Hc & -> & Hv)|[Hc Hcp]]).
    + cbn [str_startswith startswith]. rewrite byte_eqb_N. f_equal.
      apply (@decoded_prefix_char x72 v s'); [reflexivity | exact Hv].
    + cbn [str_startswith startswith]. rewrite byte_eqb_N.
      replace (Byte.to_N x2d =? cp)%N with false
        by (symmetry; apply N.eqb_neq; simpl; lia).
      replace (Byte.to_N x2d =? Byte.to_N c)%N with false
        by (symmetry; apply N.eqb_neq; simpl; lia).
      reflexivity.
Qed.

(** [is_include] is a test on the bytes: an entry is an include directive
    exactly when its value begins with the two bytes [-r]; it raises when
    the value is not UTF-8, and it is false without a value. *)
Theorem is_include_spec (r : Requirement) :
  is_include r
  = match value r with
    | None | Some [] => Ok false
    | Some v =>
        match decode_opt v with
        | Some _ => Ok (startswith (b "-r") v)
        | None => Raise UnicodeDecodeError
        end
    end.
Proof.
  unfold is_include. destruct (value r) as [[|c v]|]; auto.
  unfold decode. destruct (decode_opt (c :: v)) as [s|] eqn:E; auto.
  cbn [bind]. f_equal. now apply decoded_startswith_r.
Qed.

(** ** Serialised entries, scanned again *)

Lemma is_comment_not_blank (c : bytes) :
  is_comment c = true -> is_blank c = false.
Proof.
  unfold is_comment, lstrip. intros H.
  destruct (is_blank c) eqn:E; auto. exfalso.
  apply is_blank_iff in E. rewrite (lstrip_all _ _ E) in H. discriminate.
Qed.

Lemma comment_or_blank_false (v : bytes) :
  comment_or_blank v = false -> is_comment v = false /\ is_blank v = false.
Proof. unfold comment_or_blank. apply orb_false_iff. Qed.

Lemma lstrip_nil_all (p : byte -> bool) (s : bytes) :
  lstrip_with p s = [] -> forallb p s = true.
Proof.
  induction s as [|c s IH]; simpl; auto.
  destruct (p c); [auto | discriminate].
Qed.

Lemma lstrip_app_keep (p : byte -> bool) (s t : bytes) :
  lstrip_with p s <> [] -> lstrip_with p (s ++ t) = lstrip_with p s ++ t.
Proof.
  induction s as [|c s IH]; simpl; [contradiction|].
  destruct (p c); auto.
Qed.

Lemma forallb_weaken (p q : byte -> bool) (s : bytes) :
  (forall c, p c = true -> q c = true) ->
  forallb p s = true -> forallb q s = true.
Proof.
  intros Hpq. induction s as [|c s IH]; simpl; auto.
  intros H. apply andb_true_iff in H as [Hc Hs].
  now rewrite (Hpq _ Hc), IH.
Qed.

Lemma forallb_rev (p : byte -> bool) (s : bytes) :
  forallb p (rev s) = forallb p s.
Proof.
  induction s as [|c s IH]; simpl; auto.
  rewrite forallb_app, IH. simpl. rewrite andb_true_r. apply andb_comm.
Qed.

(** Whether a value is finished is decided by its last line, as soon as
    that line is not blank. *)
Lemma is_complete_app (a l : bytes) (cs cs' : list bytes) :
  is_blank l = false ->
  is_complete {| value := Some (a ++ l); comments := cs |}
  = is_complete {| value := Some l; comments := cs' |}.
Proof.
  intros Hl. unfold is_complete. cbn [value]. f_equal.
  set (q := fun c => Byte.eqb c x0d || Byte.eqb c x0a).
  assert (Hne : lstrip_with q (rev l) <> []).
  { intros E. apply lstrip_nil_all in E. rewrite forallb_rev in E.
    assert (Hs : is_blank l = true).
    { apply is_blank_iff. revert E. apply forallb_weaken.
      intros c Hc. unfold q in Hc.
      apply orb_true_iff in Hc as [Hc|Hc]; apply byte_dec_bl in Hc;
        now subst c. }
    congruence. }
  unfold rstrip_with, endswith.
  rewrite rev_app_distr, (lstrip_app_keep _ _ _ Hne), !rev_involutive.
  destruct (lstrip_with q (rev l)) as [|d r]; [contradiction|].
  reflexivity.
Qed.

(** A line that is neither comment nor blank goes to the value of the entry
    that is still open. *)
Lemma scan_line_cont (P : list Requirement) (acc : bytes)
      (cs : list bytes) (line : bytes) :
  is_complete {| value := Some acc; comments := cs |} = false ->
  comment_or_blank line = false ->
  scan_line (P ++ [{| value := Some acc; comments := cs |}]) line
  = P ++ [{| value := Some (acc ++ line); comments := cs |}].
Proof.
  intros Hacc Hline. apply comment_or_blank_false in Hline as [Hc Hb].
  unfold scan_line. rewrite last_last, Hacc.
  assert (H0 : Nat.eqb (length (P ++ [{| value := Some acc;
                                         comments := cs |}])) 0 = false).
  { apply Nat.eqb_neq. rewrite length_app. simpl. lia. }
  rewrite H0. cbn [orb]. rewrite last_last, removelast_last, Hb, Hc.
  rewrite andb_false_r. reflexivity.
Qed.

Lemma scan_cont_lines (ls : list bytes) :
  forall (P : list Requirement) (acc : bytes) (cs : list bytes),
    is_complete {| value := Some acc; comments := cs |} = false ->
    forallb (fun l => negb (comment_or_blank l)) ls = true ->
    forallb continued (removelast ls) = true ->
    fold_left scan_line ls (P ++ [{| value := Some acc; comments := cs |}])
    = P ++ [{| value := Some (acc ++ join ls); comments := cs |}].
Proof.
  induction ls as [|l ls IH]; intros P acc cs Hacc Hls Hcont.
  - unfold join. simpl. now rewrite app_nil_r.
  - cbn [forallb] in Hls. apply andb_true_iff in Hls as [Hl Hls].
    apply negb_true_iff in Hl.
    cbn [fold_left]. rewrite (@scan_line_cont P acc cs l Hacc Hl).
    destruct ls as [|l' ls].
    + unfold join. simpl. now rewrite app_nil_r.
    + change (removelast (l :: l' :: ls)) with (l :: removelast (l' :: ls))
        in Hcont.
      cbn [forallb] in Hcont. apply andb_true_iff in Hcont as [Hlc Hcont].
      rewrite IH; auto.
      * unfold join. cbn [concat]. now rewrite <- app_assoc.
      * apply comment_or_blank_false in Hl as [_ Hb].
        etransitivity; [apply (@is_complete_app acc l cs [] Hb)|].
        unfold continued in Hlc. now apply negb_true_iff in Hlc.
Qed.

(** The lines of a value, scanned once its first line opened the value. *)
Lemma scan_value_lines (P : list Requirement) (cs : list bytes)
      (l : bytes) (ls : list bytes) :
  forallb (fun l => negb (comment_or_blank l)) (l :: ls) = true ->
  forallb continued (removelast (l :: ls)) = true ->
  fold_left scan_line ls (P ++ [{| value := Some l; comments := cs |}])
  = P ++ [{| value := Some (join (l :: ls)); comments := cs |}].
Proof.
  intros Hls Hcont. destruct ls as [|l' ls].
  - unfold join. simpl. now rewrite app_nil_r.
  - change (removelast (l :: l' :: ls)) with (l :: removelast (l' :: ls))
      in Hcont.
    cbn [forallb] in Hls, Hcont.
    apply andb_true_iff in Hls as [_ Hls].
    apply andb_true_iff in Hcont as [Hl Hcont].
    rewrite scan_cont_lines; auto.
    unfold continued in Hl. apply negb_true_iff in Hl.
    unfold is_complete in *. exact Hl.
Qed.

Lemma value_ok_inv (v : bytes) :
  value_ok v = true ->
  v <> [] /\
  exists l ls,
    readlines v = l :: ls /\
    forallb (fun l => negb (comment_or_blank l)) (l :: ls) = true /\
    forallb continued (removelast (l :: ls)) = true /\
    continued (last (l :: ls) []) = false.
Proof.
  unfold value_ok. intros H.
  apply andb_true_iff in H as [H H4]. apply andb_true_iff in H as [H H3].
  apply andb_true_iff in H as [H1 H2].
  apply negb_true_iff in H1, H4. apply bytes_eqb_neq in H1.
  split; auto.
  destruct (readlines v) as [|l ls] eqn:E.
  - exfalso. apply H1. rewrite <- (join_readlines v), E. reflexivity.
  - exists l, ls. auto.
Qed.

Lemma value_ok_complete (v : bytes) (cs : list bytes) :
  value_ok v = true ->
  is_complete {| value := Some v; comments := cs |} = true.
Proof.
  intros H. apply value_ok_inv in H as (_ & l & ls & E & Hls & _ & Hlast).
  assert (Hne : l :: ls <> []) by discriminate.
  rewrite <- (join_readlines v), E.
  rewrite (app_removelast_last [] Hne) in Hls |- *.
  rewrite forallb_app in Hls. apply andb_true_iff in Hls as [_ Hl].
  cbn [forallb] in Hl. rewrite andb_true_r in Hl.
  apply negb_true_iff, comment_or_blank_false in Hl as [_ Hb].
  rewrite join_app. unfold join at 2. cbn [concat]. rewrite app_nil_r.
  etransitivity; [apply (@is_complete_app _ _ cs [] Hb)|].
  unfold continued in Hlast. now apply negb_false_iff in Hlast.
Qed.

Lemma first_comments (cs : list bytes) :
  forall c0,
    forallb is_comment cs = true ->
    fold_left scan_line cs [{| value := None; comments := c0 |}]
    = [{| value := None; comments := c0 ++ cs |}].
Proof.
  induction cs as [|c cs IH]; intros c0 H; simpl.
  - now rewrite app_nil_r.
  - simpl in H. apply andb_true_iff in H as [Hc Hcs].
    rewrite scan_line_first, (is_comment_not_blank _ Hc), Hc, IH; auto.
    now rewrite <- app_assoc.
Qed.

Lemma fold_from_nil (L : list bytes) :
  L <> [] ->
  fold_left scan_line L [] = fold_left scan_line L [new_requirement].
Proof. destruct L as [|l L]; [contradiction | reflexivity]. Qed.

Lemma scan_first_entry (e : Requirement) :
  first_entry e -> fold_left scan_line (phys_lines e) [] = [e].
Proof.
  intros [Hcs Hshape]. destruct e as [val cs].
  cbn [value comments] in *.
  unfold phys_lines. cbn [value comments].
  destruct Hshape as [(v & -> & Hv)|(-> & Hne & Hhash)].
  - apply value_ok_inv in Hv as (_ & l & ls & E & Hls & Hcont & _).
    rewrite E.
    rewrite fold_from_nil by (destruct cs; discriminate).
    rewrite fold_left_app. unfold new_requirement.
    rewrite first_comments; auto. cbn [app fold_left].
    pose proof Hls as Hl. cbn [forallb] in Hl.
    apply andb_true_iff in Hl as [Hl _].
    apply negb_true_iff, comment_or_blank_false in Hl as [Hc Hb].
    rewrite scan_line_first, Hb, Hc.
    pose proof (@scan_value_lines [] cs l ls Hls Hcont) as Hval.
    cbn [app] in Hval. rewrite Hval.
    now rewrite <- E, join_readlines.
  - change (readlines marker) with [marker].
    rewrite fold_from_nil by (destruct cs; discriminate).
    rewrite fold_left_app. unfold new_requirement.
    rewrite first_comments; auto. cbn [app fold_left].
    rewrite scan_line_first. change (is_blank marker) with true.
    rewrite Hhash. destruct cs; [contradiction | reflexivity].
Qed.

Lemma fold_block (S : list Requirement) (e : Requirement) :
  S <> [] -> is_complete (last S new_requirement) = true ->
  plain_entry e ->
  fold_left scan_line (phys_lines e) S = S ++ [e].
Proof.
  intros HS Hlast (v & Hval & Hv & Hcs).
  destruct e as [val cs]. cbn [value comments] in *. subst val.
  unfold phys_lines. cbn [value comments].
  apply value_ok_inv in Hv as (_ & l & ls & E & Hls & Hcont & _).
  rewrite E, fold_left_app. cbn [fold_left].
  pose proof Hls as Hl. cbn [forallb] in Hl.
  apply andb_true_iff in Hl as [Hl _]. apply negb_true_iff in Hl.
  assert (Hopen : scan_line (fold_left scan_line cs S) l
                  = S ++ [{| value := Some l; comments := cs |}]).
  { destruct cs as [|c cs]; cbn [fold_left].
    - now rewrite (@scan_line_fresh S l HS Hlast), Hl.
    - cbn [forallb] in Hcs. apply andb_true_iff in Hcs as [Hc Hcs].
      rewrite (@scan_line_fresh S c HS Hlast), Hc.
      rewrite (@scan_comment_lines cs S [c] HS Hcs).
      now rewrite (@scan_line_open S ([c] ++ cs) l HS), Hl. }
  rewrite Hopen, (@scan_value_lines S cs l ls Hls Hcont).
  now rewrite <- E, join_readlines.
Qed.

Lemma fold_blocks (es : list Requirement) :
  forall S,
    S <> [] -> is_complete (last S new_requirement) = true ->
    Forall plain_entry es ->
    fold_left scan_line (flat_map phys_lines es) S = S ++ es.
Proof.
  induction es as [|e es IH]; intros S HS Hlast Hes; simpl.
  - now rewrite app_nil_r.
  - apply Forall_cons_iff in Hes as [He Hes].
    rewrite fold_left_app, (@fold_block S e HS Hlast He), IH; auto.
    + now rewrite <- app_assoc.
    + destruct S; discriminate.
    + rewrite last_last. destruct He as (v & Hval & Hv & _).
      destruct e as [val cs]. cbn [value] in Hval. subst val.
      now apply value_ok_complete.
Qed.

Lemma fold_tail (tail : list bytes) (S : list Requirement) :
  S <> [] -> is_complete (last S new_requirement) = true ->
  forallb comment_or_blank tail = true ->
  fold_left scan_line tail S = S ++ tail_entry tail.
Proof.
  intros HS Hlast Ht. destruct tail as [|c t]; simpl.
  - now rewrite app_nil_r.
  - simpl in Ht. apply andb_true_iff in Ht as [Hc Ht].
    rewrite (@scan_line_fresh S c HS Hlast), Hc.
    now rewrite (@scan_comment_lines t S [c] HS Ht).
Qed.

Lemma first_entry_complete (e : Requirement) :
  first_entry e -> is_complete e = true.
Proof.
  intros [_ [(v & Hval & Hv)|(H & _)]].
  - destruct e as [val cs]. cbn [value] in Hval. subst val.
    now apply value_ok_complete.
  - unfold is_complete. now rewrite H.
Qed.

Lemma last_cons_complete (e0 : Requirement) (es : list Requirement) :
  first_entry e0 -> Forall plain_entry es ->
  is_complete (last (e0 :: es) new_requirement) = true.
Proof.
  intros H0 Hes.
  destruct (@exists_last _ (e0 :: es)) as (l & a & Hl); [discriminate|].
  rewrite Hl, last_last.
  assert (Ha : In a (e0 :: es)) by (rewrite Hl; apply in_or_app; right; now left).
  destruct Ha as [<-|Ha]; [now apply first_entry_complete|].
  rewrite Forall_forall in Hes. destruct (Hes _ Ha) as (v & Hval & Hv & _).
  destruct a as [val cs]. cbn [value] in Hval. subst val.
  now apply value_ok_complete.
Qed.

Lemma scan_phys_lines
      (e0 : Requirement) (es : list Requirement) (tail : list bytes) :
  first_entry e0 -> Forall plain_entry es ->
  forallb comment_or_blank tail = true ->
  scan (flat_map phys_lines (e0 :: es) ++ tail)
  = (e0 :: es) ++ tail_entry tail.
Proof.
  intros H0 Hes Ht. unfold scan. simpl flat_map.
  rewrite !fold_left_app, (scan_first_entry H0).
  rewrite fold_blocks; auto; [|discriminate|now apply first_entry_complete].
  simpl app. apply fold_tail; auto; [discriminate|].
  now apply last_cons_complete.
Qed.

(** Round trip: the physical lines of a first entry, of plain entries and
    of a comment tail are scanned back into exactly these entries, the tail
    in an entry of its own. *)
Theorem scan_serialised
        (e0 : Requirement) (es : list Requirement) (tail : list bytes) :
  first_entry e0 -> Forall plain_entry es ->
  forallb comment_or_blank tail = true ->
  scan (flat_map phys_lines (e0 :: es) ++ tail)
  = (e0 :: es) ++ tail_entry tail.
Proof.
  intros H0 Hes Ht. unfold scan. cbn [flat_map].
  rewrite !fold_left_app, (scan_first_entry H0).
  rewrite (@fold_blocks es [e0]); auto;
    [|discriminate|now apply first_entry_complete].
  apply fold_tail; auto; [discriminate|].
  now apply last_cons_complete.
Qed.

Lemma scan_serialised_witness :
  scan (flat_map phys_lines
          [ {| value := Some marker; comments := [b "#top\n"] |};
            {| value := Some (b "bar \\\n --hash=sha256:abcd\n");
               comments := [b "\n"; b "# b\n"] |} ]
        ++ [b "# end\n"])
  = [ {| value := Some marker; comments := [b "#top\n"] |};
      {| value := Some (b "bar \\\n --hash=sha256:abcd\n");
         comments := [b "\n"; b "# b\n"] |} ]
    ++ tail_entry [b "# end\n"].
Proof.
  apply (@scan_serialised
           {| value := Some marker; comments := [b "#top\n"] |}
           [ {| value := Some (b "bar \\\n --hash=sha256:abcd\n");
                comments := [b "\n"; b "# b\n"] |} ]
           [b "# end\n"]).
  - split; [reflexivity|]. right.
    repeat split; first [reflexivity | discriminate].
  - constructor; [|constructor].
    exists (b "bar \\\n --hash=sha256:abcd\n"). repeat split; reflexivity.
  - reflexivity.
Defined.

(** ** A file that is already in order *)

Lemma add_newline_terminated (L : list bytes) :
  Forall terminated L -> add_newline L = L.
Proof.
  intros H. destruct L as [|l L]; auto. unfold add_newline.
  destruct (@exists_last _ (l :: L)) as (L' & a & E); [discriminate|].
  rewrite E, last_last. rewrite E in H.
  apply Forall_app in H as [_ H].
  apply Forall_cons_iff in H as [(body & -> & _) _].
  now rewrite endswith_newline.
Qed.

Lemma sorted_ascending (l : list Requirement) :
  ascending l -> sorted l = Ok l.
Proof.
  induction l as [|x t IH]; intros H; auto.
  cbn [sorted]. rewrite IH by (destruct t; [exact I | apply H]).
  cbn [bind]. destruct t as [|y t]; auto.
  cbn [insert]. destruct H as [-> _]. reflexivity.
Qed.

Lemma drop_blacklisted_none (l : list Requirement) :
  Forall (fun e => value e <> Some blacklisted) l ->
  drop_blacklisted l = l.
Proof.
  unfold drop_blacklisted. induction 1 as [|e l He _ IH]; auto.
  cbn [filter]. rewrite IH. unfold value_is.
  destruct (value e) as [w|]; auto.
  destruct (bytes_eqb w blacklisted) eqn:E; auto.
  apply bytes_eqb_eq in E. now subst w.
Qed.

Lemma split_rest_tail (l : list Requirement) (tail : list bytes) :
  (exists v, value (last l new_requirement) = Some v) ->
  split_rest (l ++ tail_entry tail) = (l, tail).
Proof.
  intros (v & Hv). unfold split_rest. destruct tail as [|c t].
  - cbn [tail_entry]. rewrite app_nil_r, Hv. reflexivity.
  - cbn [tail_entry]. rewrite last_last, removelast_last. reflexivity.
Qed.

Lemma entry_has_value (e0 : Requirement) (es : list Requirement) :
  first_entry e0 -> Forall plain_entry es ->
  Forall (fun r => exists v, value r = Some v /\ v <> []) (e0 :: es).
Proof.
  intros H0 Hes. constructor.
  - destruct H0 as [_ [(v & Hv & Hok)|(Hv & _)]].
    + exists v. split; auto. now apply value_ok_inv in Hok as [Hne _].
    + exists marker. split; auto. discriminate.
  - eapply Forall_impl; [|exact Hes].
    intros e (v & Hv & Hok & _). exists v. split; auto.
    now apply value_ok_inv in Hok as [Hne _].
Qed.

(** Fixed point: a file made of the lines of a first entry, of plain
    entries, none of them the blacklisted line and none less than the one
    before it, and of a tail of comment lines, every line ending in its
    newline, passes and is left as it is. *)
Theorem normal_file_passes
        (e0 : Requirement) (es : list Requirement) (tail : list bytes) :
  first_entry e0 -> Forall plain_entry es ->
  forallb comment_or_blank tail = true ->
  Forall terminated (flat_map phys_lines (e0 :: es) ++ tail) ->
  Forall (fun e => value e <> Some blacklisted) (e0 :: es) ->
  ascending (e0 :: es) ->
  fix_requirements (join (flat_map phys_lines (e0 :: es) ++ tail)) false
  = Ok (PASS, []).
Proof.
  intros H0 Hes Ht Hterm Hbl Hasc.
  set (L := flat_map phys_lines (e0 :: es) ++ tail) in *.
  destruct (is_blank (join L)) eqn:Hblank;
    [now apply fix_requirements_blank|].
  assert (Hlines : lines_of (join L) = L).
  { unfold lines_of. rewrite readlines_join by exact Hterm.
    now apply add_newline_terminated. }
  pose proof (entry_has_value H0 Hes) as Hval.
  assert (Hcorr : corrected L false = Ok (join L, [])).
  { unfold corrected. unfold L at 1. rewrite scan_phys_lines by assumption.
    rewrite split_rest_tail.
    - rewrite (drop_blacklisted_none Hbl), (sorted_ascending _ Hasc).
      cbn [bind].
      assert (Hd : false = true -> Forall decodes (e0 :: es))
        by discriminate.
      destruct (@emit_returns false (e0 :: es) Hval Hd ([], []))
        as ([after m] & He).
      rewrite He. cbn [bind].
      pose proof (emit_after _ _ _ _ He) as Ha.
      pose proof (emit_no_report _ _ _ He) as Hm.
      cbn [app] in Ha. subst after m.
      unfold L. now rewrite !join_app, join_flat_map_phys.
    - rewrite Forall_forall in Hval.
      destruct (@exists_last _ (e0 :: es)) as (l & a & Hl); [discriminate|].
      rewrite Hl, last_last.
      destruct (Hval a) as (v & Ha & _);
        [rewrite Hl; apply in_or_app; right; now left|].
      now exists v. }
  assert (Hcorr' : corrected (lines_of (join L)) false = Ok (join L, []))
    by now rewrite Hlines.
  destruct (@fix_requirements_returns (join L) false (join L) [] Hblank Hcorr')
    as (ret & evs & Hrun).
  rewrite Hrun.
  apply fix_requirements_inv in Hrun
    as [(Hb & _)|(_ & after & missing & Hc & Hevs & Hret)];
    [congruence|].
  rewrite Hcorr' in Hc. injection Hc as <- <-.
  rewrite bytes_eqb_refl in Hevs, Hret. now subst.
Qed.

Lemma terminated_lines (L : list bytes) :
  forallb terminatedb L = true -> Forall terminated L.
Proof.
  intros H. apply Forall_forall. intros l Hl.
  rewrite forallb_forall in H. specialize (H l Hl).
  unfold terminatedb in H. destruct (rev l) as [|c r] eqn:E; [discriminate|].
  apply andb_true_iff in H as [Hc Hr]. apply byte_dec_bl in Hc. subst c.
  exists (rev r). split.
  - rewrite <- (rev_involutive l), E. reflexivity.
  - intros Hin. apply in_rev in Hin. apply negb_true_iff in Hr.
    assert (Hex : existsb (Byte.eqb x0a) r = true).
    { apply existsb_exists. exists x0a. split; [exact Hin|].
      apply byte_dec_lb. reflexivity. }
    congruence.
Qed.

Lemma normal_file_passes_witness :
  fix_requirements
    (join (flat_map phys_lines
             [ {| value := Some marker; comments := [b "#top\n"] |};
               {| value := Some (b "bar\n"); comments := [b "\n"; b "# b\n"] |};
               {| value := Some (b "foo \\\n  --hash=sha256:abcd\n");
                  comments := [] |} ]
           ++ [b "# end\n"])) false
  = Ok (PASS, []).
Proof.
  apply (@normal_file_passes
           {| value := Some marker; comments := [b "#top\n"] |}
           [ {| value := Some (b "bar\n"); comments := [b "\n"; b "# b\n"] |};
             {| value := Some (b "foo \\\n  --hash=sha256:abcd\n");
                comments := [] |} ]
           [b "# end\n"]).
  - split; [by_run|]. right.
    repeat split; first [by_run | discriminate].
  - constructor; [|constructor; [|constructor]].
    + exists (b "bar\n"). repeat split; by_run.
    + exists (b "foo \\\n  --hash=sha256:abcd\n"). repeat split; by_run.
  - by_run.
  - apply terminated_lines. by_run.
  - repeat constructor; discriminate.
  - repeat split; by_run.
Defined.

(** ** A path that names no file *)

Lemma main_loop_after (l1 l2 : list str) (rv : bool) :
  forall (w w1 : World) (retv r1 : nat),
    main_loop l1 rv w retv = (w1, Ok r1) ->
    main_loop (l1 ++ l2) rv w retv = main_loop l2 rv w1 r1.
Proof.
  induction l1 as [|arg l1 IH]; intros w w1 retv r1 H; simpl in *.
  - now injection H as <- <-.
  - destruct (main_file arg rv w) as [w' [r|e]]; [|discriminate].
    now apply IH.
Qed.

(** [open(arg, 'rb+')] on a path that names no file raises
    [FileNotFoundError] and ends the run: the files named before it are left
    as their own run fixed them, the ones named after it are not opened. *)
Theorem missing_file_aborts
        (l1 l2 : list str) (arg : str) (rv : bool) (w w1 : World) (r1 : nat) :
  files w arg = None ->
  main l1 rv w = (w1, Ok r1) ->
  main (l1 ++ arg :: l2) rv w = (w1, Raise FileNotFoundError).
Proof.
  unfold main. intros Hnone H1.
  rewrite (@main_loop_after l1 (arg :: l2) rv w w1 PASS r1 H1).
  destruct (@main_loop_files l1 rv w w1 PASS (Ok r1) H1 arg) as [Hn _].
  cbn [main_loop]. unfold main_file.
  now rewrite (proj2 Hn Hnone).
Qed.

Lemma missing_file_aborts_witness :
  main ([req_txt] ++ u "missing.txt" :: [req_txt]) false world_before
  = (fst (main [req_txt] false world_before), Raise FileNotFoundError).
Proof.
  apply (@missing_file_aborts [req_txt] [req_txt] (u "missing.txt") false
           world_before (fst (main [req_txt] false world_before)) FAIL);
    vm_compute; reflexivity.
Defined.

(** ** The flag and the file *)

Lemma file_ops_run (missing : list str) (f after : bytes) :
  file_ops ((if Nat.ltb 0 (length missing)
             then [Print (missing_message missing)] else []) ++
            (if bytes_eqb f after then []
             else [Seek 0; Write after; Truncate]))
  = if bytes_eqb f after then [] else [Seek 0; Write after; Truncate].
Proof.
  unfold file_ops.
  destruct (Nat.ltb 0 (length missing)), (bytes_eqb f after); reflexivity.
Qed.

(** [require_version] changes what is printed and, at most, PASS into FAIL:
    with and without the flag the same bytes are written to the file, or
    none, and a run that fails without the flag fails with it. *)
Theorem flag_leaves_output
        (f : bytes) (ret ret' : nat) (evs evs' : list event) :
  fix_requirements f false = Ok (ret, evs) ->
  fix_requirements f true = Ok (ret', evs') ->
  file_ops evs' = file_ops evs /\
  content_after f evs' = content_after f evs /\
  (ret = FAIL -> ret' = FAIL).
Proof.
  intros H H'.
  pose proof H as Hi. pose proof H' as Hi'.
  apply fix_requirements_inv in Hi
    as [(Hb & -> & ->)|(Hb & after & missing & Hc & Hevs & Hret)];
    apply fix_requirements_inv in Hi'
      as [(Hb' & -> & ->)|(Hb' & after' & missing' & Hc' & Hevs' & Hret')];
    try congruence.
  - repeat split. discriminate.
  - destruct (run_entries _ _ H Hb) as (out & m & He & _ & _ & Hcont).
    destruct (run_entries _ _ H' Hb) as (out' & m' & He' & _ & _ & Hcont').
    rewrite He in He'. injection He' as <-.
    pose proof (corrected_no_report _ Hc) as Hm.
    apply corrected_inv in Hc as (o & Ho & _ & Ha).
    apply corrected_inv in Hc' as (o' & Ho' & _ & Ha').
    rewrite He in Ho, Ho'. injection Ho as <-. injection Ho' as <-.
    subst after after'.
    split; [|split].
    + subst evs evs'. now rewrite !file_ops_run.
    + congruence.
    + subst ret ret' missing.
      destruct (bytes_eqb f _); auto. discriminate.
Qed.

Lemma flag_leaves_output_witness :
  file_ops [Print (missing_message [u "a"; u "b"]);
            Seek 0; Write (b "a\nb\n"); Truncate]
  = file_ops [Seek 0; Write (b "a\nb\n"); Truncate] /\
  content_after (b "b\na\n")
    [Print (missing_message [u "a"; u "b"]);
     Seek 0; Write (b "a\nb\n"); Truncate]
  = content_after (b "b\na\n") [Seek 0; Write (b "a\nb\n"); Truncate] /\
  (FAIL = FAIL -> FAIL = FAIL).
Proof.
  apply (@flag_leaves_output (b "b\na\n") FAIL FAIL
           [Seek 0; Write (b "a\nb\n"); Truncate]
           [Print (missing_message [u "a"; u "b"]);
            Seek 0; Write (b "a\nb\n"); Truncate]); by_run.
Defined.

(** ** A block of the file and the entry it belongs to *)

Lemma first_block (cs : list bytes) :
  forall c0,
    forallb comment_or_blank cs = true ->
    startswith (b "#") (hd [] (c0 ++ cs)) = false \/
    forallb is_comment cs = true ->
    fold_left scan_line cs [{| value := None; comments := c0 |}]
    = [{| value := None; comments := c0 ++ cs |}].
Proof.
  induction cs as [|c cs IH]; intros c0 Hcs Hh.
  - simpl. now rewrite app_nil_r.
  - cbn [forallb] in Hcs. apply andb_true_iff in Hcs as [Hc Hcs].
    cbn [fold_left]. rewrite scan_line_first.
    assert (Hstep :
      (if is_blank c
       then if Nat.ltb 0 (length c0) && startswith (b "#") (hd [] c0)
            then {| value := Some marker; comments := c0 |}
            else {| value := None; comments := c0 ++ [c] |}
       else if is_comment c
            then {| value := None; comments := c0 ++ [c] |}
            else {| value := Some c; comments := c0 |})
      = {| value := None; comments := c0 ++ [c] |}).
    { destruct (is_blank c) eqn:Hb.
      - destruct Hh as [Hh|Hh].
        + destruct c0 as [|d c0]; [reflexivity|].
          cbn [app hd] in Hh. cbn [hd]. rewrite Hh.
          now rewrite andb_false_r.
        + cbn [forallb] in Hh. apply andb_true_iff in Hh as [Hh _].
          apply is_comment_not_blank in Hh. congruence.
      - unfold comment_or_blank in Hc. rewrite Hb, orb_false_r in Hc.
        now rewrite Hc. }
    rewrite Hstep, IH; auto.
    + now rewrite <- app_assoc.
    + rewrite <- app_assoc. cbn [app].
      destruct Hh as [Hh|Hh]; [now left | right].
      cbn [forallb] in Hh. now apply andb_true_iff in Hh as [_ Hh].
Qed.

Lemma complete_not_nil (S : list Requirement) :
  is_complete (last S new_requirement) = true -> S <> [].
Proof. intros H ->. discriminate. Qed.

(** The scan makes one entry of a block and of the lines of the requirement
    behind it. *)
Lemma block_scanned (L1 cs : list bytes) (v : bytes) :
  block_start L1 cs -> value_ok v = true ->
  scan (L1 ++ cs ++ readlines v)
  = scan L1 ++ [{| value := Some v; comments := cs |}].
Proof.
  intros [[-> Ho]|[Hlast Hcs]] Hv.
  - cbn [app]. change (scan []) with (@nil Requirement). cbn [app].
    unfold opens_file in Ho. apply andb_true_iff in Ho as [Hcs Hh].
    destruct (@value_ok_inv v Hv) as (_ & l & ls & E & Hls & Hcont & _).
    rewrite E. unfold scan.
    rewrite fold_from_nil by (destruct cs; discriminate).
    rewrite fold_left_app. unfold new_requirement.
    rewrite (@first_block cs [] Hcs).
    2:{ cbn [app]. apply orb_true_iff in Hh as [Hh|Hh]; [left | now right].
        now apply negb_true_iff in Hh. }
    cbn [app fold_left].
    pose proof Hls as Hl. cbn [forallb] in Hl.
    apply andb_true_iff in Hl as [Hl _].
    apply negb_true_iff, comment_or_blank_false in Hl as [Hc Hb].
    rewrite scan_line_first, Hb, Hc.
    pose proof (@scan_value_lines [] cs l ls Hls Hcont) as Hval.
    cbn [app] in Hval. rewrite Hval.
    now rewrite <- E, join_readlines.
  - rewrite scan_app.
    change (cs ++ readlines v)
      with (phys_lines {| value := Some v; comments := cs |}).
    apply fold_block; auto.
    + now apply complete_not_nil.
    + exists v. auto.
Qed.

Lemma block_entry (L1 cs : list bytes) (v : bytes) (L2 : list bytes) :
  block_start L1 cs -> value_ok v = true ->
  exists post,
    scan (L1 ++ cs ++ readlines v ++ L2)
    = scan L1 ++ {| value := Some v; comments := cs |} :: post.
Proof.
  intros Hstart Hv.
  replace (L1 ++ cs ++ readlines v ++ L2)
    with ((L1 ++ cs ++ readlines v) ++ L2)
    by (now rewrite <- !app_assoc).
  rewrite scan_app, (@block_scanned L1 cs v Hstart Hv).
  apply (scan_lines_keep L2 (scan L1) []).
  now apply value_ok_complete.
Qed.

(** *** Every entry with the blacklisted value comes from such a block *)

Lemma blank_no_hash (l : bytes) :
  is_blank l = true -> startswith (b "#") l = false.
Proof.
  intros H. apply is_blank_iff in H. destruct l as [|d l]; auto.
  cbn [forallb] in H. apply andb_true_iff in H as [H _].
  destruct d; try discriminate; reflexivity.
Qed.

Lemma scan_nil_inv (L : list bytes) : scan L = [] -> L = [].
Proof.
  destruct L as [|line L] using rev_ind; auto.
  rewrite scan_app. cbn [fold_left]. intros H.
  destruct (scan_line_spec (scan L) line) as (pre & cur & cur' & _ & E & _).
  rewrite E in H. destruct pre; discriminate.
Qed.

Lemma incomplete_has_backslash (w : bytes) (cs : list bytes) :
  is_complete {| value := Some w; comments := cs |} = false -> In x5c w.
Proof.
  unfold is_complete, rstrip_with, endswith. cbn [value].
  intros H. apply negb_false_iff in H. rewrite rev_involutive in H.
  set (q := fun c => Byte.eqb c x0d || Byte.eqb c x0a) in *.
  destruct (lstrip_split q (rev w)) as (pre & Hs & _).
  apply in_rev. rewrite Hs. apply in_or_app. right.
  destruct (lstrip_with q (rev w)) as [|d r]; [discriminate|].
  cbn [rev b] in H. simpl in H.
  apply andb_true_iff in H as [H _]. apply byte_dec_bl in H. subst d.
  now left.
Qed.

Lemma opens_file_snoc (cs0 : list bytes) (line : bytes) :
  opens_file cs0 = true ->
  comment_or_blank line = true ->
  (is_blank line = true ->
   Nat.ltb 0 (length cs0) && startswith (b "#") (hd [] cs0) = false) ->
  opens_file (cs0 ++ [line]) = true.
Proof.
  unfold opens_file. intros Ho Hline Hcond.
  apply andb_true_iff in Ho as [Hcs Hh].
  rewrite forallb_app, Hcs. cbn [forallb]. rewrite Hline. cbn [andb].
  destruct (is_blank line) eqn:Hb.
  - specialize (Hcond eq_refl). destruct cs0 as [|c cs0].
    + cbn [app hd]. now rewrite (blank_no_hash _ Hb).
    + cbn [app hd]. cbn [length hd] in Hcond.
      change (Nat.ltb 0 (S (length cs0))) with true in Hcond.
      cbn [andb] in Hcond. now rewrite Hcond.
  - unfold comment_or_blank in Hline. rewrite Hb, orb_false_r in Hline.
    apply orb_true_iff in Hh as [Hh|Hh].
    + destruct cs0 as [|c cs0].
      * cbn [app forallb]. rewrite Hline. apply orb_true_r.
      * cbn [app hd]. cbn [hd] in Hh. now rewrite Hh.
    + rewrite forallb_app, Hh. cbn [forallb]. rewrite Hline.
      apply orb_true_r.
Qed.

(** What the scan knows of the file: an entry with the value
    [pkg-resources==0.0.0] has for comments the whole block in front of that
    line, and an entry still without a value holds the block the file ends
    with. *)
Lemma scan_blocks (L : list bytes) :
  (forall cs,
      In {| value := Some blacklisted; comments := cs |} (scan L) ->
      exists L1 L2, L = L1 ++ cs ++ blacklisted :: L2 /\ block_start L1 cs) /\
  (forall cs,
      scan L <> [] ->
      last (scan L) new_requirement = {| value := None; comments := cs |} ->
      exists L1, L = L1 ++ cs /\ block_start L1 cs).
Proof.
  induction L as [|line L [IHa IHb]] using rev_ind.
  - split; [intros cs [] | intros cs Hne; now destruct Hne].
  - rewrite scan_app. cbn [fold_left].
    destruct (scan_line_spec (scan L) line)
      as (pre & cur & cur' & Hshape & Heq & Hcur').
    assert (Hpre : incl pre (scan L)).
    { destruct Hshape as [[-> _]|(-> & _)];
        [apply incl_appl | idtac]; apply incl_refl. }
    assert (Hold : forall cs,
               In {| value := Some blacklisted; comments := cs |} pre ->
               exists L1 L2,
                 L ++ [line] = L1 ++ cs ++ blacklisted :: L2 /\
                 block_start L1 cs).
    { intros cs Hin. destruct (IHa cs (Hpre _ Hin)) as (L1 & L2 & -> & Hs).
      exists L1, (L2 ++ [line]). split; auto.
      now rewrite <- !app_assoc. }
    (* an entry without a value holds the block the lines end with *)
    assert (Hopen : value cur = None ->
               exists L1,
                 L = L1 ++ comments cur /\ block_start L1 (comments cur) /\
                 (L1 = [] ->
                  scan_line (scan L) line
                  = scan_line [{| value := None;
                                  comments := comments cur |}] line)).
    { intros Hv. destruct Hshape as [[Hs Hc]|(Hs & -> & Hp)].
      - destruct cur as [val cs0]. cbn [value comments] in *. subst val.
        destruct (IHb cs0) as (L1 & HL & Hstart).
        + rewrite Hs. destruct pre; discriminate.
        + rewrite Hs. apply last_last.
        + exists L1. repeat split; auto. intros ->.
          destruct Hstart as [[_ Ho]|[Hlast _]]; [|discriminate].
          cbn [app] in HL. subst L.
          destruct cs0 as [|c cs0];
            [destruct pre; discriminate Hs|].
          unfold opens_file in Ho. apply andb_true_iff in Ho as [Hcs Hh].
          unfold scan.
          rewrite fold_from_nil by discriminate.
          unfold new_requirement.
          rewrite (@first_block (c :: cs0) [] Hcs); [reflexivity|].
          cbn [app]. apply orb_true_iff in Hh as [Hh|Hh]; [left | now right].
          now apply negb_true_iff in Hh.
      - exists L. cbn [comments new_requirement]. rewrite app_nil_r.
        split; auto. split.
        + destruct Hp as [Hp|Hp].
          * left. split; [|reflexivity]. apply scan_nil_inv.
            now rewrite Hs, Hp.
          * right. split; [|reflexivity]. now rewrite Hs.
        + intros ->. reflexivity. }
    rewrite Heq. split.
    + (* entries with the blacklisted value *)
      intros cs Hin. apply in_app_or in Hin as [Hin|[Hin|[]]]; auto.
      destruct (value cur) as [w|] eqn:Ew.
      * (* the entry had a value: it was not finished *)
        exfalso.
        assert (Hinc : is_complete cur = false).
        { destruct Hshape as [[_ Hc]|(_ & -> & _)]; [exact Hc | reflexivity]. }
        destruct cur as [val cs1]. cbn [value] in Ew. subst val.
        destruct Hcur' as [(_ & _ & -> & _)|[(-> & _)|(-> & _)]].
        -- discriminate.
        -- unfold add_comment in Hin. cbn [value comments] in Hin.
           injection Hin as -> _. discriminate.
        -- unfold append_value in Hin. cbn [value comments] in Hin.
           injection Hin as Hw _.
           apply incomplete_has_backslash in Hinc.
           assert (Hbs : In x5c blacklisted)
             by (rewrite <- Hw; apply in_or_app; now left).
           vm_compute in Hbs.
           repeat (destruct Hbs as [Hbs|Hbs]; [discriminate|]).
           exact Hbs.
      * destruct (Hopen eq_refl) as (L1 & HL & Hstart & _).
        destruct cur as [val cs0]. cbn [value comments] in *. subst val.
        destruct Hcur' as [(_ & _ & -> & _)|[(-> & _)|(-> & _)]].
        -- discriminate.
        -- discriminate.
        -- unfold append_value in Hin. cbn [value comments] in Hin.
           injection Hin as -> ->.
           exists L1, []. split; auto.
           rewrite HL. now rewrite <- app_assoc.
    + (* the entry without a value at the end *)
      intros cs _ Hlast. rewrite last_last in Hlast.
      destruct (value cur) as [w|] eqn:Ew.
      * exfalso. destruct cur as [val cs1]. cbn [value] in Ew. subst val.
        destruct Hcur' as [(_ & _ & -> & _)|[(-> & _)|(-> & _)]];
          discriminate.
      * destruct (Hopen eq_refl) as (L1 & HL & Hstart & Hfirst).
        destruct cur as [val cs0]. cbn [value comments] in *. subst val.
        destruct Hcur' as [(_ & _ & -> & _)|[(-> & Hline)|(-> & _)]];
          try discriminate.
        unfold add_comment in Hlast. cbn [value comments] in Hlast.
        injection Hlast as <-.
        exists L1. split; [rewrite HL; now rewrite <- app_assoc|].
        assert (Hcb : comment_or_blank line = true).
        { unfold comment_or_blank. destruct Hline as [-> | ->];
            [apply orb_true_r | reflexivity]. }
        destruct Hstart as [[-> Ho]|[Hc Hcs]].
        -- left. split; auto. apply opens_file_snoc; auto.
           intros Hb. specialize (Hfirst eq_refl).
           rewrite Heq, scan_line_first, Hb in Hfirst.
           destruct (Nat.ltb 0 (length cs0) &&
                     startswith (b "#") (hd [] cs0)); auto.
           destruct pre; cbn [app] in Hfirst; [|destruct pre; discriminate].
           discriminate.
        -- right. split; auto.
           rewrite forallb_app, Hcs. cbn [forallb]. now rewrite Hcb.
Qed.

(** The entries the filter removes are the blocks of the file in front of a
    line [pkg-resources==0.0.0], and the other way round. *)
Lemma blacklisted_entry_iff_block (L cs : list bytes) :
  In {| value := Some blacklisted; comments := cs |} (scan L) <->
  exists L1 L2, L = L1 ++ cs ++ blacklisted :: L2 /\ block_start L1 cs.
Proof.
  split; [apply scan_blocks|].
  intros (L1 & L2 & -> & Hstart).
  assert (Hv : value_ok blacklisted = true) by reflexivity.
  destruct (@block_entry L1 cs blacklisted L2 Hstart Hv) as (T & Hscan).
  change (readlines blacklisted) with [blacklisted] in Hscan.
  cbn [app] in Hscan. rewrite Hscan. apply in_or_app. right. now left.
Qed.

(** *** A file with a line that is not blank is not blank *)

Lemma forallb_concat (p : byte -> bool) (ls : list bytes) :
  forallb p (concat ls) = forallb (forallb p) ls.
Proof.
  induction ls as [|l ls IH]; simpl; auto.
  now rewrite forallb_app, IH.
Qed.

Lemma blank_file_lines (f : bytes) :
  is_blank f = true ->
  forall l, In l (lines_of f) -> is_blank l = true.
Proof.
  intros Hf. apply is_blank_iff in Hf.
  rewrite <- (join_readlines f) in Hf. unfold join in Hf.
  rewrite forallb_concat, forallb_forall in Hf.
  intros l Hl. apply is_blank_iff.
  unfold lines_of, add_newline in Hl.
  destruct (readlines f) as [|x ls] eqn:E; [destruct Hl|].
  destruct (endswith (b "\n") (last (x :: ls) [])); [now apply Hf|].
  apply in_app_or in Hl as [Hl|[<-|[]]].
  - apply Hf. revert Hl. apply removelast_incl.
  - rewrite forallb_app. cbn [forallb b]. rewrite andb_true_r.
    apply Hf.
    assert (Hne : x :: ls <> []) by discriminate.
    rewrite (app_removelast_last [] Hne) at 2.
    apply in_or_app. right. now left.
Qed.

Lemma file_not_blank (f l : bytes) :
  In l (lines_of f) -> is_blank l = false -> is_blank f = false.
Proof.
  intros Hl Hb. destruct (is_blank f) eqn:E; auto.
  rewrite (blank_file_lines f E l Hl) in Hb. discriminate.
Qed.

(** ** A comment block in front of a requirement, on the lines of the file *)




(** ** The block in front of [pkg-resources==0.0.0] *)

Lemma split_rest_keeps (P T : list Requirement) (e : Requirement) :
  value e <> None ->
  exists T', fst (split_rest (P ++ e :: T)) = P ++ e :: T'.
Proof.
  intros He. unfold split_rest.
  destruct (value (last (P ++ e :: T) new_requirement)) eqn:E; cbn [fst].
  - now exists T.
  - destruct (@exists_last _ (e :: T)) as (T0 & t & HT); [discriminate|].
    rewrite HT, app_assoc, last_last in E.
    rewrite HT, app_assoc, removelast_last.
    destruct T0 as [|e0 T0]; cbn [app] in HT; injection HT as <- HT.
    + congruence.
    + now exists T0.
Qed.

Lemma occ_zero_not_in (x : bytes) (l : list bytes) :
  occ x l = 0 -> ~ In x l.
Proof. unfold occ. apply count_occ_not_In. Qed.

Lemma not_in_occ_zero (x : bytes) (l : list bytes) :
  ~ In x l -> occ x l = 0.
Proof. unfold occ. apply count_occ_not_In. Qed.

(** C9: the comments attached to a removed entry are the whole block of
    comment and blank lines in front of a line [pkg-resources==0.0.0], from
    the start of the file or from the end of a finished entry, and the
    filter removes such a block with the line: the output holds a line (the
    marker [\n] aside) at most as often as the file holds it outside the
    block and the removed line, so a comment of the block that stands
    nowhere else in the file is nowhere in the output. *)
Theorem blacklisted_comments_dropped
        (f : bytes) (rv : bool) (ret : nat) (evs : list event)
        (cs : list bytes) :
  fix_requirements f rv = Ok (ret, evs) ->
  (In {| value := Some blacklisted; comments := cs |} (scan (lines_of f)) <->
   exists L1 L2,
     lines_of f = L1 ++ cs ++ blacklisted :: L2 /\ block_start L1 cs) /\
  (forall L1 L2,
      lines_of f = L1 ++ cs ++ blacklisted :: L2 -> block_start L1 cs ->
      forall c, c <> marker ->
        occ c (readlines (content_after f evs)) <= occ c (L1 ++ L2) /\
        (~ In c (L1 ++ L2) -> ~ In c (readlines (content_after f evs)))).
Proof.
  intros H. split; [apply blacklisted_entry_iff_block|].
  intros L1 L2 HL Hstart c Hc.
  assert (Hb : is_blank f = false).
  { apply (@file_not_blank f blacklisted); [|reflexivity].
    rewrite HL. apply in_or_app. right. apply in_or_app. right. now left. }
  assert (Hocc : occ c (readlines (content_after f evs))
                 <= occ c (L1 ++ L2)).
  { destruct (output_lines _ _ H Hb) as (out & _ & Hp & _ & Hl).
    rewrite Hl, occ_app.
    assert (Ho : occ c (flat_map phys_lines out)
                 = occ c (flat_map phys_lines (parsed (lines_of f)))).
    { apply Permutation_count_occ, Permutation_flat_map.
      now apply Permutation_sym. }
    rewrite Ho. clear Ho Hl Hp out.
    set (e := {| value := Some blacklisted; comments := cs |}).
    assert (Hv : value_ok blacklisted = true) by reflexivity.
    destruct (@block_entry L1 cs blacklisted L2 Hstart Hv) as (T & Hscan).
    change (readlines blacklisted) with [blacklisted] in Hscan.
    cbn [app] in Hscan. fold e in Hscan.
    pose proof (scan_occ (lines_of_terminated f) Hc) as Hs.
    rewrite split_rest_lines, occ_app in Hs.
    fold (rest_of (lines_of f)) in Hs.
    unfold parsed.
    destruct (@split_rest_keeps (scan L1) T e) as (T' & Hfst);
      [discriminate|].
    rewrite HL, Hscan, Hfst in Hs |- *.
    unfold drop_blacklisted. rewrite filter_app. cbn [filter].
    change (value_is blacklisted e) with true. cbn [negb].
    rewrite flat_map_app, occ_app.
    rewrite !flat_map_app, !occ_app in Hs.
    cbn [flat_map] in Hs. rewrite !occ_app in Hs.
    change (phys_lines e) with (cs ++ [blacklisted]) in Hs.
    rewrite !occ_app in Hs.
    change (occ c (blacklisted :: L2))
      with (occ c ([blacklisted] ++ L2)) in Hs.
    rewrite !occ_app in Hs.
    pose proof (occ_flat_map_filter
                  (fun req => negb (value_is blacklisted req))
                  (scan L1) c) as H1.
    pose proof (occ_flat_map_filter
                  (fun req => negb (value_is blacklisted req)) T' c) as H2.
    rewrite occ_app. lia. }
  split; auto.
  intros Hn. apply occ_zero_not_in.
  apply not_in_occ_zero in Hn. lia.
Qed.

Lemma blacklisted_comments_dropped_witness :
  In {| value := Some blacklisted; comments := [b "#pin\n"] |}
     (scan (lines_of (b "bar\n#pin\npkg-resources==0.0.0\nfoo\n"))) /\
  occ (b "#pin\n") (readlines (b "bar\nfoo\n"))
  <= occ (b "#pin\n") ([b "bar\n"] ++ [b "foo\n"]) /\
  ~ In (b "#pin\n") (readlines (b "bar\nfoo\n")).
Proof.
  destruct (@blacklisted_comments_dropped
              (b "bar\n#pin\npkg-resources==0.0.0\nfoo\n") false FAIL
              [Seek 0; Write (b "bar\nfoo\n"); Truncate] [b "#pin\n"])
    as [Hiff Hrem]; [by_run|].
  assert (HL : lines_of (b "bar\n#pin\npkg-resources==0.0.0\nfoo\n")
               = [b "bar\n"] ++ [b "#pin\n"] ++ blacklisted :: [b "foo\n"])
    by by_run.
  assert (Hstart : block_start [b "bar\n"] [b "#pin\n"])
    by (right; split; by_run).
  split.
  - apply Hiff. exists [b "bar\n"], [b "foo\n"]. split; assumption.
  - destruct (Hrem [b "bar\n"] [b "foo\n"] HL Hstart (b "#pin\n"))
      as [Hocc Hnot]; [vm_compute; discriminate|].
    split; [exact Hocc|]. apply Hnot.
    vm_compute. intros [E|[E|[]]]; discriminate.
Defined.
